(** * csim: a set-associative cache simulator (csim.c)

    A shallow embedding of [csim.c] and the properties of its
    specification.  The C globals are split in two records: [Params] holds
    what [parse_arguments] writes (the geometry, the policy and the two
    shift amounts), [Mem] holds what [allocate_cache] and [access_data]
    write (the cache, its mask, the two policy clocks and the three
    statistics).  The open trace stream is the text that is still unread.

    Integers are [Z] with the wrap-around of their C type written out.
    Printing under [-v] does not touch the simulation state and is left
    out; the text printed on the error exits of [parse_arguments] is kept. *)

From Stdlib Require Import ZArith List Lia Bool Ascii String.
Import ListNotations.
Local Open Scope Z_scope.

(** ** C integer types *)

Module CInt.

Definition UINT_MOD : Z := 2 ^ 32.
Definition ULONG_MOD : Z := 2 ^ 64.
Definition INT_MAX : Z := 2 ^ 31 - 1.
Definition ULONG_MAX : Z := 2 ^ 64 - 1.
Definition LONG_MAX : Z := 2 ^ 63 - 1.
Definition LONG_MIN : Z := - 2 ^ 63.

(** Conversion to [unsigned int] and to [unsigned long]. *)
Definition to_uint (x : Z) : Z := x mod UINT_MOD.
Definition to_ulong (x : Z) : Z := x mod ULONG_MOD.

(** Conversion to [int].  Overflow of a signed counter is undefined in C;
    the model takes the two's-complement result. *)
Definition to_int (x : Z) : Z := (x + 2 ^ 31) mod UINT_MOD - 2 ^ 31.

(** [++x] on an [int] and on an [unsigned int]. *)
Definition incr_int (x : Z) : Z := to_int (x + 1).
Definition incr_uint (x : Z) : Z := to_uint (x + 1).

(** [__builtin_clz] and [__builtin_ctz] on an [unsigned int].  Both are
    undefined at 0: the platform supplies whatever they return there. *)
Fixpoint pos_ctz (p : positive) : Z :=
  match p with
  | xO q => 1 + pos_ctz q
  | _ => 0
  end.

Definition builtin_clz (at_zero : Z) (x : Z) : Z :=
  if x =? 0 then at_zero else 31 - Z.log2 x.

Definition builtin_ctz (at_zero : Z) (x : Z) : Z :=
  match x with
  | Zpos p => pos_ctz p
  | _ => at_zero
  end.

End CInt.
Import CInt.

(** ** The C library, as far as the program uses it *)

Module Libc.

Definition isspace (c : ascii) : bool :=
  let n := N_of_ascii c in
  ((n =? 32) || ((9 <=? n) && (n <=? 13)))%N.

Definition dec_digit (c : ascii) : option Z :=
  let n := Z.of_N (N_of_ascii c) in
  if (48 <=? n) && (n <=? 57) then Some (n - 48) else None.

Definition hex_digit (c : ascii) : option Z :=
  let n := Z.of_N (N_of_ascii c) in
  if (48 <=? n) && (n <=? 57) then Some (n - 48)
  else if (97 <=? n) && (n <=? 102) then Some (n - 87)
  else if (65 <=? n) && (n <=? 70) then Some (n - 55)
  else None.

Fixpoint skip_space (s : string) : string :=
  match s with
  | String c r => if isspace c then skip_space r else s
  | EmptyString => s
  end.

(** The longest run of digits in [base] at the head of [s]: its value,
    the number of digits, and the rest of the text. *)
Fixpoint scan_digits (digit : ascii -> option Z) (base : Z)
         (s : string) (acc : Z) (count : nat) : Z * nat * string :=
  match s with
  | String c r =>
      match digit c with
      | Some d => scan_digits digit base r (acc * base + d) (Datatypes.S count)
      | None => (acc, count, s)
      end
  | EmptyString => (acc, count, s)
  end.

(** An optional sign. *)
Definition scan_sign (s : string) : bool * string :=
  match s with
  | String "-" r => (true, r)
  | String "+" r => (false, r)
  | _ => (false, s)
  end.

(** The value [strtol] stores for a sign and a magnitude: clamped to
    [long]. *)
Definition clamp_long (neg : bool) (mag : Z) : Z :=
  let v := if neg then - mag else mag in
  Z.max LONG_MIN (Z.min LONG_MAX v).

(** The value [strtoul] stores: clamped to [unsigned long], negated
    modulo 2^64 under a minus sign. *)
Definition clamp_ulong (neg : bool) (mag : Z) : Z :=
  if ULONG_MAX <? mag then ULONG_MAX
  else if neg then to_ulong (- mag) else mag.

(** [atoi]: the decimal number at the head of the text, 0 when there is
    none, converted from [long] to [int]. *)
Definition atoi (s : string) : Z :=
  let '(neg, r) := scan_sign (skip_space s) in
  let '(mag, _, _) := scan_digits dec_digit 10 r 0 O in
  to_int (clamp_long neg mag).

(** The conversion [%ld]: white space, a sign, at least one decimal
    digit. *)
Definition scan_ld (s : string) : option (Z * string) :=
  let '(neg, r) := scan_sign (skip_space s) in
  match scan_digits dec_digit 10 r 0 O with
  | (_, O, _) => None
  | (mag, _, rest) => Some (clamp_long neg mag, rest)
  end.

(** The conversion [%lx]: white space, a sign, an optional [0x] or [0X],
    hexadecimal digits.  A bare [0x] reads as 0, as glibc has it. *)
Definition scan_lx (s : string) : option (Z * string) :=
  let '(neg, r) := scan_sign (skip_space s) in
  match r with
  | String "0" (String "x" r') | String "0" (String "X" r') =>
      let '(mag, _, rest) := scan_digits hex_digit 16 r' 0 O in
      Some (clamp_ulong neg mag, rest)
  | _ =>
      match scan_digits hex_digit 16 r 0 O with
      | (_, O, _) => None
      | (mag, _, rest) => Some (clamp_ulong neg mag, rest)
      end
  end.

(** The text left by a conversion that finds no digit: the white space and
    the sign are consumed, the character that is no digit is put back. *)
Definition scan_failed (s : string) : string :=
  snd (scan_sign (skip_space s)).

Definition EOF : Z := -1.

End Libc.
Import Libc.

(** ** The platform: what the program reads from outside itself *)

Record Platform := mkPlatform {
  clz_zero : Z;                       (* __builtin_clz(0) *)
  ctz_zero : Z;                       (* __builtin_ctz(0) *)
  fopen : string -> option string;    (* the text of a readable file *)
  strerror_errno : string -> string   (* strerror(errno) once fopen failed *)
}.

(** ** Globals *)

(** [typedef enum { FIFO = 1, LRU = 2 } Policy]; the global [policy] starts
    at 0, which is neither. *)
Definition FIFO : Z := 1.
Definition LRU : Z := 2.

(** The globals set from the command line.  [nS], [nK] and [nB] are the C
    globals [S], [K] and [B] ([S] is taken in Rocq). *)
Record Params := mkParams {
  verbose : Z;
  nS : Z;
  nK : Z;
  nB : Z;
  policy : Z;
  B_temp : Z;
  S_temp : Z
}.

Definition initial_params : Params := mkParams 0 0 0 0 0 0 0.

Definition set_verbose (p : Params) (v : Z) : Params :=
  mkParams v (nS p) (nK p) (nB p) (policy p) (B_temp p) (S_temp p).
Definition set_nS (p : Params) (v : Z) : Params :=
  mkParams (verbose p) v (nK p) (nB p) (policy p) (B_temp p) (S_temp p).
Definition set_nK (p : Params) (v : Z) : Params :=
  mkParams (verbose p) (nS p) v (nB p) (policy p) (B_temp p) (S_temp p).
Definition set_nB (p : Params) (v : Z) : Params :=
  mkParams (verbose p) (nS p) (nK p) v (policy p) (B_temp p) (S_temp p).
Definition set_policy (p : Params) (v : Z) : Params :=
  mkParams (verbose p) (nS p) (nK p) (nB p) v (B_temp p) (S_temp p).
Definition set_B_temp (p : Params) (v : Z) : Params :=
  mkParams (verbose p) (nS p) (nK p) (nB p) (policy p) v (S_temp p).

(** ** Command line *)

(** [#define INT_LOG2(x) (31 - __builtin_clz(x))] *)
Definition INT_LOG2 (pf : Platform) (x : Z) : Z :=
  31 - builtin_clz (clz_zero pf) (to_uint x).

(** [#define NOT_POWER2(x) (__builtin_clz(x) + __builtin_ctz(x) != 31)] *)
Definition NOT_POWER2 (pf : Platform) (x : Z) : bool :=
  negb (builtin_clz (clz_zero pf) (to_uint x)
        + builtin_ctz (ctz_zero pf) (to_uint x) =? 31).

Definition print_usage : list string :=
  [ "Usage: csim [-hv] -S <num> -K <num> -B <num> -p <policy> -t <file>";
    "Options:";
    "  -h           Print this help message.";
    "  -v           Optional verbose flag.";
    "  -S <num>     Number of sets.           (must be > 0)";
    "  -K <num>     Number of lines per set.  (must be > 0)";
    "  -B <num>     Number of bytes per line. (must be > 0)";
    "  -p <policy>  Eviction policy. (one of 'FIFO', 'LRU')";
    "  -t <file>    Trace file.";
    EmptyString;
    "Examples:";
    "$ ./csim    -S 16  -K 1 -B 16 -p LRU -t traces/yi2.trace";
    "$ ./csim -v -S 256 -K 2 -B 16 -p LRU -t traces/yi2.trace" ]%string.

(** What [parse_arguments] does: it calls [exit] with a status after
    printing some lines, or it returns with the globals set and the trace
    open. *)
Inductive Parse :=
| Exit (status : Z) (printed : list string)
| Parsed (p : Params) (trace_fp : string).

(** The command line as [getopt] hands it over: one option character and
    its argument per call ([?] for an option it does not know), then -1.
    The loop of [parse_arguments], one call of [getopt] per step. *)
Fixpoint parse_options (pf : Platform) (opts : list (ascii * string))
         (p : Params) (trace_fp : option string)
  : Z * list string + Params * option string :=
  match opts with
  | [] => inr (p, trace_fp)
  | (c, optarg) :: rest =>
      if (c =? "S")%char then
        let p := set_nS p (atoi optarg) in
        if NOT_POWER2 pf (nS p)
        then inl (1, ["ERROR: S must be a power of 2"%string])
        else parse_options pf rest p trace_fp
      else if (c =? "K")%char then
        parse_options pf rest (set_nK p (atoi optarg)) trace_fp
      else if (c =? "B")%char then
        parse_options pf rest (set_nB p (atoi optarg)) trace_fp
      else if (c =? "p")%char then
        let p := if (optarg =? "FIFO")%string then set_policy p FIFO else p in
        let p := if (optarg =? "LRU")%string then set_policy p LRU else p in
        parse_options pf rest p trace_fp
      else if (c =? "t")%char then
        match fopen pf optarg with
        | None =>
            inl (1, [("ERROR: " ++ optarg ++ ": "
                      ++ strerror_errno pf optarg)%string])
        | Some text => parse_options pf rest p (Some text)
        end
      else if (c =? "v")%char then
        parse_options pf rest (set_verbose p 1) trace_fp
      else if (c =? "h")%char then
        inl (0, print_usage)
      else
        inl (1, print_usage)
  end.

Definition parse_arguments (pf : Platform) (opts : list (ascii * string))
  : Parse :=
  match parse_options pf opts initial_params None with
  | inl (status, printed) => Exit status printed
  | inr (p, trace_fp) =>
      if (nS p <=? 0) || (nK p <=? 0) || (nB p <=? 0) || (policy p =? 0)
      then Exit 1 ("ERROR: Negative or missing command line arguments"%string
                   :: print_usage)
      else
        match trace_fp with
        | None =>
            Exit 1 ("ERROR: Negative or missing command line arguments"%string
                    :: print_usage)
        | Some text =>
            (* [c = INT_LOG2(S);] writes the local [c]: [S_temp] keeps 0 *)
            let c := INT_LOG2 pf (nS p) in
            Parsed (set_B_temp p (INT_LOG2 pf (nB p))) text
        end
  end.

(** ** Cache data structures *)

(** [struct Block]: [unsigned long tagBits], [long countBlock],
    [char validBits]. *)
Record BlockCache := mkBlock {
  tagBits : Z;
  countBlock : Z;
  validBits : Z
}.

Definition SetCache := list BlockCache.
Definition Cache := list SetCache.

(** The globals of the simulation proper. *)
Record Mem := mkMem {
  setMask : Z;
  num_fifo : Z;
  num_lru : Z;
  cache : Cache;
  miss_count : Z;
  hit_count : Z;
  eviction_count : Z
}.

(** The initializers of the C globals. *)
Definition initial_mem : Mem := mkMem 0 1 1 [] 0 0 0.

Definition empty_block : BlockCache := mkBlock 0 0 0.

(** [set_cache[idx]] and [cache[num_set]].  Outside the array C reads
    whatever is there; the model reads an empty line or an empty set, and
    the theorems only index inside. *)
Definition line (set_cache : SetCache) (idx : nat) : BlockCache :=
  nth idx set_cache empty_block.

Definition set_at (c : Cache) (num_set : Z) : SetCache :=
  nth (Z.to_nat num_set) c [].

(** A store to [a[idx]]; nothing is stored outside the array. *)
Fixpoint store {A : Type} (a : list A) (idx : nat) (x : A) : list A :=
  match a, idx with
  | [], _ => []
  | _ :: t, O => x :: t
  | h :: t, Datatypes.S i => h :: store t i x
  end.

Definition allocate_cache (p : Params) (m : Mem) : Mem :=
  mkMem (to_ulong (nS p - 1)) (num_fifo m) (num_lru m)
        (repeat (repeat empty_block (Z.to_nat (nK p))) (Z.to_nat (nS p)))
        (miss_count m) (hit_count m) (eviction_count m).

(** ** One access *)

(** The test of the first loop:
    [set_cache[idx].tagBits == num_tag && set_cache[idx].validBits]. *)
Definition matches (num_tag : Z) (b : BlockCache) : bool :=
  (tagBits b =? num_tag) && negb (validBits b =? 0).

(** The test of the second loop: [!set_cache[idx].validBits]. *)
Definition invalid (b : BlockCache) : bool := validBits b =? 0.

(** [for (idx = i; idx < i + n; ++idx) if (test(set_cache[idx])) ...]
    leaving the loop at the first [idx] that passes the test. *)
Fixpoint first_idx (test : BlockCache -> bool) (set_cache : SetCache)
         (n : nat) (idx : nat) : option nat :=
  match n with
  | O => None
  | Datatypes.S n' =>
      if test (line set_cache idx) then Some idx
      else first_idx test set_cache n' (Datatypes.S idx)
  end.

(** The victim loop of the LRU branch, from [idx] on for [n] iterations:
    [if (lowest_count > set_cache[idx].countBlock) { ... }]. *)
Fixpoint lru_victim (set_cache : SetCache) (n : nat) (idx : nat)
         (lowest_count : Z) (lowest_count_idx : nat) : nat :=
  match n with
  | O => lowest_count_idx
  | Datatypes.S n' =>
      if countBlock (line set_cache idx) <? lowest_count
      then lru_victim set_cache n' (Datatypes.S idx)
                      (countBlock (line set_cache idx)) idx
      else lru_victim set_cache n' (Datatypes.S idx)
                      lowest_count lowest_count_idx
  end.

(** The victim loop of the FIFO branch:
    [if (set_cache[recent].countBlock > set_cache[idx].countBlock)
       recent = idx;]. *)
Fixpoint fifo_victim (set_cache : SetCache) (n : nat) (idx : nat)
         (recent : nat) : nat :=
  match n with
  | O => recent
  | Datatypes.S n' =>
      if countBlock (line set_cache idx) <? countBlock (line set_cache recent)
      then fifo_victim set_cache n' (Datatypes.S idx) idx
      else fifo_victim set_cache n' (Datatypes.S idx) recent
  end.

Definition num_tag_of (p : Params) (addr : Z) : Z :=
  Z.shiftr addr (S_temp p + B_temp p).

Definition num_set_of (p : Params) (m : Mem) (addr : Z) : Z :=
  Z.land (setMask m) (Z.shiftr addr (B_temp p)).

(** The LRU branch on the set [set_cache]: the set, the clock and the three
    counters after the access. *)
Definition access_lru (k : nat) (num_tag : Z) (set_cache : SetCache)
           (clock miss hit evict : Z) : SetCache * Z * (Z * Z * Z) :=
  match first_idx (matches num_tag) set_cache k O with
  | Some idx =>
      let clock := incr_uint clock in
      (store set_cache idx
             (mkBlock (tagBits (line set_cache idx)) clock
                      (validBits (line set_cache idx))),
       clock, (miss, incr_int hit, evict))
  | None =>
      let miss := incr_int miss in
      match first_idx invalid set_cache k O with
      | Some inv =>
          let clock := incr_uint clock in
          (store set_cache inv (mkBlock num_tag clock 1),
           clock, (miss, hit, evict))
      | None =>
          let evict := incr_int evict in
          let lowest_count_idx :=
            lru_victim set_cache k O (countBlock (line set_cache O)) O in
          let clock := incr_uint clock in
          (store set_cache lowest_count_idx
                 (mkBlock num_tag clock
                          (validBits (line set_cache lowest_count_idx))),
           clock, (miss, hit, evict))
      end
  end.

(** The FIFO branch. *)
Definition access_fifo (k : nat) (num_tag : Z) (set_cache : SetCache)
           (clock miss hit evict : Z) : SetCache * Z * (Z * Z * Z) :=
  match first_idx (matches num_tag) set_cache k O with
  | Some idx => (set_cache, clock, (miss, incr_int hit, evict))
  | None =>
      let miss := incr_int miss in
      match first_idx invalid set_cache k O with
      | Some inv =>
          let clock := incr_uint clock in
          (store set_cache inv (mkBlock num_tag clock 1),
           clock, (miss, hit, evict))
      | None =>
          let evict := incr_int evict in
          let recent := fifo_victim set_cache k O O in
          let clock := incr_uint clock in
          (store set_cache recent (mkBlock num_tag clock 1),
           clock, (miss, hit, evict))
      end
  end.

(** [access_data]: [set_cache] points into [cache], so what the branch
    stores in the set is stored in [cache[num_set]]. *)
Definition access_data (p : Params) (m : Mem) (addr : Z) : Mem :=
  let num_tag := num_tag_of p addr in
  let num_set := num_set_of p m addr in
  let set_cache := set_at (cache m) num_set in
  let k := Z.to_nat (nK p) in
  if policy p =? LRU then
    let '(set', clock, (miss, hit, evict)) :=
      access_lru k num_tag set_cache (num_lru m)
                 (miss_count m) (hit_count m) (eviction_count m) in
    mkMem (setMask m) (num_fifo m) clock
          (store (cache m) (Z.to_nat num_set) set') miss hit evict
  else if policy p =? FIFO then
    let '(set', clock, (miss, hit, evict)) :=
      access_fifo k num_tag set_cache (num_fifo m)
                  (miss_count m) (hit_count m) (eviction_count m) in
    mkMem (setMask m) clock (num_lru m)
          (store (cache m) (Z.to_nat num_set) set') miss hit evict
  else m.

(** ** Trace replay *)

(** [fscanf(trace_fp, " %c %lx,%ld", &trace_cmd, &address, &size)]: the
    value returned, the three variables (meaningful as far as the count
    says they were assigned) and the text left in the stream.  [size] is an
    [unsigned long] written through [%ld]. *)
Definition fscanf_trace (trace_fp : string) : Z * (ascii * Z * Z) * string :=
  match skip_space trace_fp with
  | EmptyString => (EOF, (zero, 0, 0), EmptyString)
  | String trace_cmd r1 =>
      match scan_lx r1 with
      | None => (1, (trace_cmd, 0, 0), scan_failed r1)
      | Some (address, r2) =>
          match r2 with
          | String "," r3 =>
              match scan_ld r3 with
              | None => (2, (trace_cmd, address, 0), scan_failed r3)
              | Some (size, r4) => (3, (trace_cmd, address, to_ulong size), r4)
              end
          | _ => (2, (trace_cmd, address, 0), r2)
          end
      end
  end.

(** [for (idx = first; ...; ++idx) body(idx)], for [n] iterations, over
    whatever the body changes. *)
Fixpoint for_idx {St : Type} (n : nat) (idx : Z) (body : St -> Z -> St)
         (st : St) : St :=
  match n with
  | O => st
  | Datatypes.S n' => for_idx n' (idx + 1) body (body st idx)
  end.

(** [if (size > 1) for (idx = address; idx < address + size; ++idx)
       if (idx == address || idx % B == 0) visit(idx);
     else visit(address);]
    [address + size] is computed in [unsigned long]; the loop runs
    [address + size - address] times when the sum is above [address] and
    not at all otherwise. *)
Definition visit_lines {St : Type} (p : Params) (address size : Z)
           (visit : St -> Z -> St) (st : St) : St :=
  if 1 <? size then
    for_idx (Z.to_nat (to_ulong (address + size) - address)) address
            (fun st idx =>
               if (idx =? address) || (idx mod to_ulong (nB p) =? 0)
               then visit st idx else st)
            st
  else visit st address.

(** The body of the loop of [replay_trace]. *)
Definition replay_record (p : Params) (m : Mem)
           (trace_cmd : ascii) (address size : Z) : Mem :=
  if (trace_cmd =? "L")%char || (trace_cmd =? "S")%char then
    visit_lines p address size (access_data p) m
  else if (trace_cmd =? "M")%char then
    visit_lines p address size
                (fun m idx => access_data p (access_data p m idx) idx) m
  else m.

(** [while (fscanf(...) == 3) { ... }], at most [fuel] times. *)
Fixpoint replay_loop (fuel : nat) (p : Params) (trace_fp : string) (m : Mem)
  : Mem :=
  match fuel with
  | O => m
  | Datatypes.S fuel' =>
      let '(n, (trace_cmd, address, size), rest) := fscanf_trace trace_fp in
      if n =? 3
      then replay_loop fuel' p rest (replay_record p m trace_cmd address size)
      else m
  end.

(** Every record read takes characters off the stream, so the length of
    the text bounds the number of iterations ([replay_loop_fuel] below). *)
Definition replay_trace (p : Params) (trace_fp : string) (m : Mem) : Mem :=
  replay_loop (String.length trace_fp) p trace_fp m.

(** ** The program *)

Inductive Outcome :=
| Exited (status : Z) (printed : list string)
| Summary (hits misses evictions : Z).

Definition run (p : Params) (trace_fp : string) : Mem :=
  replay_trace p trace_fp (allocate_cache p initial_mem).

Definition main (pf : Platform) (opts : list (ascii * string)) : Outcome :=
  match parse_arguments pf opts with
  | Exit status printed => Exited status printed
  | Parsed p trace_fp =>
      let m := run p trace_fp in
      Summary (hit_count m) (miss_count m) (eviction_count m)
  end.

(** ** Sample runs *)

Definition newline : string := String (ascii_of_nat 10) EmptyString.

Definition lines (l : list string) : string :=
  fold_right (fun s acc => (s ++ newline ++ acc)%string) EmptyString l.

(** A platform with one trace file, [t]; [__builtin_clz(0)] and
    [__builtin_ctz(0)] give 32 there, as [lzcnt] and [tzcnt] do. *)
Definition one_file (text : string) : Platform :=
  mkPlatform 32 32
             (fun name => if (name =? "t")%string then Some text else None)
             (fun _ => "No such file or directory"%string).

Definition csim (S K B policy : string) (trace : list string) : Outcome :=
  main (one_file (lines trace))
       [ ("S"%char, S); ("K"%char, K); ("B"%char, B);
         ("p"%char, policy); ("t"%char, "t"%string) ].

Local Abbreviation length := List.length.

(** ** Vocabulary of the properties *)

(** The line with the smallest [countBlock] among the first [k], the one
    of lowest index when several share it. *)
Definition first_min (s : SetCache) (k v : nat) : Prop :=
  (v < k)%nat /\
  (forall j, (j < k)%nat -> countBlock (line s v) <= countBlock (line s j)) /\
  (forall j, (j < v)%nat -> countBlock (line s v) < countBlock (line s j)).

(** What [allocate_cache] sets up and [access_data] keeps: [S] sets of [K]
    lines, and the mask [S - 1]. *)
Definition wf (p : Params) (m : Mem) : Prop :=
  0 < nS p <= INT_MAX /\
  setMask m = nS p - 1 /\
  length (cache m) = Z.to_nat (nS p) /\
  (forall i, length (nth i (cache m) []) = Z.to_nat (nK p)
             \/ (length (cache m) <= i)%nat).

(** Memory after the accesses [addrs], in turn, from memory [m]. *)
Definition accesses (p : Params) (m : Mem) (addrs : list Z) : Mem :=
  fold_left (access_data p) addrs m.

(** One set of three lines holding tags 5, 6, 7 with clock values 9, 4, 4:
    the access to address 8 under FIFO evicts line 1. *)
Definition fifo_1x3 : Params := mkParams 0 1 3 1 FIFO 0 0.
Definition full_set : SetCache := [mkBlock 5 9 1; mkBlock 6 4 1; mkBlock 7 4 1].
Definition full_mem : Mem := mkMem 0 9 1 [full_set] 3 0 0.

(** The outcome of one access, read off the statistics before and after
    it. *)
Definition is_hit (m m' : Mem) : Prop :=
  hit_count m' = incr_int (hit_count m) /\
  miss_count m' = miss_count m /\
  eviction_count m' = eviction_count m.

Definition is_miss (m m' : Mem) : Prop :=
  miss_count m' = incr_int (miss_count m) /\
  hit_count m' = hit_count m.

(** Whether the line of [addr] is in the cache: the first loop of
    [access_data] finds it. *)
Definition present (p : Params) (m : Mem) (addr : Z) : bool :=
  match first_idx (matches (num_tag_of p addr))
                  (set_at (cache m) (num_set_of p m addr))
                  (Z.to_nat (nK p)) O with
  | Some _ => true
  | None => false
  end.

(** The addresses [first], [first + 1], ..., [n] of them. *)
Fixpoint zseq (first : Z) (n : nat) : list Z :=
  match n with
  | O => []
  | Datatypes.S n' => first :: zseq (first + 1) n'
  end.

(** The addresses at which a record makes the driver call [visit], in the
    order of the calls. *)
Definition selected (p : Params) (address size : Z) : list Z :=
  visit_lines p address size (fun calls idx => calls ++ [idx]) [].

(** [idx == address || idx % B == 0] *)
Definition line_start (p : Params) (address idx : Z) : bool :=
  (idx =? address) || (idx mod nB p =? 0).

(** The parameters [parse_arguments] leaves for the geometry [S], [K], [B]
    and a policy, and the memory [allocate_cache] makes of them. *)
Definition geometry (S K B pol : Z) : Params :=
  mkParams 0 S K B pol (Z.log2 B) 0.

Definition fresh (p : Params) : Mem := allocate_cache p initial_mem.

(** Two sets of one line of four bytes, under LRU. *)
Definition sample_lru : Params := geometry 2 1 4 LRU.

(** The records [fscanf_trace] reads off a trace, up to the first call
    that does not return 3, and their replay in turn. *)
Fixpoint scan_loop (fuel : nat) (trace_fp : string) : list (ascii * Z * Z) :=
  match fuel with
  | O => []
  | Datatypes.S fuel' =>
      let '(n, r, rest) := fscanf_trace trace_fp in
      if n =? 3 then r :: scan_loop fuel' rest else []
  end.

Definition records (trace_fp : string) : list (ascii * Z * Z) :=
  scan_loop (String.length trace_fp) trace_fp.

Definition replay_records (p : Params) (recs : list (ascii * Z * Z))
           (m : Mem) : Mem :=
  fold_left (fun m r => replay_record p m (fst (fst r)) (snd (fst r)) (snd r))
            recs m.

(** The three statistics. *)
Definition counts (m : Mem) : Z * Z * Z :=
  (hit_count m, miss_count m, eviction_count m).

(** Two sets, and two caches, related line by line; the relation on the
    lines of a set may depend on the index of the set. *)
Definition set_rel (Rl : BlockCache -> BlockCache -> Prop)
           (s1 s2 : SetCache) : Prop :=
  length s1 = length s2 /\ forall j, Rl (line s1 j) (line s2 j).

Definition cache_rel (Rl : nat -> BlockCache -> BlockCache -> Prop)
           (c1 c2 : Cache) : Prop :=
  length c1 = length c2 /\
  forall i, set_rel (Rl i) (nth i c1 []) (nth i c2 []).

(** Lines that hold the same tag and are both valid or both invalid. *)
Definition same_line (a b : BlockCache) : Prop :=
  tagBits a = tagBits b /\ (validBits a =? 0) = (validBits b =? 0).

(** Memories that differ in the clocks at most. *)
Definition same_lines (m1 m2 : Mem) : Prop :=
  setMask m1 = setMask m2 /\
  counts m1 = counts m2 /\
  cache_rel (fun _ => same_line) (cache m1) (cache m2).

(** A short trace: loads, a store and a modify over three lines. *)
Definition sample_trace : string :=
  lines [ " L 10,4"; " S 18,8"; " M 20,4"; " L 10,1"; " L 30,4"; " M 18,2" ]%string.

(** The parameters with [INT_LOG2(S)] in [S_temp], the shift that the
    decomposition [tag = address >> (setIndexBits + blockOffsetBits)]
    asks for. *)
Definition with_set_bits (p : Params) : Params :=
  mkParams (verbose p) (nS p) (nK p) (nB p) (policy p) (B_temp p)
           (Z.log2 (nS p)).

(** A line of set [i] whose tag keeps the [s] set-index bits, against the
    same line with the tag above them. *)
Definition tag_line (s : Z) (i : nat) (a b : BlockCache) : Prop :=
  validBits a = validBits b /\
  countBlock a = countBlock b /\
  (validBits a <> 0 -> tagBits a = tagBits b * 2 ^ s + Z.of_nat i).

Definition tag_mems (s : Z) (m1 m2 : Mem) : Prop :=
  setMask m1 = 2 ^ s - 1 /\ setMask m2 = 2 ^ s - 1 /\
  num_fifo m1 = num_fifo m2 /\ num_lru m1 = num_lru m2 /\
  counts m1 = counts m2 /\
  cache_rel (tag_line s) (cache m1) (cache m2).

(** The access to [addr] evicts the line of [victim]: that line is in the
    cache before the access and not after it, and the access counts an
    eviction. *)
Definition evicts (p : Params) (m : Mem) (addr victim : Z) : Prop :=
  present p m victim = true /\
  present p (access_data p m addr) victim = false /\
  eviction_count (access_data p m addr) = incr_int (eviction_count m).

(** What an access under LRU, or under FIFO, reads and writes: the set,
    the policy's clock and the three counters. *)
Definition view_lru (m : Mem) (n : Z) : SetCache * Z * (Z * Z * Z) :=
  (set_at (cache m) n, num_lru m,
   (miss_count m, hit_count m, eviction_count m)).

Definition view_fifo (m : Mem) (n : Z) : SetCache * Z * (Z * Z * Z) :=
  (set_at (cache m) n, num_fifo m,
   (miss_count m, hit_count m, eviction_count m)).

Definition lru_on (k : nat) (t : Z) (v : SetCache * Z * (Z * Z * Z))
  : SetCache * Z * (Z * Z * Z) :=
  access_lru k t (fst (fst v)) (snd (fst v))
             (fst (fst (snd v))) (snd (fst (snd v))) (snd (snd v)).

Definition fifo_on (k : nat) (t : Z) (v : SetCache * Z * (Z * Z * Z))
  : SetCache * Z * (Z * Z * Z) :=
  access_fifo k t (fst (fst v)) (snd (fst v))
              (fst (fst (snd v))) (snd (fst (snd v))) (snd (snd v)).

(** Whether a line with tag [t] is among the first [k] lines of the set of
    a view. *)
Definition holds (k : nat) (t : Z) (v : SetCache * Z * (Z * Z * Z)) : bool :=
  match first_idx (matches t) (fst (fst v)) k O with
  | Some _ => true
  | None => false
  end.

(** A set of [k] lines as [allocate_cache] leaves it, with the initial
    clock and counters. *)
Definition fresh_view (k : nat) : SetCache * Z * (Z * Z * Z) :=
  (repeat empty_block k, 1, (0, 0, 0)).

(** Four sets of three lines of sixteen bytes, and one set of two lines of
    one byte. *)
Definition sample_3way (pol : Z) : Params := geometry 4 3 16 pol.
Definition sample_2way (pol : Z) : Params := geometry 1 2 1 pol.

(** ** Vocabulary of the command line *)

(** The value the last option [c] leaves in its global, [d] when the
    option is not given. *)
Definition last_int (c : ascii) (opts : list (ascii * string)) (d : Z) : Z :=
  fold_left (fun acc o => if (fst o =? c)%char then atoi (snd o) else acc)
            opts d.

(** Some [-p] names one of the two policies; some [-t] is given. *)
Definition names_policy (opts : list (ascii * string)) : bool :=
  existsb (fun o => (fst o =? "p")%char
                    && ((snd o =? "FIFO")%string || (snd o =? "LRU")%string))
          opts.

Definition gives_trace (opts : list (ascii * string)) : bool :=
  existsb (fun o => (fst o =? "t")%char) opts.

(** An option the loop of [parse_arguments] goes past. *)
Definition option_ok (pf : Platform) (o : ascii * string) : bool :=
  if (fst o =? "S")%char then negb (NOT_POWER2 pf (atoi (snd o)))
  else if (fst o =? "K")%char || (fst o =? "B")%char
          || (fst o =? "p")%char || (fst o =? "v")%char then true
  else if (fst o =? "t")%char then
         match fopen pf (snd o) with Some _ => true | None => false end
  else false.

(** The configurations the program refuses when no [-h] is given: an [-S]
    that [NOT_POWER2] rejects, an option [getopt] does not know, a trace
    file that cannot be opened, a non-positive or missing [S], [K] or [B],
    no [-p] that names FIFO or LRU, or no [-t]. *)
Definition refused (pf : Platform) (opts : list (ascii * string)) : Prop :=
  (exists a, In ("S"%char, a) opts /\ NOT_POWER2 pf (atoi a) = true) \/
  (exists c a, In (c, a) opts /\ ~ In c (list_ascii_of_string "SKBptvh")) \/
  (exists f, In ("t"%char, f) opts /\ fopen pf f = None) \/
  last_int "S" opts 0 <= 0 \/ last_int "K" opts 0 <= 0 \/
  last_int "B" opts 0 <= 0 \/
  names_policy opts = false \/ gives_trace opts = false.

Definition no_help (opts : list (ascii * string)) : Prop :=
  forall a, ~ In ("h"%char, a) opts.

(** The command line [-S 4 -K 1 -B 16 -p LRU -t t]. *)
Definition sample_options : list (ascii * string) :=
  [ ("S"%char, "4"%string); ("K"%char, "1"%string); ("B"%char, "16"%string);
    ("p"%char, "LRU"%string); ("t"%char, "t"%string) ].

(** ** Vocabulary of the further properties *)

(** Whether the set of [addr] has an invalid line: the second loop of
    [access_data] finds one. *)
Definition has_free (p : Params) (m : Mem) (addr : Z) : bool :=
  match first_idx invalid (set_at (cache m) (num_set_of p m addr))
                  (Z.to_nat (nK p)) O with
  | Some _ => true
  | None => false
  end.

(** No two valid lines among the [K] lines of a set hold the same tag. *)
Definition unique_tags (p : Params) (m : Mem) : Prop :=
  forall i j1 j2,
    (j1 < Z.to_nat (nK p))%nat -> (j2 < Z.to_nat (nK p))%nat ->
    validBits (line (nth i (cache m) []) j1) <> 0 ->
    validBits (line (nth i (cache m) []) j2) <> 0 ->
    tagBits (line (nth i (cache m) []) j1)
    = tagBits (line (nth i (cache m) []) j2) ->
    j1 = j2.

(** No line carries a stamp above the LRU clock. *)
Definition stamps_below (m : Mem) : Prop :=
  forall i j, countBlock (line (nth i (cache m) []) j) <= num_lru m.

(** The addresses [a], [b], [a], [b], ..., [n] of them. *)
Fixpoint alternate (a b : Z) (n : nat) : list Z :=
  match n with
  | O => []
  | Datatypes.S n' => a :: alternate b a n'
  end.

(** The policy the last [-p] that names one leaves, the stream the last
    [-t] opens, and [verbose] after the options: [d] when none applies. *)
Definition last_policy (opts : list (ascii * string)) (d : Z) : Z :=
  fold_left (fun acc o =>
               if (fst o =? "p")%char
               then if (snd o =? "LRU")%string then LRU
                    else if (snd o =? "FIFO")%string then FIFO else acc
               else acc)
            opts d.

Definition last_trace (pf : Platform) (opts : list (ascii * string))
           (d : option string) : option string :=
  fold_left (fun acc o => if (fst o =? "t")%char then fopen pf (snd o) else acc)
            opts d.

Definition last_verbose (opts : list (ascii * string)) (d : Z) : Z :=
  fold_left (fun acc o => if (fst o =? "v")%char then 1 else acc) opts d.

(** The command lines [parse_arguments] returns from. *)
Definition accepted (pf : Platform) (opts : list (ascii * string)) : Prop :=
  forallb (option_ok pf) opts = true /\
  0 < last_int "S" opts 0 /\ 0 < last_int "K" opts 0 /\
  0 < last_int "B" opts 0 /\
  names_policy opts = true /\ gives_trace opts = true.

(** ** Accounting *)

(** Two values of a 32-bit variable that differ by a multiple of 2^32. *)
Definition cong (a b : Z) : Prop := exists q, a = b + q * UINT_MOD.

(** The lines of a set that hold a block ([validBits] not 0), and their
    number over the whole cache. *)
Definition valid_lines (s : SetCache) : nat :=
  length (filter (fun b => negb (invalid b)) s).

Definition occupied (m : Mem) : Z :=
  Z.of_nat (list_sum (map valid_lines (cache m))).

Definition balanced (m : Mem) : Prop :=
  cong (miss_count m - eviction_count m) (occupied m).

(** The calls of [access_data] the loop of [replay_trace] makes for one
    record, and for a whole trace. *)
Definition calls_of (p : Params) (r : ascii * Z * Z) : nat :=
  let '(trace_cmd, address, size) := r in
  if (trace_cmd =? "L")%char || (trace_cmd =? "S")%char then
    length (selected p address size)
  else if (trace_cmd =? "M")%char then
    2 * length (selected p address size)
  else 0.

Definition calls (p : Params) (trace_fp : string) : nat :=
  list_sum (map (calls_of p) (records trace_fp)).

(** * Properties *)

(** ** Arrays *)

Section Arrays.
Context {A : Type}.
Implicit Types (a : list A) (i j : nat) (x d : A).

Lemma store_length a i x : length (store a i x) = length a.
Proof.
  revert i; induction a as [|h t IH]; intros [|i]; simpl; auto.
Qed.

Lemma nth_store_same a i x d :
  (i < length a)%nat -> nth i (store a i x) d = x.
Proof.
  revert i; induction a as [|h t IH]; intros [|i] Hi; simpl in *;
    try lia; auto.
  apply IH; lia.
Qed.

Lemma nth_store_other a i j x d :
  i <> j -> nth j (store a i x) d = nth j a d.
Proof.
  revert i j; induction a as [|h t IH]; intros [|i] [|j] Hij; simpl;
    try congruence; auto.
Qed.

Lemma store_outside a i x : (length a <= i)%nat -> store a i x = a.
Proof.
  revert i; induction a as [|h t IH]; intros [|i] Hi; simpl in *;
    try lia; auto.
  f_equal; apply IH; lia.
Qed.

Lemma nth_repeat_inside x d n i : (i < n)%nat -> nth i (repeat x n) d = x.
Proof.
  revert i; induction n as [|n IH]; intros [|i] Hi; simpl; try lia; auto.
  apply IH; lia.
Qed.
End Arrays.

(** ** The loops over a set *)

Lemma first_idx_Some test s n i v :
  first_idx test s n i = Some v ->
  (i <= v < i + n)%nat /\ test (line s v) = true /\
  (forall j, (i <= j < v)%nat -> test (line s j) = false).
Proof.
  revert i; induction n as [|n IH]; intros i H; simpl in H; [discriminate|].
  destruct (test (line s i)) eqn:Ht.
  - injection H as <-. repeat split; try lia; auto.
  - apply IH in H as (Hv & Htv & Hlt). repeat split; try lia; auto.
    intros j Hj. destruct (Nat.eq_dec j i) as [->|]; auto. apply Hlt; lia.
Qed.

Lemma first_idx_None test s n i :
  first_idx test s n i = None ->
  forall j, (i <= j < i + n)%nat -> test (line s j) = false.
Proof.
  revert i; induction n as [|n IH]; intros i H j Hj; simpl in H; [lia|].
  destruct (test (line s i)) eqn:Ht; [discriminate|].
  destruct (Nat.eq_dec j i) as [->|]; auto. apply (IH _ H); lia.
Qed.

Lemma first_idx_found test s n i j :
  (i <= j < i + n)%nat -> test (line s j) = true ->
  exists v, first_idx test s n i = Some v.
Proof.
  intros Hj Ht. destruct (first_idx test s n i) eqn:E; eauto.
  rewrite (first_idx_None _ _ _ _ E j Hj) in Ht; discriminate.
Qed.

Lemma first_idx_ext test1 test2 s1 s2 n i :
  (forall j, (i <= j < i + n)%nat -> test1 (line s1 j) = test2 (line s2 j)) ->
  first_idx test1 s1 n i = first_idx test2 s2 n i.
Proof.
  revert i; induction n as [|n IH]; intros i H; simpl; auto.
  rewrite (H i) by lia. destruct (test2 (line s2 i)); auto.
  apply IH; intros j Hj; apply H; lia.
Qed.


(** The two victim loops compute the same index. *)
Lemma lru_victim_fifo s n i recent :
  lru_victim s n i (countBlock (line s recent)) recent
  = fifo_victim s n i recent.
Proof.
  revert i recent; induction n as [|n IH]; intros i recent; simpl; auto.
  destruct (countBlock (line s i) <? countBlock (line s recent)); apply IH.
Qed.

Lemma fifo_victim_spec s n i recent :
  (recent < i \/ recent = O)%nat ->
  (forall j, (j < i)%nat -> countBlock (line s recent) <= countBlock (line s j)) ->
  (forall j, (j < recent)%nat -> countBlock (line s recent) < countBlock (line s j)) ->
  let v := fifo_victim s n i recent in
  (v < i + n \/ v = O)%nat /\
  (forall j, (j < i + n)%nat -> countBlock (line s v) <= countBlock (line s j)) /\
  (forall j, (j < v)%nat -> countBlock (line s v) < countBlock (line s j)).
Proof.
  revert i recent; induction n as [|n IH]; intros i recent Hr Hle Hlt; simpl.
  - rewrite Nat.add_0_r. repeat split; auto.
  - replace (i + Datatypes.S n)%nat with (Datatypes.S i + n)%nat by lia.
    destruct (countBlock (line s i) <? countBlock (line s recent)) eqn:E.
    + apply Z.ltb_lt in E. apply IH.
      * left; lia.
      * intros j Hj. destruct (Nat.eq_dec j i) as [->|]; [lia|].
        specialize (Hle j ltac:(lia)); lia.
      * intros j Hj. specialize (Hle j Hj); lia.
    + apply Z.ltb_ge in E. apply IH; auto.
      * destruct Hr; [left; lia | auto].
      * intros j Hj. destruct (Nat.eq_dec j i) as [->|]; [lia|].
        apply Hle; lia.
Qed.

Lemma fifo_victim_first_min s k :
  (0 < k)%nat -> first_min s k (fifo_victim s k O O).
Proof.
  intros Hk.
  destruct (fifo_victim_spec s k O O) as (Hv & Hle & Hlt); auto; try lia.
  repeat split; auto. simpl in Hv; lia.
Qed.

Lemma lru_victim_first_min s k :
  (0 < k)%nat ->
  first_min s k (lru_victim s k O (countBlock (line s O)) O).
Proof.
  intros Hk. rewrite lru_victim_fifo. now apply fifo_victim_first_min.
Qed.

(** There is one such line. *)
Lemma first_min_unique s k v w : first_min s k v -> first_min s k w -> v = w.
Proof.
  intros (Hv & Hvle & Hvlt) (Hw & Hwle & Hwlt).
  destruct (Nat.lt_trichotomy v w) as [H|[H|H]]; auto.
  - specialize (Hwlt v H). specialize (Hvle w Hw). lia.
  - specialize (Hvlt w H). specialize (Hwle v Hv). lia.
Qed.

(** ** Integer facts *)

Lemma land_upper a b : 0 <= a -> 0 <= b -> 0 <= Z.land a b <= a.
Proof.
  intros Ha Hb. split; [apply Z.land_nonneg; auto|].
  destruct a as [|p|p], b as [|q|q]; simpl; try lia.
  pose proof (N.land_le_l (Npos p) (Npos q)) as H. simpl in H. lia.
Qed.

Lemma to_int_small x : - 2 ^ 31 <= x <= INT_MAX -> to_int x = x.
Proof.
  unfold to_int, INT_MAX, UINT_MOD. intros H.
  rewrite Z.mod_small; lia.
Qed.

Lemma to_int_range x : - 2 ^ 31 <= to_int x <= INT_MAX.
Proof.
  unfold to_int, INT_MAX, UINT_MOD.
  pose proof (Z.mod_pos_bound (x + 2 ^ 31) (2 ^ 32) ltac:(lia)). lia.
Qed.

Lemma to_int_add_l x y : to_int (to_int x + y) = to_int (x + y).
Proof.
  unfold to_int, UINT_MOD.
  replace ((x + 2 ^ 31) mod 2 ^ 32 - 2 ^ 31 + y + 2 ^ 31)
    with ((x + 2 ^ 31) mod 2 ^ 32 + y) by lia.
  rewrite Zplus_mod_idemp_l. do 2 f_equal. lia.
Qed.

Lemma to_ulong_small x : 0 <= x <= ULONG_MAX -> to_ulong x = x.
Proof.
  unfold to_ulong, ULONG_MAX, ULONG_MOD. intros H. apply Z.mod_small; lia.
Qed.

(** ** Well-formed memory *)


Lemma allocate_cache_wf p m :
  0 < nS p <= INT_MAX -> wf p (allocate_cache p m).
Proof.
  intros HS. unfold wf, allocate_cache; simpl. repeat split; try lia.
  - apply to_ulong_small. unfold INT_MAX, ULONG_MAX in *. lia.
  - apply repeat_length.
  - intros i. rewrite repeat_length.
    destruct (Nat.lt_ge_cases i (Z.to_nat (nS p))) as [H|H]; [left|right; auto].
    rewrite nth_repeat_inside by auto. apply repeat_length.
Qed.

Lemma num_set_in_range p m addr :
  wf p m -> 0 <= addr ->
  (Z.to_nat (num_set_of p m addr) < length (cache m))%nat.
Proof.
  intros (HS & Hmask & Hlen & _) Ha. unfold num_set_of.
  rewrite Hmask, Hlen.
  pose proof (land_upper (nS p - 1) (Z.shiftr addr (B_temp p)) ltac:(lia)
                         ltac:(apply Z.shiftr_nonneg; auto)).
  lia.
Qed.

Lemma set_length p m addr :
  wf p m -> 0 <= addr ->
  length (set_at (cache m) (num_set_of p m addr)) = Z.to_nat (nK p).
Proof.
  intros Hwf Ha. pose proof (num_set_in_range p m addr Hwf Ha) as Hr.
  destruct Hwf as (_ & _ & _ & Hsets). unfold set_at.
  destruct (Hsets (Z.to_nat (num_set_of p m addr))); auto; lia.
Qed.

(** ** [access_data], branch by branch *)

Lemma access_data_lru p m addr :
  policy p = LRU ->
  access_data p m addr =
  let r := access_lru (Z.to_nat (nK p)) (num_tag_of p addr)
                      (set_at (cache m) (num_set_of p m addr)) (num_lru m)
                      (miss_count m) (hit_count m) (eviction_count m) in
  mkMem (setMask m) (num_fifo m) (snd (fst r))
        (store (cache m) (Z.to_nat (num_set_of p m addr)) (fst (fst r)))
        (fst (fst (snd r))) (snd (fst (snd r))) (snd (snd r)).
Proof.
  intros Hp. unfold access_data. rewrite Hp; simpl.
  destruct (access_lru _ _ _ _ _ _ _) as [[s c] [[mi hi] ev]]; reflexivity.
Qed.

Lemma access_data_fifo p m addr :
  policy p = FIFO ->
  access_data p m addr =
  let r := access_fifo (Z.to_nat (nK p)) (num_tag_of p addr)
                       (set_at (cache m) (num_set_of p m addr)) (num_fifo m)
                       (miss_count m) (hit_count m) (eviction_count m) in
  mkMem (setMask m) (snd (fst r)) (num_lru m)
        (store (cache m) (Z.to_nat (num_set_of p m addr)) (fst (fst r)))
        (fst (fst (snd r))) (snd (fst (snd r))) (snd (snd r)).
Proof.
  intros Hp. unfold access_data. rewrite Hp; simpl.
  destruct (access_fifo _ _ _ _ _ _ _) as [[s c] [[mi hi] ev]]; reflexivity.
Qed.

Lemma access_data_setMask p m addr :
  setMask (access_data p m addr) = setMask m.
Proof.
  unfold access_data.
  destruct (policy p =? LRU).
  - destruct (access_lru _ _ _ _ _ _ _) as [[s c] [[mi hi] ev]]; reflexivity.
  - destruct (policy p =? FIFO); auto.
    destruct (access_fifo _ _ _ _ _ _ _) as [[s c] [[mi hi] ev]]; reflexivity.
Qed.

Lemma access_lru_length k t s c mi hi ev :
  length (fst (fst (access_lru k t s c mi hi ev))) = length s.
Proof.
  unfold access_lru.
  destruct (first_idx (matches t) s k O); simpl; [apply store_length|].
  destruct (first_idx invalid s k O); simpl; apply store_length.
Qed.

Lemma access_fifo_length k t s c mi hi ev :
  length (fst (fst (access_fifo k t s c mi hi ev))) = length s.
Proof.
  unfold access_fifo.
  destruct (first_idx (matches t) s k O); simpl; auto.
  destruct (first_idx invalid s k O); simpl; apply store_length.
Qed.

Lemma access_data_wf p m addr : wf p m -> wf p (access_data p m addr).
Proof.
  intros Hwf. pose proof Hwf as (HS & Hmask & Hlen & Hsets).
  assert (Hstore : forall s', length s' = length (set_at (cache m) (num_set_of p m addr)) ->
            wf p (mkMem (setMask m) (num_fifo (access_data p m addr))
                        (num_lru (access_data p m addr))
                        (store (cache m) (Z.to_nat (num_set_of p m addr)) s')
                        (miss_count (access_data p m addr))
                        (hit_count (access_data p m addr))
                        (eviction_count (access_data p m addr)))).
  { intros s' Hs'. unfold wf; simpl. rewrite store_length.
    repeat split; auto; try lia.
    intros i. destruct (Hsets i) as [Hi|Hi]; [|right; auto].
    destruct (Nat.eq_dec (Z.to_nat (num_set_of p m addr)) i) as [<-|Hne].
    - destruct (Nat.lt_ge_cases (Z.to_nat (num_set_of p m addr)) (length (cache m))).
      + left. rewrite nth_store_same by auto. rewrite Hs'. apply Hi.
      + right; auto.
    - left. rewrite nth_store_other by auto. auto. }
  destruct (Z.eq_dec (policy p) LRU) as [Hp|Hp].
  { specialize (Hstore (fst (fst (access_lru (Z.to_nat (nK p)) (num_tag_of p addr)
        (set_at (cache m) (num_set_of p m addr)) (num_lru m)
        (miss_count m) (hit_count m) (eviction_count m))))
        (access_lru_length _ _ _ _ _ _ _)).
    rewrite (access_data_lru p m addr Hp) in *. exact Hstore. }
  destruct (Z.eq_dec (policy p) FIFO) as [Hq|Hq].
  { specialize (Hstore (fst (fst (access_fifo (Z.to_nat (nK p)) (num_tag_of p addr)
        (set_at (cache m) (num_set_of p m addr)) (num_fifo m)
        (miss_count m) (hit_count m) (eviction_count m))))
        (access_fifo_length _ _ _ _ _ _ _)).
    rewrite (access_data_fifo p m addr Hq) in *. exact Hstore. }
  unfold access_data.
  apply Z.eqb_neq in Hp, Hq. rewrite Hp, Hq. exact Hwf.
Qed.

Lemma line_store_same s i b : (i < length s)%nat -> line (store s i b) i = b.
Proof. apply nth_store_same. Qed.

Lemma line_store_other s i j b : i <> j -> line (store s i b) j = line s j.
Proof. apply nth_store_other. Qed.

(** The three ways an access ends, for either policy. *)
Section OneAccess.
Variables (p : Params) (m : Mem) (addr : Z).
Hypothesis Hpol : policy p = LRU \/ policy p = FIFO.
Hypothesis Hwf : wf p m.
Hypothesis Haddr : 0 <= addr.

Let t := num_tag_of p addr.
Let n := num_set_of p m addr.
Let s := set_at (cache m) n.
Let k := Z.to_nat (nK p).
Let m' := access_data p m addr.
Let s' := set_at (cache m') n.

Lemma set_after_lru :
  policy p = LRU ->
  s' = fst (fst (access_lru k t s (num_lru m) (miss_count m) (hit_count m)
                            (eviction_count m))).
Proof.
  intros Hp. unfold s', m'. rewrite (access_data_lru p m addr Hp); simpl.
  unfold set_at. apply nth_store_same. now apply num_set_in_range.
Qed.

Lemma set_after_fifo :
  policy p = FIFO ->
  s' = fst (fst (access_fifo k t s (num_fifo m) (miss_count m) (hit_count m)
                             (eviction_count m))).
Proof.
  intros Hp. unfold s', m'. rewrite (access_data_fifo p m addr Hp); simpl.
  unfold set_at. apply nth_store_same. now apply num_set_in_range.
Qed.

Lemma length_s : length s = k.
Proof. now apply set_length. Qed.

(** A hit: one more hit, and no line changes its tag or its valid bit. *)
Lemma access_data_hit idx :
  first_idx (matches t) s k O = Some idx ->
  hit_count m' = incr_int (hit_count m) /\
  miss_count m' = miss_count m /\
  eviction_count m' = eviction_count m /\
  (forall j, tagBits (line s' j) = tagBits (line s j) /\
             validBits (line s' j) = validBits (line s j)).
Proof.
  intros Hhit. pose proof length_s as Hlen.
  destruct (first_idx_Some _ _ _ _ _ Hhit) as (Hidx & _ & _).
  destruct Hpol as [Hp|Hp].
  - pose proof (set_after_lru Hp) as Hs'. revert Hs'.
    unfold m'. rewrite (access_data_lru p m addr Hp).
    fold t n s k. unfold access_lru. rewrite Hhit. simpl.
    intros ->. repeat split; auto.
    all: destruct (Nat.eq_dec idx j) as [->|Hne];
      [rewrite line_store_same by lia | rewrite line_store_other by auto];
      reflexivity.
  - pose proof (set_after_fifo Hp) as Hs'. revert Hs'.
    unfold m'. rewrite (access_data_fifo p m addr Hp).
    fold t n s k. unfold access_fifo. rewrite Hhit. simpl.
    intros ->. repeat split; auto.
Qed.

(** A miss with a free line: one more miss, the first invalid line takes
    the tag. *)
Lemma access_data_fill inv :
  first_idx (matches t) s k O = None ->
  first_idx invalid s k O = Some inv ->
  hit_count m' = hit_count m /\
  miss_count m' = incr_int (miss_count m) /\
  eviction_count m' = eviction_count m /\
  (inv < k)%nat /\
  tagBits (line s' inv) = t /\ validBits (line s' inv) = 1 /\
  (forall j, j <> inv -> line s' j = line s j).
Proof.
  intros Hmiss Hinv. pose proof length_s as Hlen.
  destruct (first_idx_Some _ _ _ _ _ Hinv) as (Hidx & _ & _).
  destruct Hpol as [Hp|Hp].
  - pose proof (set_after_lru Hp) as Hs'. revert Hs'.
    unfold m'. rewrite (access_data_lru p m addr Hp).
    fold t n s k. unfold access_lru. rewrite Hmiss, Hinv. simpl.
    intros ->. rewrite !line_store_same by lia.
    repeat split; auto; try lia.
    intros j Hj. now rewrite line_store_other by auto.
  - pose proof (set_after_fifo Hp) as Hs'. revert Hs'.
    unfold m'. rewrite (access_data_fifo p m addr Hp).
    fold t n s k. unfold access_fifo. rewrite Hmiss, Hinv. simpl.
    intros ->. rewrite !line_store_same by lia.
    repeat split; auto; try lia.
    intros j Hj. now rewrite line_store_other by auto.
Qed.

(** A miss in a full set: one more miss, one more eviction, and the
    first line of smallest [countBlock] takes the tag and the new value
    of the policy's clock. *)
Lemma access_data_evict :
  0 < nK p ->
  first_idx (matches t) s k O = None ->
  first_idx invalid s k O = None ->
  exists v,
    first_min s k v /\
    hit_count m' = hit_count m /\
    miss_count m' = incr_int (miss_count m) /\
    eviction_count m' = incr_int (eviction_count m) /\
    tagBits (line s' v) = t /\ validBits (line s' v) <> 0 /\
    countBlock (line s' v)
    = (if policy p =? LRU then num_lru m' else num_fifo m') /\
    (forall j, j <> v -> line s' j = line s j).
Proof.
  intros HK Hmiss Hfull. pose proof length_s as Hlen.
  assert (Hk : (0 < k)%nat) by (unfold k; lia).
  destruct Hpol as [Hp|Hp].
  - exists (lru_victim s k O (countBlock (line s O)) O).
    pose proof (lru_victim_first_min s k Hk) as Hmin.
    pose proof Hmin as (Hv & _).
    pose proof (set_after_lru Hp) as Hs'. revert Hs'.
    unfold m'. rewrite (access_data_lru p m addr Hp).
    fold t n s k. unfold access_lru. rewrite Hmiss, Hfull. simpl.
    intros ->. rewrite !line_store_same by lia.
    rewrite Hp. simpl. repeat split; auto; try apply Hmin.
    + pose proof (first_idx_None _ _ _ _ Hfull _ (conj (Nat.le_0_l _) Hv)) as E.
      unfold invalid in E. now apply Z.eqb_neq.
    + intros j Hj. now rewrite line_store_other by auto.
  - exists (fifo_victim s k O O).
    pose proof (fifo_victim_first_min s k Hk) as Hmin.
    pose proof Hmin as (Hv & _).
    pose proof (set_after_fifo Hp) as Hs'. revert Hs'.
    unfold m'. rewrite (access_data_fifo p m addr Hp).
    fold t n s k. unfold access_fifo. rewrite Hmiss, Hfull. simpl.
    intros ->. rewrite !line_store_same by lia.
    rewrite Hp. simpl. repeat split; auto; try apply Hmin.
    + lia.
    + intros j Hj. now rewrite line_store_other by auto.
Qed.
End OneAccess.

(** ** Victim selection *)


Lemma accesses_wf p addrs : forall m, wf p m -> wf p (accesses p m addrs).
Proof.
  induction addrs as [|a l IH]; intros m Hwf; simpl; auto.
  apply IH. now apply access_data_wf.
Qed.

(** C2. Under either policy, a miss in a set without an invalid line
    evicts the line whose [countBlock] is smallest among the [K] lines of
    the set, and of several lines with that smallest value the one of
    lowest index: that line, and no other, is overwritten with the new
    tag, and the eviction is counted. *)
Theorem victim_is_first_minimum (p : Params) (m : Mem) (addr : Z) :
  policy p = LRU \/ policy p = FIFO ->
  wf p m -> 0 <= addr -> 0 < nK p ->
  let k := Z.to_nat (nK p) in
  let s := set_at (cache m) (num_set_of p m addr) in
  let s' := set_at (cache (access_data p m addr)) (num_set_of p m addr) in
  first_idx (matches (num_tag_of p addr)) s k O = None ->
  first_idx invalid s k O = None ->
  exists v,
    first_min s k v /\
    (forall w, first_min s k w -> w = v) /\
    eviction_count (access_data p m addr) = incr_int (eviction_count m) /\
    tagBits (line s' v) = num_tag_of p addr /\
    (forall j, j <> v -> line s' j = line s j).
Proof.
  intros Hpol Hwf Ha HK k s s' Hmiss Hfull.
  destruct (access_data_evict p m addr Hpol Hwf Ha HK Hmiss Hfull)
    as (v & Hmin & _ & _ & Hev & Htag & _ & _ & Hrest).
  exists v. repeat split; auto; try apply Hmin.
  intros w Hw. exact (first_min_unique _ _ _ _ Hw Hmin).
Qed.

Ltac wf_by_cases :=
  unfold wf; simpl; repeat split; try (unfold INT_MAX; lia); try reflexivity;
  let i := fresh "i" in
  intros i; do 4 (destruct i as [|i]; simpl; auto); right; lia.


Lemma victim_is_first_minimum_witness :
  exists v,
    first_min full_set 3 v /\
    (forall w, first_min full_set 3 w -> w = v) /\
    eviction_count (access_data fifo_1x3 full_mem 8) = 1 /\
    tagBits (line (set_at (cache (access_data fifo_1x3 full_mem 8)) 0) v) = 8 /\
    (forall j, j <> v ->
       line (set_at (cache (access_data fifo_1x3 full_mem 8)) 0) j
       = line full_set j).
Proof.
  apply (victim_is_first_minimum fifo_1x3 full_mem 8);
    [right; reflexivity | wf_by_cases | lia | reflexivity
    | reflexivity | reflexivity].
Defined.

(** ** Read then write: the two accesses of a Modify record *)

Lemma incr_int_neq x : incr_int x <> x.
Proof.
  unfold incr_int, to_int, UINT_MOD. intros H.
  assert (Hx : (x + 1 + 2 ^ 31) mod 2 ^ 32 = x + 2 ^ 31) by lia.
  pose proof (Z.mod_pos_bound (x + 1 + 2 ^ 31) (2 ^ 32) ltac:(lia)) as Hb.
  destruct (Z.eq_dec (x + 2 ^ 31) (2 ^ 32 - 1)) as [E|E].
  - replace (x + 1 + 2 ^ 31) with (2 ^ 32) in Hx by lia.
    rewrite Z.mod_same in Hx; lia.
  - rewrite Z.mod_small in Hx; lia.
Qed.


Lemma num_set_of_access p m a addr :
  num_set_of p (access_data p m a) addr = num_set_of p m addr.
Proof. unfold num_set_of. now rewrite access_data_setMask. Qed.

(** After an access the line of the address is in the cache. *)
Lemma access_data_present p m addr :
  policy p = LRU \/ policy p = FIFO -> wf p m -> 0 <= addr -> 0 < nK p ->
  present p (access_data p m addr) addr = true.
Proof.
  intros Hpol Hwf Ha HK. unfold present. rewrite num_set_of_access.
  set (t := num_tag_of p addr). set (k := Z.to_nat (nK p)).
  set (s := set_at (cache m) (num_set_of p m addr)).
  set (s' := set_at (cache (access_data p m addr)) (num_set_of p m addr)).
  enough (exists j, (0 <= j < 0 + k)%nat /\ matches t (line s' j) = true)
    as (j & Hj & Hm).
  { destruct (first_idx_found _ _ _ _ _ Hj Hm) as (v & ->). reflexivity. }
  destruct (first_idx (matches t) s k O) as [idx|] eqn:Hhit.
  - destruct (access_data_hit p m addr Hpol Hwf Ha idx Hhit)
      as (_ & _ & _ & Hsame).
    destruct (first_idx_Some _ _ _ _ _ Hhit) as (Hidx & Hm & _).
    exists idx. split; auto. fold s' in Hsame.
    destruct (Hsame idx) as (Ht & Hv). unfold matches in *.
    now rewrite Ht, Hv.
  - destruct (first_idx invalid s k O) as [inv|] eqn:Hinv.
    + destruct (access_data_fill p m addr Hpol Hwf Ha inv Hhit Hinv)
        as (_ & _ & _ & Hlt & Ht & Hv & _).
      exists inv. split; [lia|]. fold s' in Ht, Hv. unfold matches.
      rewrite Ht, Hv. fold t. now rewrite Z.eqb_refl.
    + destruct (access_data_evict p m addr Hpol Hwf Ha HK Hhit Hinv)
        as (v & (Hlt & _) & _ & _ & _ & Ht & Hv & _).
      exists v. split; [lia|]. fold s' in Ht, Hv. unfold matches.
      rewrite Ht. fold t. rewrite Z.eqb_refl. apply Z.eqb_neq in Hv.
      now rewrite Hv.
Qed.

(** An access to a line that is in the cache is a hit; to one that is not,
    a miss. *)
Lemma access_present_hit p m addr :
  policy p = LRU \/ policy p = FIFO -> wf p m -> 0 <= addr ->
  present p m addr = true -> is_hit m (access_data p m addr).
Proof.
  intros Hpol Hwf Ha Hpr. unfold present in Hpr.
  destruct (first_idx _ _ _ _) as [idx|] eqn:Hhit; [|discriminate].
  destruct (access_data_hit p m addr Hpol Hwf Ha idx Hhit)
    as (Hh & Hm & He & _).
  repeat split; auto.
Qed.

Lemma access_absent_miss p m addr :
  policy p = LRU \/ policy p = FIFO -> wf p m -> 0 <= addr -> 0 < nK p ->
  present p m addr = false -> is_miss m (access_data p m addr).
Proof.
  intros Hpol Hwf Ha HK Hpr. unfold present in Hpr.
  destruct (first_idx (matches _) _ _ _) as [idx|] eqn:Hhit; [discriminate|].
  destruct (first_idx invalid (set_at (cache m) (num_set_of p m addr))
                      (Z.to_nat (nK p)) O) as [inv|] eqn:Hinv.
  - destruct (access_data_fill p m addr Hpol Hwf Ha inv Hhit Hinv)
      as (Hh & Hm & _). split; auto.
  - destruct (access_data_evict p m addr Hpol Hwf Ha HK Hhit Hinv)
      as (v & _ & Hh & Hm & _). split; auto.
Qed.

(** ** The calls a record makes *)

Lemma for_idx_filter {St : Type} (c : Z -> bool) (visit : St -> Z -> St) n :
  forall idx st,
    for_idx n idx (fun st i => if c i then visit st i else st) st
    = fold_left visit (filter c (zseq idx n)) st.
Proof.
  induction n as [|n IH]; intros idx st; simpl; auto.
  rewrite IH. destruct (c idx); reflexivity.
Qed.

Lemma fold_left_snoc (l : list Z) :
  forall l0, fold_left (fun calls idx => calls ++ [idx]) l l0 = l0 ++ l.
Proof.
  induction l as [|x l IH]; intros l0; simpl.
  - now rewrite app_nil_r.
  - rewrite IH, <- app_assoc. reflexivity.
Qed.

Lemma selected_single p address size :
  size <= 1 -> selected p address size = [address].
Proof.
  intros H. unfold selected, visit_lines.
  destruct (1 <? size) eqn:E; [apply Z.ltb_lt in E; lia | reflexivity].
Qed.

Lemma selected_loop p address size :
  1 < size ->
  selected p address size
  = filter (fun idx => (idx =? address) || (idx mod to_ulong (nB p) =? 0))
           (zseq address (Z.to_nat (to_ulong (address + size) - address))).
Proof.
  intros H. unfold selected, visit_lines.
  apply Z.ltb_lt in H. rewrite H.
  rewrite (for_idx_filter
             (fun idx => (idx =? address) || (idx mod to_ulong (nB p) =? 0))
             (fun calls idx => calls ++ [idx])).
  apply fold_left_snoc.
Qed.

(** The driver's loop is the fold of [visit] over the selected
    addresses. *)
Lemma visit_lines_calls {St : Type} p address size
      (visit : St -> Z -> St) (st : St) :
  visit_lines p address size visit st
  = fold_left visit (selected p address size) st.
Proof.
  destruct (Z.lt_ge_cases 1 size) as [H|H].
  - rewrite selected_loop by auto. unfold visit_lines.
    apply Z.ltb_lt in H. rewrite H. apply for_idx_filter.
  - rewrite selected_single by auto. unfold visit_lines.
    apply Z.ltb_ge in H. rewrite H. reflexivity.
Qed.

Lemma in_zseq x n : forall first,
  In x (zseq first n) <-> first <= x < first + Z.of_nat n.
Proof.
  induction n as [|n IH]; intros first; simpl; [lia|].
  rewrite IH. lia.
Qed.

Lemma zseq_app n k : forall first,
  zseq first (n + k) = zseq first n ++ zseq (first + Z.of_nat n) k.
Proof.
  induction n as [|n IH]; intros first.
  - simpl. now rewrite Z.add_0_r.
  - simpl plus. simpl zseq. rewrite IH. simpl. do 3 f_equal. lia.
Qed.

Lemma filter_none {A : Type} (c : A -> bool) l :
  (forall x, In x l -> c x = false) -> filter c l = [].
Proof.
  induction l as [|h t IH]; intros H; simpl; auto.
  rewrite (H h) by (left; auto). apply IH. intros x Hx; apply H; right; auto.
Qed.

Lemma aligned_offset b a j : 0 < b -> a mod b = 0 -> 0 < j < b -> (a + j) mod b <> 0.
Proof.
  intros Hb Ha Hj. rewrite Zplus_mod, Ha. simpl.
  rewrite Z.mod_mod by lia. rewrite Z.mod_small; lia.
Qed.

Lemma aligned_next b a : a mod b = 0 -> (a + b) mod b = 0.
Proof.
  intros Ha. replace (a + b) with (a + 1 * b) by lia.
  now rewrite Z_mod_plus_full.
Qed.

(** Inside a line, past its first byte, no address starts a line. *)
Lemma no_line_start p address first n :
  0 < nB p -> first mod nB p = 0 -> address <= first ->
  (Z.of_nat n < nB p) ->
  filter (line_start p address) (zseq (first + 1) n) = [].
Proof.
  intros HB Hal Hle Hn. apply filter_none. intros x Hx.
  apply in_zseq in Hx. unfold line_start.
  replace x with (first + (x - first)) by lia.
  apply orb_false_iff. split.
  - apply Z.eqb_neq. lia.
  - apply Z.eqb_neq. apply aligned_offset; auto. lia.
Qed.

(** The calls of a record that does not run past the last address. *)
Lemma selected_in_range p address size :
  0 < nB p <= INT_MAX -> 0 <= address -> 1 <= size ->
  address + size <= ULONG_MAX ->
  selected p address size
  = filter (line_start p address) (zseq address (Z.to_nat size)).
Proof.
  intros HB Ha Hs Hmax. destruct (Z.eq_dec size 1) as [->|Hne].
  - rewrite selected_single by lia. simpl. unfold line_start.
    now rewrite Z.eqb_refl.
  - rewrite selected_loop by lia.
    rewrite (to_ulong_small (address + size)) by lia.
    rewrite (to_ulong_small (nB p)) by (unfold INT_MAX, ULONG_MAX in *; lia).
    replace (address + size - address) with size by lia. reflexivity.
Qed.

Lemma selected_two_lines p address :
  0 < nB p <= INT_MAX -> 0 <= address -> address mod nB p = 0 ->
  address + 2 * nB p <= ULONG_MAX ->
  selected p address (2 * nB p) = [address; address + nB p].
Proof.
  intros HB Ha Hal Hmax. rewrite selected_in_range by (auto; lia).
  replace (Z.to_nat (2 * nB p))
    with (Datatypes.S (Z.to_nat (nB p - 1)) + Datatypes.S (Z.to_nat (nB p - 1)))%nat
    by lia.
  rewrite zseq_app, filter_app.
  replace (address + Z.of_nat (Datatypes.S (Z.to_nat (nB p - 1))))
    with (address + nB p) by lia.
  cbn [zseq filter].
  rewrite (no_line_start p address address) by (auto; lia).
  rewrite (no_line_start p address (address + nB p)); auto; try lia.
  - unfold line_start. rewrite Z.eqb_refl. simpl.
    rewrite (aligned_next _ _ Hal). simpl.
    replace (address + nB p =? address) with false
      by (symmetry; apply Z.eqb_neq; lia).
    reflexivity.
  - now apply aligned_next.
Qed.

Lemma selected_half_line p address :
  0 < nB p <= INT_MAX -> 0 <= address -> address mod nB p = 0 ->
  address + nB p / 2 <= ULONG_MAX ->
  selected p address (nB p / 2) = [address].
Proof.
  intros HB Ha Hal Hmax.
  destruct (Z.le_gt_cases (nB p / 2) 1) as [H|H].
  - now apply selected_single.
  - rewrite selected_in_range by (auto; lia).
    replace (Z.to_nat (nB p / 2))
      with (Datatypes.S (Z.to_nat (nB p / 2 - 1))) by lia.
    simpl. rewrite (no_line_start p address address); auto; try lia.
    + unfold line_start. now rewrite Z.eqb_refl.
    + pose proof (Z.div_lt (nB p) 2 ltac:(lia) ltac:(lia)). lia.
Qed.






(** C5, as the code has it. A Load or Store record of length at least 1
    that does not run past the last 64-bit address makes one call of
    [access_data] for each [idx] in [address, address + size) with
    [idx == address] or [idx % B == 0], in increasing order, and no other;
    a record of length 0 makes one call, at its address.  From a
    [B]-aligned address a record of length [2 * B] makes two calls and a
    record of length [B / 2] makes one. *)
Theorem load_store_calls (p : Params) (m : Mem) (cmd : ascii)
        (address size : Z) :
  cmd = "L"%char \/ cmd = "S"%char ->
  0 < nB p <= INT_MAX -> 0 <= address -> 0 <= size ->
  address + size <= ULONG_MAX ->
  replay_record p m cmd address size
  = fold_left (access_data p) (selected p address size) m /\
  (1 <= size ->
   selected p address size
   = filter (line_start p address) (zseq address (Z.to_nat size))) /\
  (size = 0 -> selected p address size = [address]) /\
  (address mod nB p = 0 -> size = 2 * nB p ->
   selected p address size = [address; address + nB p]) /\
  (address mod nB p = 0 -> size = nB p / 2 ->
   selected p address size = [address]).
Proof.
  intros Hcmd HB Ha Hs Hmax. repeat split.
  - unfold replay_record.
    destruct Hcmd as [-> | ->]; simpl; apply visit_lines_calls.
  - intros H1. now apply selected_in_range.
  - intros ->. now apply selected_single.
  - intros Hal ->. now apply selected_two_lines.
  - intros Hal ->. now apply selected_half_line.
Qed.

Lemma load_store_calls_witness :
  replay_record sample_lru (fresh sample_lru) "L" 16 8
  = fold_left (access_data sample_lru)
              (selected sample_lru 16 8)
              (fresh sample_lru) /\
  selected sample_lru 16 8 = [16; 20].
Proof.
  destruct (load_store_calls sample_lru (fresh sample_lru)
                             "L" 16 8)
    as (Hcalls & _ & _ & Htwo & _);
    [left; reflexivity | unfold INT_MAX; simpl; lia | lia | lia
    | unfold ULONG_MAX; lia |].
  split; [exact Hcalls | apply Htwo; reflexivity].
Defined.

(** C5 as stated fails on a record of length 0, which has no address in
    [address, address + 0) and still makes one call, and on a record of
    length [B / 2] that starts one byte before a line boundary, which makes
    two calls. *)
Lemma load_store_calls_counterexample :
  (selected sample_lru 16 0 = [16] /\
   filter (line_start sample_lru 16) (zseq 16 (Z.to_nat 0)) = [] /\
   miss_count (replay_record sample_lru (fresh sample_lru) "L" 16 0) = 1) /\
  (nB sample_lru / 2 = 2 /\
   selected sample_lru 3 (nB sample_lru / 2) = [3; 4] /\
   miss_count (replay_record sample_lru (fresh sample_lru) "L" 3
                             (nB sample_lru / 2)) = 2).
Proof. repeat split. Qed.

(** ** The replay loop *)

Lemma skip_space_length s :
  (String.length (skip_space s) <= String.length s)%nat.
Proof.
  induction s as [|c r IH]; simpl; auto.
  destruct (isspace c); simpl; lia.
Qed.

Lemma scan_digits_length digit base s :
  forall acc count,
    (String.length (snd (scan_digits digit base s acc count))
     <= String.length s)%nat.
Proof.
  induction s as [|c r IH]; intros acc count; simpl; auto.
  destruct (digit c) as [d|]; simpl; auto.
Qed.

Lemma scan_sign_length s :
  (String.length (snd (scan_sign s)) <= String.length s)%nat.
Proof.
  destruct s as [|c r]; simpl; auto.
  destruct c as [[] [] [] [] [] [] [] []]; simpl; lia.
Qed.

Lemma scan_ld_length s v rest :
  scan_ld s = Some (v, rest) -> (String.length rest <= String.length s)%nat.
Proof.
  unfold scan_ld. pose proof (skip_space_length s) as H1.
  pose proof (scan_sign_length (skip_space s)) as H2.
  destruct (scan_sign (skip_space s)) as [neg r]; simpl in H2.
  pose proof (scan_digits_length dec_digit 10 r 0 O) as H3.
  destruct (scan_digits dec_digit 10 r 0 O) as [[mag cnt] rest']; simpl in H3.
  destruct cnt; [discriminate|]. intros E; injection E as _ <-. lia.
Qed.

Lemma scan_lx_length s v rest :
  scan_lx s = Some (v, rest) -> (String.length rest <= String.length s)%nat.
Proof.
  unfold scan_lx. pose proof (skip_space_length s) as H1.
  pose proof (scan_sign_length (skip_space s)) as H2.
  destruct (scan_sign (skip_space s)) as [neg r]; simpl in H2.
  assert (Hplain :
    match scan_digits hex_digit 16 r 0 O with
    | (_, O, _) => None
    | (mag, _, rest0) => Some (clamp_ulong neg mag, rest0)
    end = Some (v, rest) -> (String.length rest <= String.length s)%nat).
  { pose proof (scan_digits_length hex_digit 16 r 0 O) as H3.
    destruct (scan_digits hex_digit 16 r 0 O) as [[mag cnt] rest'];
      simpl in H3.
    destruct cnt; [discriminate|]. intros E; injection E as _ <-. lia. }
  assert (Hprefix : forall r',
    (String.length r' <= String.length r)%nat ->
    (let '(mag, _, rest0) := scan_digits hex_digit 16 r' 0 O in
     Some (clamp_ulong neg mag, rest0)) = Some (v, rest) ->
    (String.length rest <= String.length s)%nat).
  { intros r' Hr'. pose proof (scan_digits_length hex_digit 16 r' 0 O) as H3.
    destruct (scan_digits hex_digit 16 r' 0 O) as [[mag cnt] rest'];
      simpl in H3.
    intros E; injection E as _ <-. lia. }
  destruct r as [|c0 r0]; [exact Hplain|].
  destruct c0 as [[] [] [] [] [] [] [] []]; try exact Hplain.
  destruct r0 as [|c1 r1]; [exact Hplain|].
  destruct c1 as [[] [] [] [] [] [] [] []]; try exact Hplain;
    apply Hprefix; simpl; lia.
Qed.

(** A call that returns 3 has taken characters off the stream. *)
Lemma fscanf_trace_consumes trace_fp r rest :
  fscanf_trace trace_fp = (3, r, rest) ->
  (String.length rest < String.length trace_fp)%nat.
Proof.
  unfold fscanf_trace. pose proof (skip_space_length trace_fp) as H0.
  destruct (skip_space trace_fp) as [|cmd r1]; [discriminate|].
  simpl in H0.
  destruct (scan_lx r1) as [[address r2]|] eqn:Elx; [|discriminate].
  apply scan_lx_length in Elx.
  destruct r2 as [|c r3]; [discriminate|].
  destruct (Ascii.eqb c ","%char) eqn:Ec.
  - apply Ascii.eqb_eq in Ec. subst c.
    destruct (scan_ld r3) as [[size r4]|] eqn:Eld; [|discriminate].
    apply scan_ld_length in Eld. intros E; injection E as _ <-.
    simpl in Elx. lia.
  - destruct c as [[] [] [] [] [] [] [] []]; try discriminate.
Qed.

Lemma fscanf_trace_empty : fscanf_trace EmptyString = (EOF, (zero, 0, 0), EmptyString).
Proof. reflexivity. Qed.

(** Fuel beyond the length of the text changes nothing: the loop has
    ended by then. *)
Lemma replay_loop_fuel p :
  forall fuel1 fuel2 trace_fp m,
    (String.length trace_fp <= fuel1)%nat ->
    (String.length trace_fp <= fuel2)%nat ->
    replay_loop fuel1 p trace_fp m = replay_loop fuel2 p trace_fp m.
Proof.
  induction fuel1 as [|f1 IH]; intros fuel2 trace_fp m H1 H2.
  - destruct trace_fp; [|simpl in H1; lia].
    destruct fuel2; reflexivity.
  - destruct fuel2 as [|f2].
    + destruct trace_fp; [|simpl in H2; lia]. reflexivity.
    + simpl. destruct (fscanf_trace trace_fp) as [[n [[cmd a] sz]] rest] eqn:E.
      destruct (n =? 3) eqn:En; auto.
      apply Z.eqb_eq in En. subst n.
      apply fscanf_trace_consumes in E. apply IH; lia.
Qed.

Lemma replay_trace_enough_fuel p trace_fp m fuel :
  (String.length trace_fp <= fuel)%nat ->
  replay_loop fuel p trace_fp m = replay_trace p trace_fp m.
Proof.
  intros H. unfold replay_trace. apply replay_loop_fuel; auto.
Qed.

(** The loop replays the records of the trace, in turn. *)
Lemma replay_loop_records p :
  forall fuel trace_fp m,
    replay_loop fuel p trace_fp m
    = replay_records p (scan_loop fuel trace_fp) m.
Proof.
  induction fuel as [|f IH]; intros trace_fp m; simpl; auto.
  destruct (fscanf_trace trace_fp) as [[n [[cmd a] sz]] rest].
  destruct (n =? 3); auto.
Qed.

Lemma replay_trace_records p trace_fp m :
  replay_trace p trace_fp m = replay_records p (records trace_fp) m.
Proof. apply replay_loop_records. Qed.

(** ** Two runs side by side *)

Lemma selected_same_B p1 p2 address size :
  nB p1 = nB p2 -> selected p1 address size = selected p2 address size.
Proof. intros H. unfold selected, visit_lines. now rewrite H. Qed.

Section Simulation.
Variables (p1 p2 : Params) (R : Mem -> Mem -> Prop).
Hypothesis same_B : nB p1 = nB p2.
Hypothesis access_sim :
  forall m1 m2 addr,
    R m1 m2 -> R (access_data p1 m1 addr) (access_data p2 m2 addr).

Lemma fold_access_sim (visit1 visit2 : Mem -> Z -> Mem) :
  (forall m1 m2 a, R m1 m2 -> R (visit1 m1 a) (visit2 m2 a)) ->
  forall l m1 m2, R m1 m2 -> R (fold_left visit1 l m1) (fold_left visit2 l m2).
Proof.
  intros Hv l; induction l as [|a l IH]; intros m1 m2 HR; simpl; auto.
Qed.

Lemma replay_record_sim m1 m2 cmd address size :
  R m1 m2 ->
  R (replay_record p1 m1 cmd address size)
    (replay_record p2 m2 cmd address size).
Proof.
  intros HR. unfold replay_record.
  destruct ((cmd =? "L")%char || (cmd =? "S")%char).
  - rewrite !visit_lines_calls.
    rewrite (selected_same_B p1 p2 _ _ same_B).
    apply fold_access_sim; auto.
  - destruct (cmd =? "M")%char; auto.
    rewrite !visit_lines_calls.
    rewrite (selected_same_B p1 p2 _ _ same_B).
    apply fold_access_sim; auto.
Qed.

Lemma replay_loop_sim :
  forall fuel trace_fp m1 m2,
    R m1 m2 ->
    R (replay_loop fuel p1 trace_fp m1) (replay_loop fuel p2 trace_fp m2).
Proof.
  induction fuel as [|f IH]; intros trace_fp m1 m2 HR; simpl; auto.
  destruct (fscanf_trace trace_fp) as [[n [[cmd a] sz]] rest].
  destruct (n =? 3); auto. apply IH. now apply replay_record_sim.
Qed.

Lemma replay_trace_sim trace_fp m1 m2 :
  R m1 m2 -> R (replay_trace p1 trace_fp m1) (replay_trace p2 trace_fp m2).
Proof. apply replay_loop_sim. Qed.
End Simulation.

Lemma set_rel_store (Rl : BlockCache -> BlockCache -> Prop) s1 s2 i b1 b2 :
  set_rel Rl s1 s2 -> Rl b1 b2 ->
  set_rel Rl (store s1 i b1) (store s2 i b2).
Proof.
  intros (Hlen & Hl) Hb. split; [now rewrite !store_length|].
  intros j. destruct (Nat.eq_dec i j) as [<-|Hne].
  - destruct (Nat.lt_ge_cases i (length s1)) as [Hi|Hi].
    + rewrite !line_store_same by lia. exact Hb.
    + rewrite !store_outside by lia. apply Hl.
  - rewrite !line_store_other by auto. apply Hl.
Qed.

Lemma set_rel_store_left (Rl : BlockCache -> BlockCache -> Prop) s1 s2 i b1 :
  set_rel Rl s1 s2 -> Rl b1 (line s2 i) ->
  set_rel Rl (store s1 i b1) s2.
Proof.
  intros (Hlen & Hl) Hb. split; [now rewrite store_length|].
  intros j. destruct (Nat.eq_dec i j) as [<-|Hne].
  - destruct (Nat.lt_ge_cases i (length s1)) as [Hi|Hi].
    + rewrite line_store_same by lia. exact Hb.
    + rewrite store_outside by lia. apply Hl.
  - rewrite line_store_other by auto. apply Hl.
Qed.

Lemma cache_rel_store Rl c1 c2 i s1 s2 :
  cache_rel Rl c1 c2 -> set_rel (Rl i) s1 s2 ->
  cache_rel Rl (store c1 i s1) (store c2 i s2).
Proof.
  intros (Hlen & Hs) Hset. split; [now rewrite !store_length|].
  intros j. destruct (Nat.eq_dec i j) as [<-|Hne].
  - destruct (Nat.lt_ge_cases i (length c1)) as [Hi|Hi].
    + rewrite !nth_store_same by lia. exact Hset.
    + rewrite !store_outside by lia. apply Hs.
  - rewrite !nth_store_other by auto. apply Hs.
Qed.

Lemma cache_rel_repeat Rl k n :
  (forall i, Rl i empty_block empty_block) ->
  cache_rel Rl (repeat (repeat empty_block k) n)
            (repeat (repeat empty_block k) n).
Proof.
  intros Hrefl. split; auto. intros i. split; auto. intros j.
  assert (Hline : forall s, s = [] \/ s = repeat empty_block k ->
                            line s j = empty_block).
  { intros s [-> | ->]; unfold line.
    - destruct j; reflexivity.
    - destruct (Nat.lt_ge_cases j k).
      + now apply nth_repeat_inside.
      + apply nth_overflow. now rewrite repeat_length. }
  rewrite Hline; [apply Hrefl|].
  destruct (Nat.lt_ge_cases i n).
  - right. now apply nth_repeat_inside.
  - left. apply nth_overflow. now rewrite repeat_length.
Qed.

(** ** One line per set: the policy does not matter *)

Lemma same_line_matches t a b : same_line a b -> matches t a = matches t b.
Proof. intros (Ht & Hv). unfold matches. now rewrite Ht, Hv. Qed.

Lemma same_line_invalid a b : same_line a b -> invalid a = invalid b.
Proof. intros (_ & Hv). exact Hv. Qed.

Lemma access_lru_fifo_one_line t s1 s2 c1 c2 mi hi ev :
  set_rel same_line s1 s2 ->
  let r1 := access_lru 1 t s1 c1 mi hi ev in
  let r2 := access_fifo 1 t s2 c2 mi hi ev in
  set_rel same_line (fst (fst r1)) (fst (fst r2)) /\ snd r1 = snd r2.
Proof.
  intros Hrel. pose proof Hrel as (Hlen & Hl). unfold access_lru, access_fifo.
  rewrite (first_idx_ext (matches t) (matches t) s1 s2 1 O)
    by (intros j _; apply same_line_matches, Hl).
  destruct (first_idx (matches t) s2 1 O) as [idx|] eqn:Hhit; cbn [fst snd].
  { split; auto. apply set_rel_store_left; auto.
    destruct (Hl idx) as (Ht & Hv). split; auto. }
  rewrite (first_idx_ext invalid invalid s1 s2 1 O)
    by (intros j _; apply same_line_invalid, Hl).
  destruct (first_idx invalid s2 1 O) as [inv|] eqn:Hinv; cbn [fst snd].
  { split; auto. apply set_rel_store; auto. split; reflexivity. }
  cbn [lru_victim fifo_victim]. rewrite !Z.ltb_irrefl. split; auto.
  apply set_rel_store; auto. split; auto. cbn [validBits].
  pose proof (first_idx_None _ _ _ _ Hinv O ltac:(lia)) as Hv2.
  rewrite (proj2 (Hl O)). exact Hv2.
Qed.

Lemma access_data_lru_fifo_one_line p m1 m2 addr :
  nK p = 1 -> same_lines m1 m2 ->
  same_lines (access_data (set_policy p LRU) m1 addr)
             (access_data (set_policy p FIFO) m2 addr).
Proof.
  intros HK (Hmask & Hcnt & Hc).
  rewrite access_data_lru, access_data_fifo by reflexivity.
  unfold num_set_of, num_tag_of; simpl. rewrite HK, Hmask.
  unfold counts in Hcnt. injection Hcnt as Hh Hm He. rewrite Hh, Hm, He.
  set (n := Z.land (setMask m2) (Z.shiftr addr (B_temp p))).
  set (t := Z.shiftr addr (S_temp p + B_temp p)).
  change (Z.to_nat 1) with 1%nat.
  destruct (access_lru_fifo_one_line t (set_at (cache m1) n) (set_at (cache m2) n)
              (num_lru m1) (num_fifo m2) (miss_count m2) (hit_count m2)
              (eviction_count m2)) as (Hset & Hstat).
  { apply Hc. }
  unfold same_lines; simpl. split; auto. split.
  - unfold counts; simpl. rewrite Hstat. reflexivity.
  - apply cache_rel_store; auto.
Qed.

(** C7. With one line per set ([K = 1]) the run under LRU and the run
    under FIFO of the same trace on the same geometry end with the same
    hit, miss and eviction counts. *)
Theorem lru_fifo_agree_one_line (p : Params) (trace_fp : string) :
  nK p = 1 ->
  counts (run (set_policy p LRU) trace_fp)
  = counts (run (set_policy p FIFO) trace_fp).
Proof.
  intros HK.
  enough (same_lines (run (set_policy p LRU) trace_fp)
                     (run (set_policy p FIFO) trace_fp)) as (_ & H & _)
      by exact H.
  unfold run. apply replay_trace_sim; auto.
  - intros m1 m2 addr. now apply access_data_lru_fifo_one_line.
  - unfold same_lines, allocate_cache; simpl. do 2 (split; auto).
    apply cache_rel_repeat. intros _. split; reflexivity.
Qed.

Lemma lru_fifo_agree_one_line_witness :
  counts (run (set_policy sample_lru LRU) sample_trace)
  = counts (run (set_policy sample_lru FIFO) sample_trace).
Proof. apply (lru_fifo_agree_one_line sample_lru sample_trace). reflexivity. Defined.

(** ** The set-index bits in the tag *)

Lemma lru_victim_ext s1 s2 :
  (forall j, countBlock (line s1 j) = countBlock (line s2 j)) ->
  forall n idx lowest lowest_idx,
    lru_victim s1 n idx lowest lowest_idx
    = lru_victim s2 n idx lowest lowest_idx.
Proof.
  intros H n; induction n as [|n IH]; intros idx lowest lowest_idx; simpl; auto.
  rewrite H. destruct (countBlock (line s2 idx) <? lowest); apply IH.
Qed.

Lemma fifo_victim_ext s1 s2 :
  (forall j, countBlock (line s1 j) = countBlock (line s2 j)) ->
  forall n idx recent,
    fifo_victim s1 n idx recent = fifo_victim s2 n idx recent.
Proof.
  intros H n; induction n as [|n IH]; intros idx recent; simpl; auto.
  rewrite !H.
  destruct (countBlock (line s2 idx) <? countBlock (line s2 recent)); apply IH.
Qed.

Section TagBits.
Variables (s : Z) (i : nat) (t1 t2 : Z).
Hypothesis Hs : 0 <= s.
Hypothesis Ht : t1 = t2 * 2 ^ s + Z.of_nat i.

Lemma tag_line_matches a b :
  tag_line s i a b -> matches t1 a = matches t2 b.
Proof.
  intros (Hv & _ & Htag). unfold matches. rewrite <- Hv.
  destruct (validBits a =? 0) eqn:E; simpl; [now rewrite !andb_false_r|].
  rewrite !andb_true_r. apply Z.eqb_neq in E. rewrite (Htag E), Ht.
  pose proof (Z.pow_pos_nonneg 2 s ltac:(lia) Hs) as Hpow.
  destruct (Z.eqb_spec (tagBits b) t2) as [->|Hne].
  - apply Z.eqb_refl.
  - apply Z.eqb_neq. intros Heq. apply Hne.
    apply (Z.mul_cancel_r _ _ (2 ^ s)); lia.
Qed.

Lemma tag_line_invalid a b : tag_line s i a b -> invalid a = invalid b.
Proof. intros (Hv & _). unfold invalid. now rewrite Hv. Qed.

Lemma access_lru_tags k s1 s2 c mi hi ev :
  set_rel (tag_line s i) s1 s2 ->
  let r1 := access_lru k t1 s1 c mi hi ev in
  let r2 := access_lru k t2 s2 c mi hi ev in
  set_rel (tag_line s i) (fst (fst r1)) (fst (fst r2)) /\
  snd (fst r1) = snd (fst r2) /\ snd r1 = snd r2.
Proof.
  intros Hrel. pose proof Hrel as (Hlen & Hl). unfold access_lru.
  rewrite (first_idx_ext (matches t1) (matches t2) s1 s2 k O)
    by (intros j _; apply tag_line_matches, Hl).
  destruct (first_idx (matches t2) s2 k O) as [idx|] eqn:Hhit; cbn [fst snd].
  { split; [|split; auto]. apply set_rel_store; auto.
    destruct (Hl idx) as (Hv & Hc & Htag). repeat split; auto. }
  rewrite (first_idx_ext invalid invalid s1 s2 k O)
    by (intros j _; apply tag_line_invalid, Hl).
  destruct (first_idx invalid s2 k O) as [inv|] eqn:Hinv; cbn [fst snd].
  { split; [|split; auto]. apply set_rel_store; auto. repeat split; auto. }
  rewrite (lru_victim_ext s1 s2) by (intros j; apply Hl).
  rewrite (proj1 (proj2 (Hl O))).
  split; [|split; auto]. apply set_rel_store; auto.
  repeat split; auto. cbn [validBits]. apply Hl.
Qed.

Lemma access_fifo_tags k s1 s2 c mi hi ev :
  set_rel (tag_line s i) s1 s2 ->
  let r1 := access_fifo k t1 s1 c mi hi ev in
  let r2 := access_fifo k t2 s2 c mi hi ev in
  set_rel (tag_line s i) (fst (fst r1)) (fst (fst r2)) /\
  snd (fst r1) = snd (fst r2) /\ snd r1 = snd r2.
Proof.
  intros Hrel. pose proof Hrel as (Hlen & Hl). unfold access_fifo.
  rewrite (first_idx_ext (matches t1) (matches t2) s1 s2 k O)
    by (intros j _; apply tag_line_matches, Hl).
  destruct (first_idx (matches t2) s2 k O) as [idx|] eqn:Hhit; cbn [fst snd].
  { split; [|split; auto]. exact Hrel. }
  rewrite (first_idx_ext invalid invalid s1 s2 k O)
    by (intros j _; apply tag_line_invalid, Hl).
  destruct (first_idx invalid s2 k O) as [inv|] eqn:Hinv; cbn [fst snd].
  { split; [|split; auto]. apply set_rel_store; auto. repeat split; auto. }
  rewrite (fifo_victim_ext s1 s2) by (intros j; apply Hl).
  split; [|split; auto]. apply set_rel_store; auto.
  repeat split; auto.
Qed.
End TagBits.

(** The address above the block offset is the tag of the specification,
    then the set index. *)
Lemma split_tag x s :
  0 <= s ->
  x = Z.shiftr x s * 2 ^ s + Z.of_nat (Z.to_nat (Z.land (2 ^ s - 1) x)).
Proof.
  intros Hs. pose proof (Z.pow_pos_nonneg 2 s ltac:(lia) Hs) as Hpow.
  rewrite Z.land_comm. replace (2 ^ s - 1) with (Z.ones s)
    by (rewrite Z.ones_equiv; lia).
  rewrite Z.land_ones by auto.
  pose proof (Z.mod_pos_bound x (2 ^ s) Hpow).
  rewrite Z2Nat.id by lia. rewrite Z.shiftr_div_pow2 by auto.
  pose proof (Z.div_mod x (2 ^ s) ltac:(lia)). lia.
Qed.

Lemma access_data_tags p s m1 m2 addr :
  0 <= s -> nS p = 2 ^ s -> 0 <= B_temp p -> S_temp p = 0 ->
  tag_mems s m1 m2 ->
  tag_mems s (access_data p m1 addr) (access_data (with_set_bits p) m2 addr).
Proof.
  intros Hs HS HB HSt (Hm1 & Hm2 & Hf & Hl & Hcnt & Hc).
  assert (Hlog : Z.log2 (nS p) = s) by (rewrite HS; now apply Z.log2_pow2).
  unfold counts in Hcnt. injection Hcnt as Hh Hm He.
  set (x := Z.shiftr addr (B_temp p)).
  assert (Hset1 : num_set_of p m1 addr = Z.land (2 ^ s - 1) x)
    by (unfold num_set_of; now rewrite Hm1).
  assert (Hset2 : num_set_of (with_set_bits p) m2 addr = Z.land (2 ^ s - 1) x)
    by (unfold num_set_of; simpl; now rewrite Hm2).
  assert (Htag1 : num_tag_of p addr = x)
    by (unfold num_tag_of; now rewrite HSt).
  assert (Htag2 : num_tag_of (with_set_bits p) addr = Z.shiftr x s).
  { unfold num_tag_of; simpl. rewrite Hlog. unfold x.
    rewrite Z.shiftr_shiftr by auto. f_equal. lia. }
  pose proof (split_tag x s Hs) as Hsplit.
  set (n := Z.to_nat (Z.land (2 ^ s - 1) x)) in *.
  destruct (Z.eq_dec (policy p) LRU) as [Hp|Hp].
  { rewrite (access_data_lru p m1 addr Hp).
    rewrite (access_data_lru (with_set_bits p) m2 addr Hp).
    rewrite Hset1, Hset2, Htag1, Htag2. cbn [nK with_set_bits].
    rewrite Hl, Hh, Hm, He. fold n.
    destruct (access_lru_tags s n x (Z.shiftr x s) Hs Hsplit (Z.to_nat (nK p))
                (set_at (cache m1) (Z.land (2 ^ s - 1) x))
                (set_at (cache m2) (Z.land (2 ^ s - 1) x))
                (num_lru m2) (miss_count m2) (hit_count m2) (eviction_count m2))
      as (Hset & Hclock & Hstat).
    { apply Hc. }
    unfold tag_mems; cbn. rewrite Hclock. do 4 (split; auto). split.
    - unfold counts; cbn. now rewrite Hstat.
    - apply cache_rel_store; auto. }
  destruct (Z.eq_dec (policy p) FIFO) as [Hq|Hq].
  { rewrite (access_data_fifo p m1 addr Hq).
    rewrite (access_data_fifo (with_set_bits p) m2 addr Hq).
    rewrite Hset1, Hset2, Htag1, Htag2. cbn [nK with_set_bits].
    rewrite Hf, Hh, Hm, He. fold n.
    destruct (access_fifo_tags s n x (Z.shiftr x s) Hs Hsplit (Z.to_nat (nK p))
                (set_at (cache m1) (Z.land (2 ^ s - 1) x))
                (set_at (cache m2) (Z.land (2 ^ s - 1) x))
                (num_fifo m2) (miss_count m2) (hit_count m2) (eviction_count m2))
      as (Hset & Hclock & Hstat).
    { apply Hc. }
    unfold tag_mems; cbn. rewrite Hclock. do 4 (split; auto). split.
    - unfold counts; cbn. now rewrite Hstat.
    - apply cache_rel_store; auto. }
  unfold access_data. cbn [policy with_set_bits].
  apply Z.eqb_neq in Hp, Hq. rewrite Hp, Hq.
  unfold tag_mems, counts. rewrite Hh, Hm, He. do 5 (split; auto).
Qed.

Lemma run_tags_same_counts (p : Params) (s : Z) (trace_fp : string) :
  0 <= s <= 30 -> nS p = 2 ^ s -> 0 <= B_temp p -> S_temp p = 0 ->
  counts (run p trace_fp) = counts (run (with_set_bits p) trace_fp).
Proof.
  intros Hs HS HB HSt.
  enough (tag_mems s (run p trace_fp) (run (with_set_bits p) trace_fp))
    as (_ & _ & _ & _ & H & _) by exact H.
  unfold run. apply replay_trace_sim; auto.
  - intros m1 m2 addr. apply access_data_tags; auto; lia.
  - assert (Hmask : to_ulong (nS p - 1) = 2 ^ s - 1).
    { rewrite HS. apply to_ulong_small. unfold ULONG_MAX.
      pose proof (Z.pow_pos_nonneg 2 s ltac:(lia) ltac:(lia)).
      pose proof (Z.pow_le_mono_r 2 s 30 ltac:(lia) ltac:(lia)).
      pose proof (Z.pow_lt_mono_r 2 30 64 ltac:(lia) ltac:(lia) ltac:(lia)).
      lia. }
    unfold tag_mems, allocate_cache; cbn. rewrite Hmask.
    do 5 (split; auto).
    apply cache_rel_repeat. intros i. repeat split; auto.
    cbn. intros H; now contradiction H.
Qed.

(** C10. On a geometry whose [S] is a power of two, the counts of a run
    with the tag taken as [address >> blockOffsetBits], as [access_data]
    takes it with [S_temp] at 0, are the counts of the run with the tag
    taken as [address >> (setIndexBits + blockOffsetBits)]: whatever the
    trace, [K], [B] and the policy. *)
Theorem tag_with_set_bits_same_counts (p : Params) (s : Z) (trace_fp : string) :
  0 <= s <= 30 -> nS p = 2 ^ s -> 0 <= B_temp p -> S_temp p = 0 ->
  counts (run p trace_fp) = counts (run (with_set_bits p) trace_fp).
Proof. apply run_tags_same_counts. Qed.

Lemma tag_with_set_bits_same_counts_witness :
  counts (run sample_lru sample_trace)
  = counts (run (with_set_bits sample_lru) sample_trace).
Proof.
  apply (tag_with_set_bits_same_counts sample_lru 1 sample_trace);
    [lia | reflexivity | simpl; lia | reflexivity].
Defined.

(** ** The same address again and again *)

Lemma fresh_line p n j : line (set_at (cache (fresh p)) n) j = empty_block.
Proof.
  unfold fresh, allocate_cache, set_at; cbn [cache].
  assert (Hline : forall s, s = [] \/ s = repeat empty_block (Z.to_nat (nK p)) ->
                            line s j = empty_block).
  { intros s [-> | ->]; unfold line.
    - destruct j; reflexivity.
    - destruct (Nat.lt_ge_cases j (Z.to_nat (nK p))).
      + now apply nth_repeat_inside.
      + apply nth_overflow. now rewrite repeat_length. }
  apply Hline.
  destruct (Nat.lt_ge_cases (Z.to_nat n) (Z.to_nat (nS p))).
  - right. now apply nth_repeat_inside.
  - left. apply nth_overflow. now rewrite repeat_length.
Qed.

(** The first access to a fresh cache: a miss that fills a free line. *)
Lemma first_access p addr :
  policy p = LRU \/ policy p = FIFO ->
  0 < nS p <= INT_MAX -> 0 < nK p -> 0 <= addr ->
  counts (access_data p (fresh p) addr) = (0, 1, 0).
Proof.
  intros Hpol HS HK Ha.
  assert (Hwf : wf p (fresh p)) by now apply allocate_cache_wf.
  set (s := set_at (cache (fresh p)) (num_set_of p (fresh p) addr)).
  assert (Hmiss : first_idx (matches (num_tag_of p addr)) s
                            (Z.to_nat (nK p)) O = None).
  { destruct (first_idx _ s _ O) as [idx|] eqn:E; auto.
    apply first_idx_Some in E as (_ & E & _). unfold s in E.
    rewrite fresh_line in E. unfold matches in E; simpl in E.
    now rewrite andb_false_r in E. }
  assert (Hfree : first_idx invalid s (Z.to_nat (nK p)) O = Some O).
  { destruct (Z.to_nat (nK p)) as [|k] eqn:Ek; [lia|]. simpl.
    unfold s. now rewrite fresh_line. }
  destruct (access_data_fill p (fresh p) addr Hpol Hwf Ha O Hmiss Hfree)
    as (Hh & Hm & He & _).
  unfold counts. rewrite Hh, Hm, He. reflexivity.
Qed.

(** [n + 1] accesses to one address: one miss, then hits. *)
Lemma repeated_access p addr :
  policy p = LRU \/ policy p = FIFO ->
  0 < nS p <= INT_MAX -> 0 < nK p -> 0 <= addr ->
  forall n,
    let m := accesses p (fresh p) (repeat addr (Datatypes.S n)) in
    wf p m /\ present p m addr = true /\
    counts m = (to_int (Z.of_nat n), 1, 0).
Proof.
  intros Hpol HS HK Ha.
  assert (Hwf : wf p (fresh p)) by now apply allocate_cache_wf.
  induction n as [|n IH].
  - simpl. split; [now apply access_data_wf|].
    split; [now apply access_data_present|].
    now apply first_access.
  - cbv zeta in *. destruct IH as (Hwfn & Hpr & Hcnt).
    change (repeat addr (Datatypes.S (Datatypes.S n)))
      with (addr :: repeat addr (Datatypes.S n)).
    rewrite repeat_cons. unfold accesses in *.
    rewrite fold_left_app. cbn [fold_left].
    set (m := fold_left (access_data p) (repeat addr (Datatypes.S n)) (fresh p)) in *.
    split; [now apply access_data_wf|].
    split; [now apply access_data_present|].
    destruct (access_present_hit p m addr Hpol Hwfn Ha Hpr) as (Hh & Hm & He).
    unfold counts in *. injection Hcnt as Hh0 Hm0 He0.
    rewrite Hh, Hm, He, Hh0, Hm0, He0. unfold incr_int.
    rewrite to_int_add_l. do 3 f_equal. lia.
Qed.

Lemma replay_repeated p cmd addr size :
  cmd = "L"%char \/ cmd = "S"%char ->
  selected p addr size = [addr] ->
  forall n m,
    replay_records p (repeat (cmd, addr, size) n) m
    = accesses p m (repeat addr n).
Proof.
  intros Hcmd Hsel. induction n as [|n IH]; intros m; simpl; auto.
  rewrite <- IH. unfold replay_records. simpl. f_equal.
  unfold replay_record.
  destruct Hcmd as [-> | ->]; simpl; rewrite visit_lines_calls, Hsel;
    reflexivity.
Qed.

(** The counts of [N] records at one address, with the hit counter in its
    type [int]. *)
Lemma same_address_counts p cmd addr size N :
  policy p = LRU \/ policy p = FIFO ->
  0 < nS p <= INT_MAX -> 0 < nK p -> 0 <= addr ->
  cmd = "L"%char \/ cmd = "S"%char ->
  selected p addr size = [addr] ->
  1 <= N ->
  counts (replay_records p (repeat (cmd, addr, size) (Z.to_nat N)) (fresh p))
  = (to_int (N - 1), 1, 0).
Proof.
  intros Hpol HS HK Ha Hcmd Hsel HN.
  rewrite (replay_repeated p cmd addr size Hcmd Hsel).
  replace (Z.to_nat N) with (Datatypes.S (Z.to_nat (N - 1))) by lia.
  destruct (repeated_access p addr Hpol HS HK Ha (Z.to_nat (N - 1)))
    as (_ & _ & ->).
  rewrite Z2Nat.id by lia. reflexivity.
Qed.

(** C6, as the code has it. From an empty cache, for [1 <= N <= 2^31],
    any geometry with [K >= 1] and either policy, [N] Load or Store
    records of one single-line access each, all at the same address, end
    with 1 miss, [N - 1] hits and no eviction; so does the run of any
    trace text that scans as these records. *)
Theorem same_address_one_miss (p : Params) (cmd : ascii) (addr size N : Z) :
  policy p = LRU \/ policy p = FIFO ->
  0 < nS p <= INT_MAX -> 0 < nK p -> 0 <= addr ->
  cmd = "L"%char \/ cmd = "S"%char ->
  selected p addr size = [addr] ->
  1 <= N <= 2 ^ 31 ->
  counts (replay_records p (repeat (cmd, addr, size) (Z.to_nat N)) (fresh p))
  = (N - 1, 1, 0) /\
  (forall trace_fp,
     records trace_fp = repeat (cmd, addr, size) (Z.to_nat N) ->
     counts (run p trace_fp) = (N - 1, 1, 0)).
Proof.
  intros Hpol HS HK Ha Hcmd Hsel HN.
  assert (H : counts (replay_records p (repeat (cmd, addr, size) (Z.to_nat N))
                                     (fresh p)) = (N - 1, 1, 0)).
  { rewrite same_address_counts by (auto; lia).
    rewrite to_int_small by (unfold INT_MAX; lia). reflexivity. }
  split; [exact H|].
  intros trace_fp Hrec. unfold run. rewrite replay_trace_records, Hrec.
  exact H.
Qed.

Lemma same_address_one_miss_witness :
  counts (replay_records sample_lru (repeat ("L"%char, 16, 4) (Z.to_nat 5))
                         (fresh sample_lru))
  = (5 - 1, 1, 0) /\
  counts (run sample_lru
              (lines [" L 10,4"; " L 10,4"; " L 10,4"; " L 10,4"; " L 10,4"]%string))
  = (5 - 1, 1, 0).
Proof.
  destruct (same_address_one_miss sample_lru "L" 16 4 5) as (H & Htext);
    [left; reflexivity | unfold INT_MAX; simpl; lia | simpl; lia | lia
    | left; reflexivity | reflexivity | lia |].
  split; [exact H | apply Htext; reflexivity].
Defined.

(** C6 as stated fails past the range of the counter: [hit_count] is an
    [int], and after [2^31 + 1] accesses to one address it does not hold
    [2^31]. *)
Lemma same_address_one_miss_counterexample :
  counts (replay_records sample_lru
                         (repeat ("L"%char, 16, 1) (Z.to_nat (2 ^ 31 + 1)))
                         (fresh sample_lru))
  <> (2 ^ 31 + 1 - 1, 1, 0).
Proof.
  rewrite same_address_counts;
    [ | left; reflexivity | unfold INT_MAX; simpl; lia | simpl; lia | lia
      | left; reflexivity | reflexivity | lia].
  vm_compute. discriminate.
Qed.

(** ** A worked sequence: A, B, C, A, D in one set *)

Lemma view_lru_access p m addr :
  policy p = LRU -> wf p m -> 0 <= addr ->
  view_lru (access_data p m addr) (num_set_of p m addr)
  = lru_on (Z.to_nat (nK p)) (num_tag_of p addr)
           (view_lru m (num_set_of p m addr)).
Proof.
  intros Hp Hwf Ha. pose proof (num_set_in_range p m addr Hwf Ha) as Hr.
  rewrite (access_data_lru p m addr Hp). unfold view_lru, lru_on; cbn.
  unfold set_at at 1. rewrite nth_store_same by auto.
  destruct (access_lru _ _ _ _ _ _ _) as [[s c] [[mi hi] ev]]; reflexivity.
Qed.

Lemma view_fifo_access p m addr :
  policy p = FIFO -> wf p m -> 0 <= addr ->
  view_fifo (access_data p m addr) (num_set_of p m addr)
  = fifo_on (Z.to_nat (nK p)) (num_tag_of p addr)
            (view_fifo m (num_set_of p m addr)).
Proof.
  intros Hp Hwf Ha. pose proof (num_set_in_range p m addr Hwf Ha) as Hr.
  rewrite (access_data_fifo p m addr Hp). unfold view_fifo, fifo_on; cbn.
  unfold set_at at 1. rewrite nth_store_same by auto.
  destruct (access_fifo _ _ _ _ _ _ _) as [[s c] [[mi hi] ev]]; reflexivity.
Qed.

Lemma accesses_setMask p l : forall m, setMask (accesses p m l) = setMask m.
Proof.
  unfold accesses.
  induction l as [|a l IH]; intros m; cbn [fold_left]; auto.
  rewrite IH. apply access_data_setMask.
Qed.

Lemma view_lru_accesses p n l :
  policy p = LRU ->
  Forall (fun x => 0 <= x /\ num_set_of p (fresh p) x = n) l ->
  forall m, wf p m -> setMask m = setMask (fresh p) ->
    view_lru (accesses p m l) n
    = fold_left (fun v x => lru_on (Z.to_nat (nK p)) (num_tag_of p x) v) l
                (view_lru m n).
Proof.
  intros Hp Hl. unfold accesses.
  induction Hl as [|a l (Ha & Hn) Hl IH]; intros m Hwf Hmask.
  - reflexivity.
  - cbn [fold_left]. rewrite IH.
    + f_equal. rewrite <- Hn.
      replace (num_set_of p (fresh p) a) with (num_set_of p m a)
        by (unfold num_set_of; now rewrite Hmask).
      now apply view_lru_access.
    + now apply access_data_wf.
    + now rewrite access_data_setMask.
Qed.

Lemma view_fifo_accesses p n l :
  policy p = FIFO ->
  Forall (fun x => 0 <= x /\ num_set_of p (fresh p) x = n) l ->
  forall m, wf p m -> setMask m = setMask (fresh p) ->
    view_fifo (accesses p m l) n
    = fold_left (fun v x => fifo_on (Z.to_nat (nK p)) (num_tag_of p x) v) l
                (view_fifo m n).
Proof.
  intros Hp Hl. unfold accesses.
  induction Hl as [|a l (Ha & Hn) Hl IH]; intros m Hwf Hmask.
  - reflexivity.
  - cbn [fold_left]. rewrite IH.
    + f_equal. rewrite <- Hn.
      replace (num_set_of p (fresh p) a) with (num_set_of p m a)
        by (unfold num_set_of; now rewrite Hmask).
      now apply view_fifo_access.
    + now apply access_data_wf.
    + now rewrite access_data_setMask.
Qed.

Lemma view_fresh p addr :
  0 < nS p <= INT_MAX -> 0 <= addr ->
  let n := num_set_of p (fresh p) addr in
  view_lru (fresh p) n = fresh_view (Z.to_nat (nK p)) /\
  view_fifo (fresh p) n = fresh_view (Z.to_nat (nK p)).
Proof.
  intros HS Ha n.
  pose proof (num_set_in_range p (fresh p) addr
                               (allocate_cache_wf p initial_mem HS) Ha) as Hr.
  fold n in Hr. revert Hr.
  unfold view_lru, view_fifo, fresh_view, fresh, allocate_cache.
  cbn. rewrite repeat_length. intros Hr.
  unfold set_at. rewrite nth_repeat_inside by lia. auto.
Qed.

Lemma present_view_lru p m x n :
  setMask m = setMask (fresh p) -> num_set_of p (fresh p) x = n ->
  present p m x = holds (Z.to_nat (nK p)) (num_tag_of p x) (view_lru m n).
Proof.
  intros Hmask <-. unfold present, holds, view_lru, num_set_of; cbn.
  now rewrite Hmask.
Qed.

Lemma present_view_fifo p m x n :
  setMask m = setMask (fresh p) -> num_set_of p (fresh p) x = n ->
  present p m x = holds (Z.to_nat (nK p)) (num_tag_of p x) (view_fifo m n).
Proof.
  intros Hmask <-. unfold present, holds, view_fifo, num_set_of; cbn.
  now rewrite Hmask.
Qed.

(** Symbolic evaluation of one access on a set written out line by
    line. *)
Lemma matches_empty t : matches t empty_block = false.
Proof. unfold matches; simpl. apply andb_false_r. Qed.

Lemma matches_same t c : matches t (mkBlock t c 1) = true.
Proof. unfold matches; simpl. now rewrite Z.eqb_refl. Qed.

Lemma matches_other t t' c v : t' <> t -> matches t (mkBlock t' c v) = false.
Proof.
  intros H. unfold matches; simpl. apply Z.eqb_neq in H. now rewrite H.
Qed.

Ltac eval_in E :=
  unfold lru_on, fifo_on, holds, access_lru, access_fifo in E;
  cbn [fst snd first_idx line nth] in E;
  rewrite ?matches_empty, ?matches_same, ?matches_other in E by congruence;
  cbn in E.

Ltac eval_access :=
  match goal with
  | |- context [lru_on ?k ?t ?v] =>
      lazymatch v with (_, _, _) => idtac end;
      let r := fresh "r" in
      let E := fresh "E" in
      remember (lru_on k t v) as r eqn:E; eval_in E; subst r
  | |- context [fifo_on ?k ?t ?v] =>
      lazymatch v with (_, _, _) => idtac end;
      let r := fresh "r" in
      let E := fresh "E" in
      remember (fifo_on k t v) as r eqn:E; eval_in E; subst r
  | |- context [holds ?k ?t ?v] =>
      lazymatch v with (_, _, _) => idtac end;
      let r := fresh "r" in
      let E := fresh "E" in
      remember (holds k t v) as r eqn:E; eval_in E; subst r
  end.

Section FiveAccesses.
Variables tA tB tC tD : Z.
Hypothesis distinct : NoDup [tA; tB; tC; tD].

Lemma distinct_tags :
  tA <> tB /\ tA <> tC /\ tA <> tD /\ tB <> tC /\ tB <> tD /\ tC <> tD.
Proof.
  inversion distinct as [|? ? HA H1]; subst.
  inversion H1 as [|? ? HB H2]; subst.
  inversion H2 as [|? ? HC H3]; subst.
  simpl in *. repeat split; intros ->; tauto.
Qed.

(** Three lines, LRU: before D the set holds A (touched last), B, C; D
    replaces B. *)
Lemma lru_three_lines :
  let v4 := fold_left (fun v t => lru_on 3 t v) [tA; tB; tC; tA] (fresh_view 3) in
  holds 3 tB v4 = true /\
  holds 3 tB (lru_on 3 tD v4) = false /\
  holds 3 tA (lru_on 3 tD v4) = true /\
  snd (snd (lru_on 3 tD v4)) = incr_int (snd (snd v4)).
Proof.
  destruct distinct_tags as (AB & AC & AD & BC & BD & CD).
  unfold fresh_view; cbn [fold_left repeat]. do 4 eval_access.
  repeat split; repeat eval_access; reflexivity.
Qed.

(** Three lines, FIFO: the hit on A leaves it the oldest; D replaces A. *)
Lemma fifo_three_lines :
  let v4 := fold_left (fun v t => fifo_on 3 t v) [tA; tB; tC; tA] (fresh_view 3) in
  holds 3 tA v4 = true /\
  holds 3 tA (fifo_on 3 tD v4) = false /\
  holds 3 tB (fifo_on 3 tD v4) = true /\
  snd (snd (fifo_on 3 tD v4)) = incr_int (snd (snd v4)).
Proof.
  destruct distinct_tags as (AB & AC & AD & BC & BD & CD).
  unfold fresh_view; cbn [fold_left repeat]. do 4 eval_access.
  repeat split; repeat eval_access; reflexivity.
Qed.

(** Two lines: C has replaced A, the second access to A has replaced B,
    and D replaces C, under either policy. *)
Lemma lru_two_lines :
  let v4 := fold_left (fun v t => lru_on 2 t v) [tA; tB; tC; tA] (fresh_view 2) in
  holds 2 tB v4 = false /\ holds 2 tA v4 = true /\ holds 2 tC v4 = true /\
  holds 2 tC (lru_on 2 tD v4) = false /\
  holds 2 tA (lru_on 2 tD v4) = true /\
  snd (snd (lru_on 2 tD v4)) = incr_int (snd (snd v4)).
Proof.
  destruct distinct_tags as (AB & AC & AD & BC & BD & CD).
  unfold fresh_view; cbn [fold_left repeat]. do 4 eval_access.
  repeat split; repeat eval_access; reflexivity.
Qed.

Lemma fifo_two_lines :
  let v4 := fold_left (fun v t => fifo_on 2 t v) [tA; tB; tC; tA] (fresh_view 2) in
  holds 2 tB v4 = false /\ holds 2 tA v4 = true /\ holds 2 tC v4 = true /\
  holds 2 tC (fifo_on 2 tD v4) = false /\
  holds 2 tA (fifo_on 2 tD v4) = true /\
  snd (snd (fifo_on 2 tD v4)) = incr_int (snd (snd v4)).
Proof.
  destruct distinct_tags as (AB & AC & AD & BC & BD & CD).
  unfold fresh_view; cbn [fold_left repeat]. do 4 eval_access.
  repeat split; repeat eval_access; reflexivity.
Qed.
End FiveAccesses.

(** The views before and after the fifth access. *)
Section FiveAccessesInMemory.
Variables (p : Params) (n a b c d : Z).
Hypothesis HS : 0 < nS p <= INT_MAX.
Hypothesis same_set :
  Forall (fun x => 0 <= x /\ num_set_of p (fresh p) x = n) [a; b; c; d].

Let m4 := accesses p (fresh p) [a; b; c; a].
Let m5 := access_data p m4 d.
Let k := Z.to_nat (nK p).

Lemma five_in_set :
  (0 <= a /\ num_set_of p (fresh p) a = n) /\
  (0 <= b /\ num_set_of p (fresh p) b = n) /\
  (0 <= c /\ num_set_of p (fresh p) c = n) /\
  (0 <= d /\ num_set_of p (fresh p) d = n).
Proof.
  inversion same_set as [|? ? Ha H1]; subst.
  inversion H1 as [|? ? Hb H2]; subst.
  inversion H2 as [|? ? Hc H3]; subst.
  inversion H3 as [|? ? Hd H4]; subst. auto.
Qed.

Lemma m4_wf : wf p m4 /\ setMask m4 = setMask (fresh p).
Proof.
  split.
  - apply accesses_wf. now apply allocate_cache_wf.
  - apply accesses_setMask.
Qed.

Lemma m5_setMask : setMask m5 = setMask (fresh p).
Proof.
  unfold m5. rewrite access_data_setMask. apply m4_wf.
Qed.

Lemma view_lru_m4 :
  policy p = LRU ->
  view_lru m4 n
  = fold_left (fun v t => lru_on k t v)
              [num_tag_of p a; num_tag_of p b; num_tag_of p c; num_tag_of p a]
              (fresh_view k) /\
  view_lru m5 n = lru_on k (num_tag_of p d) (view_lru m4 n).
Proof.
  intros Hp. destruct five_in_set as (Ha & Hb & Hc & Hd).
  destruct m4_wf as (Hwf & Hmask). split.
  - unfold m4. rewrite (view_lru_accesses p n) by
      (auto; try (now apply allocate_cache_wf); repeat constructor; auto).
    rewrite <- (proj2 Ha).
    rewrite (proj1 (view_fresh p a HS (proj1 Ha))). reflexivity.
  - unfold m5. rewrite <- (proj2 Hd).
    replace (num_set_of p (fresh p) d) with (num_set_of p m4 d)
      by (unfold num_set_of; now rewrite Hmask).
    apply view_lru_access; auto. apply Hd.
Qed.

Lemma view_fifo_m4 :
  policy p = FIFO ->
  view_fifo m4 n
  = fold_left (fun v t => fifo_on k t v)
              [num_tag_of p a; num_tag_of p b; num_tag_of p c; num_tag_of p a]
              (fresh_view k) /\
  view_fifo m5 n = fifo_on k (num_tag_of p d) (view_fifo m4 n).
Proof.
  intros Hp. destruct five_in_set as (Ha & Hb & Hc & Hd).
  destruct m4_wf as (Hwf & Hmask). split.
  - unfold m4. rewrite (view_fifo_accesses p n) by
      (auto; try (now apply allocate_cache_wf); repeat constructor; auto).
    rewrite <- (proj2 Ha).
    rewrite (proj2 (view_fresh p a HS (proj1 Ha))). reflexivity.
  - unfold m5. rewrite <- (proj2 Hd).
    replace (num_set_of p (fresh p) d) with (num_set_of p m4 d)
      by (unfold num_set_of; now rewrite Hmask).
    apply view_fifo_access; auto. apply Hd.
Qed.
End FiveAccessesInMemory.

Lemma eviction_count_view_lru m n :
  eviction_count m = snd (snd (view_lru m n)).
Proof. reflexivity. Qed.

Lemma eviction_count_view_fifo m n :
  eviction_count m = snd (snd (view_fifo m n)).
Proof. reflexivity. Qed.

(** C3, as the code has it. From an empty cache, four addresses [a], [b],
    [c], [d] of one set with distinct tags A, B, C, D are accessed in the
    order A, B, C, A, D.  With [K = 3] the access to D evicts the line of B
    and keeps A under LRU, and evicts the line of A and keeps B under FIFO.
    With [K = 2] the line of B is gone before D is accessed (C has evicted
    A, and the second access to A has evicted B), and the access to D
    evicts the line of C and keeps A, under either policy. *)
Theorem five_accesses (p : Params) (n a b c d : Z) :
  0 < nS p <= INT_MAX ->
  Forall (fun x => 0 <= x /\ num_set_of p (fresh p) x = n) [a; b; c; d] ->
  NoDup (map (num_tag_of p) [a; b; c; d]) ->
  let m4 := accesses p (fresh p) [a; b; c; a] in
  (nK p = 3 -> policy p = LRU ->
   evicts p m4 d b /\ present p (access_data p m4 d) a = true) /\
  (nK p = 3 -> policy p = FIFO ->
   evicts p m4 d a /\ present p (access_data p m4 d) b = true) /\
  (nK p = 2 -> policy p = LRU \/ policy p = FIFO ->
   present p m4 b = false /\
   evicts p m4 d c /\ present p (access_data p m4 d) a = true).
Proof.
  intros HS Hset Hdist m4.
  destruct (five_in_set p n a b c d Hset)
    as ((Ha & Hna) & (Hb & Hnb) & (Hc & Hnc) & (Hd & Hnd)).
  assert (Hm4 : setMask m4 = setMask (fresh p)) by apply accesses_setMask.
  assert (Hm5 : setMask (access_data p m4 d) = setMask (fresh p))
    by (rewrite access_data_setMask; exact Hm4).
  simpl map in Hdist.
  assert (Hlru : forall k, nK p = Z.of_nat k -> policy p = LRU ->
    view_lru m4 n
    = fold_left (fun v t => lru_on k t v)
        [num_tag_of p a; num_tag_of p b; num_tag_of p c; num_tag_of p a]
        (fresh_view k) /\
    view_lru (access_data p m4 d) n = lru_on k (num_tag_of p d) (view_lru m4 n)).
  { intros k HK Hp. destruct (view_lru_m4 p n a b c d HS Hset Hp) as (H4 & H5).
    rewrite HK, Nat2Z.id in H4, H5. split; assumption. }
  assert (Hfifo : forall k, nK p = Z.of_nat k -> policy p = FIFO ->
    view_fifo m4 n
    = fold_left (fun v t => fifo_on k t v)
        [num_tag_of p a; num_tag_of p b; num_tag_of p c; num_tag_of p a]
        (fresh_view k) /\
    view_fifo (access_data p m4 d) n
    = fifo_on k (num_tag_of p d) (view_fifo m4 n)).
  { intros k HK Hp. destruct (view_fifo_m4 p n a b c d HS Hset Hp) as (H4 & H5).
    rewrite HK, Nat2Z.id in H4, H5. split; assumption. }
  split; [|split].
  - intros HK Hp. destruct (Hlru 3%nat HK Hp) as (H4 & H5).
    destruct (lru_three_lines _ _ _ _ Hdist) as (E1 & E2 & E3 & E4).
    unfold evicts.
    rewrite (present_view_lru p m4 b n), (present_view_lru p _ b n),
      (present_view_lru p _ a n) by auto.
    rewrite (eviction_count_view_lru _ n), (eviction_count_view_lru m4 n).
    rewrite HK, H5, H4. change (Z.to_nat 3) with 3%nat. auto.
  - intros HK Hp. destruct (Hfifo 3%nat HK Hp) as (H4 & H5).
    destruct (fifo_three_lines _ _ _ _ Hdist) as (E1 & E2 & E3 & E4).
    unfold evicts.
    rewrite (present_view_fifo p m4 a n), (present_view_fifo p _ a n),
      (present_view_fifo p _ b n) by auto.
    rewrite (eviction_count_view_fifo _ n), (eviction_count_view_fifo m4 n).
    rewrite HK, H5, H4. change (Z.to_nat 3) with 3%nat. auto.
  - intros HK [Hp|Hp].
    + destruct (Hlru 2%nat HK Hp) as (H4 & H5).
      destruct (lru_two_lines _ _ _ _ Hdist) as (E1 & E2 & E3 & E4 & E5 & E6).
      unfold evicts.
      rewrite (present_view_lru p m4 b n), (present_view_lru p m4 c n),
        (present_view_lru p _ c n), (present_view_lru p _ a n) by auto.
      rewrite (eviction_count_view_lru _ n), (eviction_count_view_lru m4 n).
      rewrite HK, H5, H4. change (Z.to_nat 2) with 2%nat. auto.
    + destruct (Hfifo 2%nat HK Hp) as (H4 & H5).
      destruct (fifo_two_lines _ _ _ _ Hdist) as (E1 & E2 & E3 & E4 & E5 & E6).
      unfold evicts.
      rewrite (present_view_fifo p m4 b n), (present_view_fifo p m4 c n),
        (present_view_fifo p _ c n), (present_view_fifo p _ a n) by auto.
      rewrite (eviction_count_view_fifo _ n), (eviction_count_view_fifo m4 n).
      rewrite HK, H5, H4. change (Z.to_nat 2) with 2%nat. auto.
Qed.

(** Addresses 0x10, 0x50, 0x90 and 0xd0 all fall in set 1 of four. *)
Lemma five_accesses_witness :
  evicts (sample_3way LRU)
         (accesses (sample_3way LRU) (fresh (sample_3way LRU)) [16; 80; 144; 16])
         208 80 /\
  present (sample_3way LRU)
          (access_data (sample_3way LRU)
             (accesses (sample_3way LRU) (fresh (sample_3way LRU))
                       [16; 80; 144; 16]) 208) 16 = true.
Proof.
  destruct (five_accesses (sample_3way LRU) 1 16 80 144 208) as (H & _).
  - unfold INT_MAX; simpl; lia.
  - repeat constructor; try lia; reflexivity.
  - simpl. repeat constructor; simpl; intuition discriminate.
  - apply H; reflexivity.
Defined.

(** C3 as stated, with [K = 2] and tags 0, 1, 2, 3 in the one set: under
    LRU the access to D does not evict the line of B, which is no longer in
    the cache, and under FIFO it does not evict the line of A, which stays;
    under both it evicts the line of C. *)
Lemma five_accesses_counterexample :
  (~ evicts (sample_2way LRU)
       (accesses (sample_2way LRU) (fresh (sample_2way LRU)) [0; 1; 2; 0]) 3 1) /\
  (~ evicts (sample_2way FIFO)
       (accesses (sample_2way FIFO) (fresh (sample_2way FIFO)) [0; 1; 2; 0]) 3 0) /\
  evicts (sample_2way LRU)
       (accesses (sample_2way LRU) (fresh (sample_2way LRU)) [0; 1; 2; 0]) 3 2 /\
  evicts (sample_2way FIFO)
       (accesses (sample_2way FIFO) (fresh (sample_2way FIFO)) [0; 1; 2; 0]) 3 2.
Proof.
  unfold evicts. vm_compute. repeat split; try discriminate; intuition discriminate.
Qed.

(** ** The command line *)

(** When the loop of [parse_arguments] runs to the end, every option was
    one it goes past, and the globals hold what the last options left. *)
Lemma parse_options_done pf opts :
  forall p fp p' fp',
    parse_options pf opts p fp = inr (p', fp') ->
    forallb (option_ok pf) opts = true /\
    nS p' = last_int "S" opts (nS p) /\
    nK p' = last_int "K" opts (nK p) /\
    nB p' = last_int "B" opts (nB p) /\
    (names_policy opts = false -> policy p' = policy p) /\
    (gives_trace opts = false -> fp' = fp) /\
    S_temp p' = S_temp p /\ B_temp p' = B_temp p.
Proof.
  induction opts as [|[c optarg] rest IH]; intros p fp p' fp' H.
  - injection H as <- <-. repeat split; auto.
  - cbn [parse_options] in H.
    unfold last_int, names_policy, gives_trace, option_ok.
    cbn [forallb existsb fold_left fst snd].
    fold (last_int "S" rest) (last_int "K" rest) (last_int "B" rest).
    fold (names_policy rest) (gives_trace rest) (option_ok pf).
    destruct (Ascii.eqb_spec c "S") as [->|NS].
    { cbn [set_nS nS] in H.
      destruct (NOT_POWER2 pf (atoi optarg)); [discriminate|].
      apply IH in H. cbn in H |- *. exact H. }
    destruct (Ascii.eqb_spec c "K") as [->|NK].
    { apply IH in H. cbn in H |- *. exact H. }
    destruct (Ascii.eqb_spec c "B") as [->|NB].
    { apply IH in H. cbn in H |- *. exact H. }
    destruct (Ascii.eqb_spec c "p") as [->|NP].
    { apply IH in H. cbn [orb andb negb] in *.
      destruct H as (H1 & H2 & H3 & H4 & H5 & H6 & H7 & H8).
      destruct (optarg =? "FIFO")%string, (optarg =? "LRU")%string;
        cbn in *; repeat split; auto; discriminate. }
    destruct (Ascii.eqb_spec c "t") as [->|NT].
    { destruct (fopen pf optarg) as [text|]; [|discriminate].
      apply IH in H. cbn [orb andb negb] in *.
      destruct H as (H1 & H2 & H3 & H4 & H5 & H6 & H7 & H8).
      repeat split; auto; discriminate. }
    destruct (Ascii.eqb_spec c "v") as [->|NV].
    { apply IH in H. cbn in H |- *. exact H. }
    destruct (Ascii.eqb_spec c "h"); discriminate.
Qed.

(** When the loop calls [exit] and no [-h] was given, the status is 1 and
    something was printed. *)
Lemma parse_options_exit pf opts :
  forall p fp status printed,
    parse_options pf opts p fp = inl (status, printed) ->
    no_help opts -> status = 1 /\ printed <> [].
Proof.
  induction opts as [|[c optarg] rest IH]; intros p fp status printed H Hh.
  - discriminate.
  - assert (Hrest : no_help rest) by (intros a Ha; apply (Hh a); now right).
    cbn [parse_options] in H.
    destruct (Ascii.eqb_spec c "S") as [->|NS].
    { destruct (NOT_POWER2 pf _); [|eauto].
      injection H as <- <-. split; [reflexivity|discriminate]. }
    destruct (Ascii.eqb_spec c "K") as [->|NK]; [eauto|].
    destruct (Ascii.eqb_spec c "B") as [->|NB]; [eauto|].
    destruct (Ascii.eqb_spec c "p") as [->|NP]; [eauto|].
    destruct (Ascii.eqb_spec c "t") as [->|NT].
    { destruct (fopen pf optarg); [eauto|].
      injection H as <- <-. split; [reflexivity|discriminate]. }
    destruct (Ascii.eqb_spec c "v") as [->|NV]; [eauto|].
    destruct (Ascii.eqb_spec c "h") as [->|NH].
    { exfalso. apply (Hh optarg). now left. }
    injection H as <- <-. split; [reflexivity|discriminate].
Qed.

(** [parse_arguments] never writes [S_temp]: it returns with the shift of
    the block offset only. *)
Lemma parse_arguments_shifts pf opts p text :
  parse_arguments pf opts = Parsed p text ->
  S_temp p = 0 /\ B_temp p = INT_LOG2 pf (nB p) /\
  0 < nS p /\ 0 < nK p /\ 0 < nB p /\ policy p <> 0.
Proof.
  unfold parse_arguments.
  destruct (parse_options pf opts initial_params None) as [[st out]|[p' fp']] eqn:E;
    [discriminate|].
  apply parse_options_done in E as (_ & _ & _ & _ & _ & _ & HS & HB).
  destruct ((nS p' <=? 0) || (nK p' <=? 0) || (nB p' <=? 0) || (policy p' =? 0))
    eqn:Echk; [discriminate|].
  destruct fp' as [text'|]; [|discriminate].
  intros H; injection H as <- <-. cbn.
  apply orb_false_iff in Echk as (Echk & Hpol).
  apply orb_false_iff in Echk as (Echk & HnB).
  apply orb_false_iff in Echk as (HnS & HnK).
  apply Z.leb_gt in HnS, HnK, HnB. apply Z.eqb_neq in Hpol.
  repeat split; auto.
Qed.

Lemma in_not_ok pf opts o :
  In o opts -> option_ok pf o = false -> forallb (option_ok pf) opts = false.
Proof.
  intros Hin Hok. destruct (forallb (option_ok pf) opts) eqn:E; auto.
  rewrite forallb_forall in E. rewrite (E o Hin) in Hok. discriminate.
Qed.

Lemma unknown_not_ok pf c a :
  ~ In c (list_ascii_of_string "SKBptvh") -> option_ok pf (c, a) = false.
Proof.
  intros Hc. unfold option_ok; cbn [fst snd]. simpl in Hc.
  destruct (Ascii.eqb_spec c "S"); [subst; tauto|].
  destruct (Ascii.eqb_spec c "K"); [subst; tauto|].
  destruct (Ascii.eqb_spec c "B"); [subst; tauto|].
  destruct (Ascii.eqb_spec c "p"); [subst; tauto|].
  destruct (Ascii.eqb_spec c "v"); [subst; tauto|].
  destruct (Ascii.eqb_spec c "t"); [subst; tauto|]. reflexivity.
Qed.

(** On a command line without [-h], when some [-S] is refused by
    [NOT_POWER2], or [getopt] meets an option it does not know, or a trace
    file cannot be opened, or the last [S], [K] or [B] is not positive or
    missing, or no [-p] names FIFO or LRU, or no [-t] is given, the program
    prints a message and exits with status 1. *)
Lemma refused_exit (pf : Platform) (opts : list (ascii * string)) :
  no_help opts -> refused pf opts ->
  exists printed, main pf opts = Exited 1 printed /\ printed <> [].
Proof.
  intros Hh Hbad. unfold main, parse_arguments.
  destruct (parse_options pf opts initial_params None)
    as [[st out]|[p' fp']] eqn:E.
  { destruct (parse_options_exit pf opts _ _ _ _ E Hh) as (-> & Hout).
    eauto. }
  destruct (parse_options_done pf opts _ _ _ _ E)
    as (Hok & HS & HK & HB & Hpol & Htrace & _ & _).
  cbn [nS nK nB policy initial_params] in *.
  assert (Hexit : forall b : bool,
    b = true \/ fp' = None ->
    exists printed,
      match
        (if b
         then Exit 1 ("ERROR: Negative or missing command line arguments"%string
                      :: print_usage)
         else match fp' with
              | None =>
                  Exit 1 ("ERROR: Negative or missing command line arguments"%string
                          :: print_usage)
              | Some text =>
                  let c := INT_LOG2 pf (nS p') in
                  Parsed (set_B_temp p' (INT_LOG2 pf (nB p'))) text
              end)
      with
      | Exit status printed => Exited status printed
      | Parsed p trace_fp =>
          let m := run p trace_fp in
          Summary (hit_count m) (miss_count m) (eviction_count m)
      end = Exited 1 printed /\ printed <> []).
  { intros b [-> | ->]; [|destruct b]; eexists; split;
      try reflexivity; discriminate. }
  apply Hexit.
  destruct Hbad as [(a & Hin & Hnp)|[(c & a & Hin & Hc)|[(f & Hin & Hf)|
                    [H|[H|[H|[H|H]]]]]]].
  - exfalso. rewrite (in_not_ok pf opts _ Hin) in Hok; [discriminate|].
    unfold option_ok; cbn. now rewrite Hnp.
  - exfalso. rewrite (in_not_ok pf opts _ Hin) in Hok; [discriminate|].
    now apply unknown_not_ok.
  - exfalso. rewrite (in_not_ok pf opts _ Hin) in Hok; [discriminate|].
    unfold option_ok; cbn. now rewrite Hf.
  - left. rewrite HS. apply Z.leb_le in H. now rewrite H.
  - left. rewrite HK. apply Z.leb_le in H. rewrite H.
    now rewrite orb_true_r.
  - left. rewrite HB. apply Z.leb_le in H. rewrite H.
    now rewrite orb_true_r.
  - left. rewrite (Hpol H). now rewrite !orb_true_r.
  - right. now apply Htrace.
Qed.

(** ** The tag *)

(** C1 at [-S 4 -K 1 -B 16 -p LRU] and address 0x50.  The set index is
    [(address >> 4) & 3], as specified.  The tag of the specification is
    [0x50 >> (2 + 4) = 1]; [S_temp] is 0 after [parse_arguments], the tag
    [access_data] computes is [0x50 >> 4 = 5], and 5 is stored in the
    line. *)
Theorem tag_keeps_set_index_bits :
  parse_arguments (one_file EmptyString) sample_options
  = Parsed (geometry 4 1 16 LRU) EmptyString /\
  S_temp (geometry 4 1 16 LRU) = 0 /\
  num_set_of (geometry 4 1 16 LRU) (fresh (geometry 4 1 16 LRU)) 80
  = Z.land (Z.shiftr 80 (Z.log2 16)) (4 - 1) /\
  Z.shiftr 80 (Z.log2 4 + Z.log2 16) = 1 /\
  num_tag_of (geometry 4 1 16 LRU) 80 = 5 /\
  cache (access_data (geometry 4 1 16 LRU) (fresh (geometry 4 1 16 LRU)) 80)
  = [[empty_block]; [mkBlock 5 2 1]; [empty_block]; [empty_block]].
Proof. repeat split. Qed.

(** ** A line that does not scan *)

(** C8 at the trace [L 0,1 / # trace / L 1,1] on one set of one line of
    one byte.  The second line is none of [S], [L], [M] and has no address:
    [fscanf] returns 1 on it, the loop of [replay_trace] ends, and the
    third line is never read.  Without the second line the third is a miss
    and an eviction.  The same happens at a line [L 10], which has no
    length. *)
Theorem replay_stops_at_malformed_line :
  fscanf_trace (lines ["# trace"; "L 1,1"]%string)
  = (1, ("#"%char, 0, 0), ("trace" ++ lines [EmptyString; "L 1,1"])%string) /\
  records (lines ["L 0,1"; "# trace"; "L 1,1"]%string) = [("L"%char, 0, 1)] /\
  csim "1" "1" "1" "LRU" ["L 0,1"; "# trace"; "L 1,1"]%string = Summary 0 1 0 /\
  csim "1" "1" "1" "LRU" ["L 0,1"; "L 10"; "L 1,1"]%string = Summary 0 1 0 /\
  csim "1" "1" "1" "LRU" ["L 0,1"; "L 1,1"]%string = Summary 0 2 1 /\
  (forall p trace_fp m,
     fst (fst (fscanf_trace trace_fp)) <> 3 -> replay_trace p trace_fp m = m).
Proof.
  repeat split.
  intros p trace_fp m H. unfold replay_trace.
  destruct (String.length trace_fp) as [|fuel]; [reflexivity|]. simpl.
  destruct (fscanf_trace trace_fp) as [[n [[cmd a] sz]] rest]. simpl in H.
  apply Z.eqb_neq in H. now rewrite H.
Qed.

(** ** What an accepted command line guarantees *)

Lemma log2_is_ctz p :
  Z.log2 (Zpos p) = pos_ctz p <-> exists k, 0 <= k /\ Zpos p = 2 ^ k.
Proof.
  split.
  - induction p as [q IH|q IH|]; intros H.
    + simpl in H. discriminate.
    + rewrite Pos2Z.inj_xO, Z.log2_double in H by lia.
      cbn [pos_ctz] in H. destruct IH as (k & Hk & Hq); [lia|].
      exists (Z.succ k). split; [lia|].
      rewrite Pos2Z.inj_xO, Hq, Z.pow_succ_r by lia. reflexivity.
    + exists 0. split; [lia|reflexivity].
  - intros (k & Hk & H). revert k Hk H.
    induction p as [q IH|q IH|]; intros k Hk H.
    + exfalso. rewrite Pos2Z.inj_xI in H.
      destruct (Z.eq_dec k 0) as [->|Hne]; [simpl in H; lia|].
      replace k with (Z.succ (k - 1)) in H by lia.
      rewrite Z.pow_succ_r in H by lia. lia.
    + rewrite Pos2Z.inj_xO in H |- *.
      destruct (Z.eq_dec k 0) as [->|Hne]; [simpl in H; lia|].
      replace k with (Z.succ (k - 1)) in H by lia.
      rewrite Z.pow_succ_r in H by lia.
      rewrite Z.log2_double by lia. cbn [pos_ctz].
      rewrite (IH (k - 1)); lia.
    + reflexivity.
Qed.

(** On a positive [int], [NOT_POWER2] is false on the powers of two and on
    nothing else. *)
Lemma NOT_POWER2_spec pf x :
  0 < x <= INT_MAX ->
  NOT_POWER2 pf x = false <-> exists k, 0 <= k <= 30 /\ x = 2 ^ k.
Proof.
  intros Hx. unfold NOT_POWER2, to_uint, UINT_MOD.
  rewrite Z.mod_small by (unfold INT_MAX in Hx; lia).
  unfold builtin_clz, builtin_ctz. destruct x as [|p|p]; try lia.
  change (Z.pos p =? 0) with false. cbv iota.
  rewrite negb_false_iff, Z.eqb_eq.
  split.
  - intros H. destruct (proj1 (log2_is_ctz p)) as (k & Hk & Hp); [lia|].
    exists k. split; auto. split; auto.
    destruct (Z.le_gt_cases k 30); auto. exfalso.
    pose proof (Z.pow_le_mono_r 2 31 k ltac:(lia) ltac:(lia)).
    unfold INT_MAX in Hx. lia.
  - intros (k & Hk & Hp).
    pose proof (proj2 (log2_is_ctz p) (ex_intro _ k (conj (proj1 Hk) Hp))).
    lia.
Qed.

Lemma last_int_cases c opts :
  forall d, last_int c opts d = d \/
            exists a, In (c, a) opts /\ last_int c opts d = atoi a.
Proof.
  unfold last_int.
  induction opts as [|[c' a'] rest IH]; intros d; cbn [fold_left fst snd].
  - now left.
  - destruct (Ascii.eqb_spec c' c) as [->|Hne].
    + destruct (IH (atoi a')) as [H|(a & Hin & H)].
      * right. exists a'. split; [now left|exact H].
      * right. exists a. split; [now right|exact H].
    + destruct (IH d) as [H|(a & Hin & H)].
      * now left.
      * right. exists a. split; [now right|exact H].
Qed.

Lemma atoi_range s : - 2 ^ 31 <= atoi s <= INT_MAX.
Proof.
  unfold atoi. destruct (scan_sign (skip_space s)) as [neg r].
  destruct (scan_digits dec_digit 10 r 0 O) as [[mag cnt] rest].
  apply to_int_range.
Qed.

(** After [parse_arguments] returns, [S] is a power of two within [int],
    [S_temp] is 0 and [B_temp] is the logarithm of [B], rounded down. *)
Lemma parse_arguments_geometry pf opts p text :
  parse_arguments pf opts = Parsed p text ->
  (exists s, 0 <= s <= 30 /\ nS p = 2 ^ s) /\
  S_temp p = 0 /\ B_temp p = Z.log2 (nB p) /\
  0 < nK p /\ 0 < nB p <= INT_MAX /\
  (policy p = LRU \/ policy p = FIFO \/ policy p <> 0).
Proof.
  intros H. pose proof (parse_arguments_shifts pf opts p text H)
    as (HSt & HBt & HS & HK & HB & Hpol).
  revert H. unfold parse_arguments.
  destruct (parse_options pf opts initial_params None)
    as [[st out]|[p' fp']] eqn:E; [discriminate|].
  apply parse_options_done in E as (Hok & HnS & _ & HnB & _).
  cbn [nS nB initial_params] in HnS, HnB.
  destruct (_ || _); [discriminate|].
  destruct fp' as [text'|]; [|discriminate].
  intros H; injection H as <- <-.
  cbn [S_temp B_temp nS nK nB policy set_B_temp] in *.
  assert (HBmax : nB p' <= INT_MAX).
  { rewrite HnB. destruct (last_int_cases "B" opts 0) as [->|(a & _ & ->)].
    - unfold INT_MAX; lia.
    - apply atoi_range. }
  split; [|split; [auto|split; [|split; [auto|split; [lia|auto]]]]].
  - destruct (last_int_cases "S" opts 0) as [H0|(a & Hin & Ha)].
    + rewrite <- HnS in H0. lia.
    + rewrite forallb_forall in Hok. specialize (Hok _ Hin).
      unfold option_ok in Hok; cbn in Hok.
      apply negb_true_iff in Hok. rewrite <- Ha, <- HnS in Hok.
      apply (NOT_POWER2_spec pf); auto.
      split; auto. rewrite HnS, Ha. apply atoi_range.
  - unfold INT_LOG2, to_uint, UINT_MOD.
    rewrite Z.mod_small by (unfold INT_MAX in HBmax; lia).
    unfold builtin_clz. destruct (Z.eqb_spec (nB p') 0); lia.
Qed.

(** C10 on the program as a whole: for every command line the program
    accepts and every trace, the counts it prints are the counts of the
    run with the set-index bits shifted out of the tag. *)
Lemma accepted_run_same_counts pf opts p text :
  parse_arguments pf opts = Parsed p text ->
  main pf opts
  = Summary (hit_count (run (with_set_bits p) text))
            (miss_count (run (with_set_bits p) text))
            (eviction_count (run (with_set_bits p) text)).
Proof.
  intros H.
  destruct (parse_arguments_geometry pf opts p text H)
    as ((s & Hs & HS) & HSt & HBt & _ & HB & _).
  unfold main. rewrite H. cbv zeta.
  assert (E : counts (run p text) = counts (run (with_set_bits p) text)).
  { apply (run_tags_same_counts p s); auto.
    rewrite HBt. apply Z.log2_nonneg. }
  unfold counts in E. injection E as -> -> ->. reflexivity.
Qed.

(** * Further properties of the code *)

(** ** Addresses *)

Lemma scan_digits_nonneg digit base s :
  0 <= base -> (forall c d, digit c = Some d -> 0 <= d) ->
  forall acc count,
    0 <= acc -> 0 <= fst (fst (scan_digits digit base s acc count)).
Proof.
  intros Hb Hd. induction s as [|c r IH]; intros acc count Hacc; simpl; auto.
  destruct (digit c) as [d|] eqn:E; simpl; auto.
  apply IH. specialize (Hd c d E). nia.
Qed.

Lemma hex_digit_nonneg c d : hex_digit c = Some d -> 0 <= d.
Proof.
  unfold hex_digit. set (n := Z.of_N (N_of_ascii c)).
  destruct ((48 <=? n) && (n <=? 57)) eqn:E1.
  { intros H; injection H as <-. apply andb_true_iff in E1 as (E1 & _).
    apply Z.leb_le in E1. lia. }
  destruct ((97 <=? n) && (n <=? 102)) eqn:E2.
  { intros H; injection H as <-. apply andb_true_iff in E2 as (E2 & _).
    apply Z.leb_le in E2. lia. }
  destruct ((65 <=? n) && (n <=? 70)) eqn:E3; [|discriminate].
  intros H; injection H as <-. apply andb_true_iff in E3 as (E3 & _).
  apply Z.leb_le in E3. lia.
Qed.

Lemma clamp_ulong_range neg mag :
  0 <= mag -> 0 <= clamp_ulong neg mag <= ULONG_MAX.
Proof.
  intros Hm. unfold clamp_ulong.
  destruct (ULONG_MAX <? mag) eqn:E.
  - unfold ULONG_MAX; lia.
  - apply Z.ltb_ge in E. destruct neg; [|lia].
    unfold to_ulong, ULONG_MOD, ULONG_MAX.
    pose proof (Z.mod_pos_bound (- mag) (2 ^ 64) ltac:(lia)). lia.
Qed.

Lemma scan_lx_range s v rest :
  scan_lx s = Some (v, rest) -> 0 <= v <= ULONG_MAX.
Proof.
  unfold scan_lx. destruct (scan_sign (skip_space s)) as [neg r].
  assert (Hdig : forall r0, 0 <= fst (fst (scan_digits hex_digit 16 r0 0 O)))
    by (intros r0; apply scan_digits_nonneg; try lia; apply hex_digit_nonneg).
  assert (Hplain :
    match scan_digits hex_digit 16 r 0 O with
    | (_, O, _) => None
    | (mag, _, rest0) => Some (clamp_ulong neg mag, rest0)
    end = Some (v, rest) -> 0 <= v <= ULONG_MAX).
  { specialize (Hdig r).
    destruct (scan_digits hex_digit 16 r 0 O) as [[mag cnt] rest']; simpl in Hdig.
    destruct cnt; [discriminate|]. intros E; injection E as <- _.
    now apply clamp_ulong_range. }
  assert (Hprefix : forall r',
    (let '(mag, _, rest0) := scan_digits hex_digit 16 r' 0 O in
     Some (clamp_ulong neg mag, rest0)) = Some (v, rest) ->
    0 <= v <= ULONG_MAX).
  { intros r'. specialize (Hdig r').
    destruct (scan_digits hex_digit 16 r' 0 O) as [[mag cnt] rest']; simpl in Hdig.
    intros E; injection E as <- _. now apply clamp_ulong_range. }
  destruct r as [|c0 r0]; [exact Hplain|].
  destruct c0 as [[] [] [] [] [] [] [] []]; try exact Hplain.
  destruct r0 as [|c1 r1]; [exact Hplain|].
  destruct c1 as [[] [] [] [] [] [] [] []]; try exact Hplain; apply Hprefix.
Qed.

(** The three fields of a record read by [fscanf] are within
    [unsigned long]. *)
Lemma fscanf_trace_range trace_fp cmd address size rest :
  fscanf_trace trace_fp = (3, (cmd, address, size), rest) ->
  0 <= address <= ULONG_MAX /\ 0 <= size <= ULONG_MAX.
Proof.
  unfold fscanf_trace.
  destruct (skip_space trace_fp) as [|c r1]; [discriminate|].
  destruct (scan_lx r1) as [[a r2]|] eqn:Elx; [|discriminate].
  apply scan_lx_range in Elx.
  destruct r2 as [|c2 r3]; [discriminate|].
  destruct (Ascii.eqb_spec c2 ",") as [->|Hne].
  - destruct (scan_ld r3) as [[sz r4]|]; [|discriminate].
    intros E; injection E as _ <- <- _. split; auto.
    unfold to_ulong, ULONG_MOD, ULONG_MAX.
    pose proof (Z.mod_pos_bound sz (2 ^ 64) ltac:(lia)). lia.
  - destruct c2 as [[] [] [] [] [] [] [] []]; try discriminate.
    now contradiction Hne.
Qed.

(** The addresses a record selects run from its own address up, within
    [unsigned long]. *)
Lemma selected_range p address size idx :
  0 <= address <= ULONG_MAX ->
  In idx (selected p address size) -> address <= idx <= ULONG_MAX.
Proof.
  intros Ha Hin. destruct (Z.lt_ge_cases 1 size) as [H|H].
  - rewrite selected_loop in Hin by auto.
    apply filter_In in Hin as (Hin & _). apply in_zseq in Hin.
    unfold to_ulong, ULONG_MOD, ULONG_MAX in *.
    pose proof (Z.mod_pos_bound (address + size) (2 ^ 64) ltac:(lia)). lia.
  - rewrite selected_single in Hin by auto. destruct Hin as [<-|[]]. lia.
Qed.

(** ** What every access keeps, every replay keeps *)

Section Invariant.
Variables (p : Params) (I : Mem -> Prop).
Hypothesis access_keeps :
  forall m addr, 0 <= addr <= ULONG_MAX -> I m -> I (access_data p m addr).

Lemma fold_access_keeps (visit : Mem -> Z -> Mem) :
  (forall m a, 0 <= a <= ULONG_MAX -> I m -> I (visit m a)) ->
  forall l m, (forall a, In a l -> 0 <= a <= ULONG_MAX) ->
              I m -> I (fold_left visit l m).
Proof.
  intros Hv l; induction l as [|a l IH]; intros m Hl Hm; simpl; auto.
  apply IH; [intros b Hb; apply Hl; now right|].
  apply Hv; auto. apply Hl. now left.
Qed.

Lemma replay_record_keeps m cmd address size :
  0 <= address <= ULONG_MAX -> I m -> I (replay_record p m cmd address size).
Proof.
  intros Ha Hm.
  assert (Hsel : forall a, In a (selected p address size) -> 0 <= a <= ULONG_MAX).
  { intros a Hin. pose proof (selected_range p address size a Ha Hin). lia. }
  unfold replay_record.
  destruct ((cmd =? "L")%char || (cmd =? "S")%char).
  - rewrite visit_lines_calls. apply fold_access_keeps; auto.
  - destruct (cmd =? "M")%char; auto.
    rewrite visit_lines_calls. apply fold_access_keeps; auto.
Qed.

Lemma replay_loop_keeps :
  forall fuel trace_fp m, I m -> I (replay_loop fuel p trace_fp m).
Proof.
  induction fuel as [|f IH]; intros trace_fp m Hm; simpl; auto.
  destruct (fscanf_trace trace_fp) as [[n [[cmd a] sz]] rest] eqn:E.
  destruct (Z.eqb_spec n 3) as [->|Hne]; auto.
  apply IH. apply replay_record_keeps; auto.
  now destruct (fscanf_trace_range _ _ _ _ _ E).
Qed.

Lemma replay_trace_keeps trace_fp m :
  I m -> I (replay_trace p trace_fp m).
Proof. apply replay_loop_keeps. Qed.
End Invariant.

(** ** One access, line by line *)

Lemma store_same {A : Type} (a : list A) (i : nat) (d : A) :
  store a i (nth i a d) = a.
Proof.
  revert i; induction a as [|h t IH]; intros [|i]; simpl; auto.
  now rewrite IH.
Qed.

Lemma access_data_cache p m addr :
  exists s', cache (access_data p m addr)
             = store (cache m) (Z.to_nat (num_set_of p m addr)) s'.
Proof.
  unfold access_data.
  destruct (policy p =? LRU).
  { destruct (access_lru _ _ _ _ _ _ _) as [[s c] [[mi hi] ev]].
    now exists s. }
  destruct (policy p =? FIFO).
  { destruct (access_fifo _ _ _ _ _ _ _) as [[s c] [[mi hi] ev]].
    now exists s. }
  exists (set_at (cache m) (num_set_of p m addr)). unfold set_at.
  now rewrite store_same.
Qed.

Lemma access_data_other_sets p m addr i :
  i <> Z.to_nat (num_set_of p m addr) ->
  nth i (cache (access_data p m addr)) [] = nth i (cache m) [].
Proof.
  intros Hi. destruct (access_data_cache p m addr) as (s' & ->).
  apply nth_store_other. auto.
Qed.

Lemma present_iff p m x :
  present p m x = true <->
  exists j, (j < Z.to_nat (nK p))%nat /\
            matches (num_tag_of p x)
                    (line (set_at (cache m) (num_set_of p m x)) j) = true.
Proof.
  unfold present. split.
  - destruct (first_idx _ _ _ _) as [idx|] eqn:E; [|discriminate].
    intros _. apply first_idx_Some in E as (Hidx & Hm & _).
    exists idx. split; [lia|auto].
  - intros (j & Hj & Hm).
    destruct (first_idx_found (matches (num_tag_of p x))
                (set_at (cache m) (num_set_of p m x)) (Z.to_nat (nK p)) O j)
      as (v & ->); auto. lia.
Qed.

Lemma absent_iff p m x :
  present p m x = false <->
  forall j, (j < Z.to_nat (nK p))%nat ->
            matches (num_tag_of p x)
                    (line (set_at (cache m) (num_set_of p m x)) j) = false.
Proof.
  split.
  - intros H j Hj.
    destruct (matches _ _) eqn:E; auto.
    rewrite (proj2 (present_iff p m x)) in H; [discriminate|eauto].
  - intros H. destruct (present p m x) eqn:E; auto.
    apply present_iff in E as (j & Hj & Hm). rewrite (H j Hj) in Hm.
    discriminate.
Qed.

(** The lines of the accessed set after the access: on a hit every line
    keeps its tag and valid bit; on a miss one line of the [K] takes the
    tag and is valid, and the others are as they were. *)
Lemma access_data_lines p m addr :
  policy p = LRU \/ policy p = FIFO -> wf p m -> 0 <= addr -> 0 < nK p ->
  let s := set_at (cache m) (num_set_of p m addr) in
  let s' := set_at (cache (access_data p m addr)) (num_set_of p m addr) in
  (present p m addr = true /\
   forall j, tagBits (line s' j) = tagBits (line s j) /\
             validBits (line s' j) = validBits (line s j)) \/
  (present p m addr = false /\
   exists w, (w < Z.to_nat (nK p))%nat /\
             tagBits (line s' w) = num_tag_of p addr /\
             validBits (line s' w) <> 0 /\
             (eviction_count (access_data p m addr) = eviction_count m ->
              validBits (line s w) = 0) /\
             forall j, j <> w -> line s' j = line s j).
Proof.
  intros Hpol Hwf Ha HK s s'. unfold present. fold s.
  destruct (first_idx (matches (num_tag_of p addr)) s (Z.to_nat (nK p)) O)
    as [idx|] eqn:Hhit.
  { left. split; auto.
    now destruct (access_data_hit p m addr Hpol Hwf Ha idx Hhit)
      as (_ & _ & _ & H). }
  right. split; auto.
  destruct (first_idx invalid s (Z.to_nat (nK p)) O) as [inv|] eqn:Hinv.
  - destruct (access_data_fill p m addr Hpol Hwf Ha inv Hhit Hinv)
      as (_ & _ & _ & Hlt & Ht & Hv & Hrest).
    exists inv. repeat split; auto.
    + fold s' in Hv. rewrite Hv. discriminate.
    + intros _. apply first_idx_Some in Hinv as (_ & Hi & _).
      unfold invalid in Hi. now apply Z.eqb_eq.
  - destruct (access_data_evict p m addr Hpol Hwf Ha HK Hhit Hinv)
      as (v & (Hlt & _) & _ & _ & Hev & Ht & Hv & _ & Hrest).
    exists v. repeat split; auto.
    intros E. rewrite E in Hev. symmetry in Hev.
    now apply incr_int_neq in Hev.
Qed.

Lemma access_data_no_policy p m addr :
  policy p <> LRU -> policy p <> FIFO -> access_data p m addr = m.
Proof.
  intros H1 H2. unfold access_data.
  apply Z.eqb_neq in H1, H2. now rewrite H1, H2.
Qed.

Lemma valid_kept p m addr i j :
  policy p = LRU \/ policy p = FIFO -> wf p m -> 0 <= addr -> 0 < nK p ->
  validBits (line (nth i (cache m) []) j) <> 0 ->
  validBits (line (nth i (cache (access_data p m addr)) []) j) <> 0.
Proof.
  intros Hpol Hwf Ha HK Hv.
  destruct (Nat.eq_dec i (Z.to_nat (num_set_of p m addr))) as [->|Hne].
  - destruct (access_data_lines p m addr Hpol Hwf Ha HK)
      as [(_ & Hsame)|(_ & w & _ & _ & Hw & _ & Hrest)].
    + unfold set_at in Hsame. now rewrite (proj2 (Hsame j)).
    + unfold set_at in *. destruct (Nat.eq_dec j w) as [->|Hjw]; auto.
      now rewrite (Hrest j Hjw).
  - now rewrite access_data_other_sets.
Qed.

Lemma unique_tags_kept p m addr :
  policy p = LRU \/ policy p = FIFO -> wf p m -> 0 <= addr -> 0 < nK p ->
  unique_tags p m -> unique_tags p (access_data p m addr).
Proof.
  intros Hpol Hwf Ha HK Hu i j1 j2 Hj1 Hj2.
  destruct (Nat.eq_dec i (Z.to_nat (num_set_of p m addr))) as [->|Hne];
    [|rewrite access_data_other_sets by auto; now apply Hu].
  destruct (access_data_lines p m addr Hpol Hwf Ha HK)
    as [(_ & Hsame)|(Habs & w & Hw & Ht & Hvw & _ & Hrest)];
    unfold set_at in *.
  - rewrite (proj1 (Hsame j1)), (proj1 (Hsame j2)),
      (proj2 (Hsame j1)), (proj2 (Hsame j2)). now apply Hu.
  - assert (Hother : forall j, (j < Z.to_nat (nK p))%nat -> j <> w ->
              validBits (line (nth (Z.to_nat (num_set_of p m addr)) (cache m) []) j) <> 0 ->
              tagBits (line (nth (Z.to_nat (num_set_of p m addr)) (cache m) []) j)
              <> num_tag_of p addr).
    { intros j Hj Hjw Hv Htag.
      pose proof (proj1 (absent_iff p m addr) Habs j Hj) as Hm.
      unfold matches, set_at in Hm. rewrite Htag, Z.eqb_refl in Hm.
      apply Z.eqb_neq in Hv. rewrite Hv in Hm. discriminate. }
    destruct (Nat.eq_dec j1 w) as [->|H1], (Nat.eq_dec j2 w) as [->|H2]; auto.
    + rewrite (Hrest j2 H2), Ht. intros _ Hv2 E. symmetry in E.
      now apply Hother in E.
    + rewrite (Hrest j1 H1), Ht. intros Hv1 _ E. now apply Hother in E.
    + rewrite (Hrest j1 H1), (Hrest j2 H2). now apply Hu.
Qed.

Lemma fresh_absent p addr : present p (fresh p) addr = false.
Proof.
  apply absent_iff. intros j _. rewrite fresh_line. apply matches_empty.
Qed.

Lemma fresh_unique_tags p : unique_tags p (fresh p).
Proof.
  intros i j1 j2 _ _ Hv. exfalso. apply Hv.
  pose proof (fresh_line p (Z.of_nat i) j1) as H. unfold set_at in H.
  rewrite Nat2Z.id in H. now rewrite H.
Qed.

(** ** After allocation *)

(** X1. On the cache [allocate_cache] builds for [0 < S <= INT_MAX] there
    are [S] sets of [K] lines under the mask [S - 1], no address is present,
    and the first access, under either policy with [K >= 1], is a miss
    that evicts nothing. *)
Theorem fresh_cache_is_empty (p : Params) :
  0 < nS p <= INT_MAX ->
  wf p (fresh p) /\
  (forall addr, present p (fresh p) addr = false) /\
  (forall addr,
     policy p = LRU \/ policy p = FIFO -> 0 < nK p -> 0 <= addr ->
     counts (access_data p (fresh p) addr) = (0, 1, 0)).
Proof.
  intros HS. split; [now apply allocate_cache_wf|].
  split; [apply fresh_absent|].
  intros addr Hpol HK Ha. now apply first_access.
Qed.

Lemma fresh_cache_is_empty_witness :
  wf sample_lru (fresh sample_lru) /\
  (forall addr, present sample_lru (fresh sample_lru) addr = false) /\
  (forall addr,
     policy sample_lru = LRU \/ policy sample_lru = FIFO ->
     0 < nK sample_lru -> 0 <= addr ->
     counts (access_data sample_lru (fresh sample_lru) addr) = (0, 1, 0)).
Proof.
  apply (fresh_cache_is_empty sample_lru). unfold INT_MAX; simpl; lia.
Defined.

(** ** What a run keeps *)

Lemma run_invariants p trace_fp :
  0 < nS p <= INT_MAX ->
  wf p (run p trace_fp) /\ unique_tags p (run p trace_fp).
Proof.
  intros HS. unfold run.
  apply (replay_trace_keeps p (fun m => wf p m /\ unique_tags p m)).
  - intros m addr Ha (Hwf & Hu). split; [now apply access_data_wf|].
    destruct (Z.eq_dec (policy p) LRU) as [Hl|Hl];
      [|destruct (Z.eq_dec (policy p) FIFO) as [Hf|Hf]].
    + destruct (Z.lt_ge_cases 0 (nK p)) as [HK|HK].
      * apply unique_tags_kept; auto; lia.
      * intros i j1 j2 Hj1. lia.
    + destruct (Z.lt_ge_cases 0 (nK p)) as [HK|HK].
      * apply unique_tags_kept; auto; lia.
      * intros i j1 j2 Hj1. lia.
    + now rewrite access_data_no_policy.
  - split; [now apply allocate_cache_wf | apply fresh_unique_tags].
Qed.

(** X2. Every access indexes inside the arrays.  Whatever the trace, the
    memory at the end of a run on [0 < S <= INT_MAX] sets still has [S]
    sets of [K] lines each under the mask [S - 1]; from there the set index
    of every address is below [S], and an access more at any address
    leaves the line of that address in the cache: what it stores lands in
    a line of the set, not outside. *)
Theorem run_keeps_geometry (p : Params) (trace_fp : string) :
  0 < nS p <= INT_MAX ->
  let m := run p trace_fp in
  wf p m /\
  (forall addr, 0 <= addr -> 0 <= num_set_of p m addr < nS p) /\
  (forall addr,
     policy p = LRU \/ policy p = FIFO -> 0 < nK p -> 0 <= addr ->
     present p (access_data p m addr) addr = true).
Proof.
  intros HS m. destruct (run_invariants p trace_fp HS) as (Hwf & _).
  fold m in Hwf. split; [exact Hwf|]. split.
  - intros addr Ha.
    pose proof (num_set_in_range p m addr Hwf Ha) as Hlt.
    destruct Hwf as (_ & Hmask & Hlen & _). rewrite Hlen in Hlt.
    assert (0 <= num_set_of p m addr); [|lia].
    unfold num_set_of. rewrite Hmask. apply Z.land_nonneg. left. lia.
  - intros addr Hpol HK Ha. now apply access_data_present.
Qed.

Lemma run_keeps_geometry_witness :
  wf sample_lru (run sample_lru sample_trace) /\
  0 <= num_set_of sample_lru (run sample_lru sample_trace) 1048576
  < nS sample_lru /\
  present sample_lru
          (access_data sample_lru (run sample_lru sample_trace) 1048576)
          1048576
  = true.
Proof.
  destruct (run_keeps_geometry sample_lru sample_trace) as (Hwf & Hset & Hin);
    [unfold INT_MAX; simpl; lia|].
  split; [exact Hwf|]. split; [apply Hset; lia|].
  apply Hin; [left; reflexivity | reflexivity | lia].
Defined.

(** X3. Whatever the trace, at the end of a run no two valid lines of a
    set hold the same tag: every insertion comes after the search for
    the tag has failed. *)
Theorem run_keeps_unique_tags (p : Params) (trace_fp : string) :
  0 < nS p <= INT_MAX -> unique_tags p (run p trace_fp).
Proof. intros HS. now apply run_invariants. Qed.

Lemma run_keeps_unique_tags_witness :
  unique_tags (sample_3way FIFO) (run (sample_3way FIFO) sample_trace).
Proof.
  apply (run_keeps_unique_tags (sample_3way FIFO) sample_trace).
  unfold INT_MAX; simpl; lia.
Defined.

(** ** One access *)

(** X4. Under either policy an access to a line that is in the cache counts
    one hit and nothing else; an access to a line that is not counts one
    miss, and one eviction exactly when the set has no invalid line. *)
Theorem access_is_hit_or_miss (p : Params) (m : Mem) (addr : Z) :
  policy p = LRU \/ policy p = FIFO -> wf p m -> 0 <= addr -> 0 < nK p ->
  (present p m addr = true -> is_hit m (access_data p m addr)) /\
  (present p m addr = false ->
   is_miss m (access_data p m addr) /\
   eviction_count (access_data p m addr)
   = if has_free p m addr then eviction_count m
     else incr_int (eviction_count m)).
Proof.
  intros Hpol Hwf Ha HK. split.
  - intros Hpr. now apply access_present_hit.
  - intros Hab. split; [now apply access_absent_miss|].
    unfold present in Hab. unfold has_free.
    destruct (first_idx (matches _) _ _ _) as [idx|] eqn:Hhit; [discriminate|].
    destruct (first_idx invalid _ _ _) as [inv|] eqn:Hinv.
    + now destruct (access_data_fill p m addr Hpol Hwf Ha inv Hhit Hinv)
        as (_ & _ & He & _).
    + now destruct (access_data_evict p m addr Hpol Hwf Ha HK Hhit Hinv)
        as (v & _ & _ & _ & He & _).
Qed.

Lemma access_is_hit_or_miss_witness :
  (present sample_lru (fresh sample_lru) 16 = true ->
   is_hit (fresh sample_lru) (access_data sample_lru (fresh sample_lru) 16)) /\
  (present sample_lru (fresh sample_lru) 16 = false ->
   is_miss (fresh sample_lru) (access_data sample_lru (fresh sample_lru) 16) /\
   eviction_count (access_data sample_lru (fresh sample_lru) 16)
   = if has_free sample_lru (fresh sample_lru) 16
     then eviction_count (fresh sample_lru)
     else incr_int (eviction_count (fresh sample_lru))).
Proof.
  apply (access_is_hit_or_miss sample_lru (fresh sample_lru) 16);
    [left; reflexivity | wf_by_cases | lia | reflexivity].
Defined.

Lemma first_idx_is test s n i v :
  (i <= v < i + n)%nat -> test (line s v) = true ->
  (forall j, (i <= j < v)%nat -> test (line s j) = false) ->
  first_idx test s n i = Some v.
Proof.
  intros Hv Ht Hlt.
  destruct (first_idx_found test s n i v Hv Ht) as (w & Hw).
  rewrite Hw. f_equal.
  destruct (first_idx_Some _ _ _ _ _ Hw) as (Hwr & Hwt & Hwlt).
  destruct (Nat.lt_trichotomy w v) as [H|[H|H]]; auto.
  - rewrite (Hlt w) in Hwt by lia. discriminate.
  - rewrite (Hwlt v) in Ht by lia. discriminate.
Qed.

Lemma accesses_valid_kept p addrs :
  policy p = LRU \/ policy p = FIFO -> 0 < nK p ->
  Forall (fun a => 0 <= a) addrs ->
  forall m i j,
    wf p m ->
    validBits (line (nth i (cache m) []) j) <> 0 ->
    validBits (line (nth i (cache (accesses p m addrs)) []) j) <> 0.
Proof.
  intros Hpol HK Hl. unfold accesses.
  induction Hl as [|a l Ha Hl IH]; intros m i j Hwf Hv; cbn [fold_left]; auto.
  apply IH; [now apply access_data_wf | now apply valid_kept].
Qed.

(** X5. A valid line stays valid: after any sequence of accesses, under
    either policy, every line that was valid before is still valid (its
    tag may have changed). *)
Theorem valid_lines_stay_valid (p : Params) (m : Mem) (addrs : list Z)
        (i j : nat) :
  policy p = LRU \/ policy p = FIFO -> wf p m -> 0 < nK p ->
  Forall (fun a => 0 <= a) addrs ->
  validBits (line (nth i (cache m) []) j) <> 0 ->
  validBits (line (nth i (cache (accesses p m addrs)) []) j) <> 0.
Proof. intros Hpol Hwf HK Hl. now apply accesses_valid_kept. Qed.

Lemma valid_lines_stay_valid_witness :
  validBits (line (nth 0 (cache (accesses fifo_1x3 full_mem [8; 9; 5; 10])) []) 2)
  <> 0.
Proof.
  apply (valid_lines_stay_valid fifo_1x3 full_mem [8; 9; 5; 10] 0 2);
    [right; reflexivity | wf_by_cases | reflexivity
    | repeat constructor; lia | simpl; lia].
Defined.

Lemma access_data_fill_line p m addr inv :
  policy p = LRU \/ policy p = FIFO -> wf p m -> 0 <= addr ->
  let s := set_at (cache m) (num_set_of p m addr) in
  let s' := set_at (cache (access_data p m addr)) (num_set_of p m addr) in
  first_idx (matches (num_tag_of p addr)) s (Z.to_nat (nK p)) O = None ->
  first_idx invalid s (Z.to_nat (nK p)) O = Some inv ->
  line s' inv
  = mkBlock (num_tag_of p addr)
            (incr_uint (if policy p =? LRU then num_lru m else num_fifo m)) 1 /\
  (if policy p =? LRU then num_lru (access_data p m addr)
   else num_fifo (access_data p m addr))
  = incr_uint (if policy p =? LRU then num_lru m else num_fifo m).
Proof.
  intros Hpol Hwf Ha s s' Hmiss Hinv. subst s'.
  pose proof (set_length p m addr Hwf Ha) as Hlen. fold s in Hlen.
  destruct (first_idx_Some _ _ _ _ _ Hinv) as (Hidx & _ & _).
  destruct Hpol as [Hp|Hp].
  - rewrite (set_after_lru p m addr Hwf Ha Hp).
    rewrite (access_data_lru p m addr Hp). fold s.
    unfold access_lru. rewrite Hmiss, Hinv. cbn [fst snd].
    rewrite line_store_same by lia. rewrite Hp. cbn. auto.
  - rewrite (set_after_fifo p m addr Hwf Ha Hp).
    rewrite (access_data_fifo p m addr Hp). fold s.
    unfold access_fifo. rewrite Hmiss, Hinv. cbn [fst snd].
    rewrite line_store_same by lia. rewrite Hp. cbn. auto.
Qed.

(** X6. A miss in a set with an invalid line takes the invalid line of
    lowest index: that line gets the tag, the incremented clock of the
    policy and the valid bit, every other line is as it was, and no
    eviction is counted. *)
Theorem miss_fills_first_invalid_line (p : Params) (m : Mem) (addr : Z)
        (inv : nat) :
  policy p = LRU \/ policy p = FIFO -> wf p m -> 0 <= addr ->
  let s := set_at (cache m) (num_set_of p m addr) in
  let s' := set_at (cache (access_data p m addr)) (num_set_of p m addr) in
  present p m addr = false ->
  (inv < Z.to_nat (nK p))%nat ->
  validBits (line s inv) = 0 ->
  (forall j, (j < inv)%nat -> validBits (line s j) <> 0) ->
  line s' inv
  = mkBlock (num_tag_of p addr)
            (incr_uint (if policy p =? LRU then num_lru m else num_fifo m)) 1 /\
  (forall j, j <> inv -> line s' j = line s j) /\
  eviction_count (access_data p m addr) = eviction_count m /\
  miss_count (access_data p m addr) = incr_int (miss_count m).
Proof.
  intros Hpol Hwf Ha s s' Hab Hinv Hv Hlow.
  assert (Hmiss : first_idx (matches (num_tag_of p addr)) s
                            (Z.to_nat (nK p)) O = None).
  { unfold present in Hab. fold s in Hab.
    destruct (first_idx _ s _ O); [discriminate|reflexivity]. }
  assert (Hfree : first_idx invalid s (Z.to_nat (nK p)) O = Some inv).
  { apply first_idx_is; [lia | | ].
    - unfold invalid. now apply Z.eqb_eq.
    - intros j Hj. unfold invalid. apply Z.eqb_neq. apply Hlow. lia. }
  destruct (access_data_fill p m addr Hpol Hwf Ha inv Hmiss Hfree)
    as (_ & Hm & He & _ & _ & _ & Hrest).
  destruct (access_data_fill_line p m addr inv Hpol Hwf Ha Hmiss Hfree)
    as (Hline & _).
  repeat split; auto.
Qed.

Lemma miss_fills_first_invalid_line_witness :
  line (set_at (cache (access_data (sample_3way LRU)
                         (accesses (sample_3way LRU) (fresh (sample_3way LRU)) [16])
                         80)) 1) 1
  = mkBlock 5 3 1.
Proof.
  destruct (miss_fills_first_invalid_line (sample_3way LRU)
              (accesses (sample_3way LRU) (fresh (sample_3way LRU)) [16]) 80 1)
    as (H & _).
  - left; reflexivity.
  - apply accesses_wf, allocate_cache_wf. unfold INT_MAX; simpl; lia.
  - lia.
  - reflexivity.
  - simpl; lia.
  - reflexivity.
  - intros j Hj. assert (j = O) by lia. subst j. simpl. lia.
  - exact H.
Defined.

Lemma present_other_set p m addr x :
  Z.to_nat (num_set_of p m x) <> Z.to_nat (num_set_of p m addr) ->
  present p (access_data p m addr) x = present p m x.
Proof.
  intros Hne. unfold present. rewrite num_set_of_access. unfold set_at.
  now rewrite access_data_other_sets.
Qed.

Lemma present_kept_without_eviction p m addr x :
  policy p = LRU \/ policy p = FIFO -> wf p m -> 0 <= addr -> 0 < nK p ->
  eviction_count (access_data p m addr) = eviction_count m ->
  present p m x = true -> present p (access_data p m addr) x = true.
Proof.
  intros Hpol Hwf Ha HK Hev Hpr.
  destruct (Nat.eq_dec (Z.to_nat (num_set_of p m x))
                       (Z.to_nat (num_set_of p m addr))) as [Heq|Hne];
    [|now rewrite present_other_set].
  apply present_iff in Hpr as (j & Hj & Hm). apply present_iff.
  exists j. split; auto. rewrite num_set_of_access.
  unfold set_at in *. rewrite Heq in *.
  destruct (access_data_lines p m addr Hpol Hwf Ha HK)
    as [(_ & Hsame)|(_ & w & _ & _ & _ & Hfree & Hrest)]; unfold set_at in *.
  - unfold matches in *. now rewrite (proj1 (Hsame j)), (proj2 (Hsame j)).
  - destruct (Nat.eq_dec j w) as [->|Hjw]; [|now rewrite (Hrest j Hjw)].
    exfalso. unfold matches in Hm. rewrite (Hfree Hev) in Hm.
    simpl in Hm. now rewrite andb_false_r in Hm.
Qed.

(** X7. Only an eviction removes a line from the cache: when an access
    counts no eviction, every line that was present before it is present
    after it. *)
Theorem only_eviction_removes (p : Params) (m : Mem) (addr x : Z) :
  policy p = LRU \/ policy p = FIFO -> wf p m -> 0 <= addr -> 0 < nK p ->
  eviction_count (access_data p m addr) = eviction_count m ->
  present p m x = true -> present p (access_data p m addr) x = true.
Proof. apply present_kept_without_eviction. Qed.

Lemma only_eviction_removes_witness :
  present (sample_3way LRU)
          (access_data (sample_3way LRU)
             (accesses (sample_3way LRU) (fresh (sample_3way LRU)) [16; 80])
             144) 16 = true.
Proof.
  apply (only_eviction_removes (sample_3way LRU)
           (accesses (sample_3way LRU) (fresh (sample_3way LRU)) [16; 80]) 144 16).
  - left; reflexivity.
  - apply accesses_wf, allocate_cache_wf. unfold INT_MAX; simpl; lia.
  - lia.
  - reflexivity.
  - reflexivity.
  - reflexivity.
Defined.

(** X8. An access touches the set of its address only: every other set of
    the cache is as it was, and the lines of every other set are present
    or absent as before. *)
Theorem other_sets_untouched (p : Params) (m : Mem) (addr : Z) :
  (forall i, i <> Z.to_nat (num_set_of p m addr) ->
             nth i (cache (access_data p m addr)) [] = nth i (cache m) []) /\
  (forall x, Z.to_nat (num_set_of p m x) <> Z.to_nat (num_set_of p m addr) ->
             present p (access_data p m addr) x = present p m x) /\
  setMask (access_data p m addr) = setMask m.
Proof.
  split; [intros i; apply access_data_other_sets|].
  split; [intros x; apply present_other_set | apply access_data_setMask].
Qed.

Lemma same_line_same_fields p m a1 a2 :
  0 <= S_temp p -> 0 <= B_temp p ->
  a1 / 2 ^ B_temp p = a2 / 2 ^ B_temp p ->
  num_tag_of p a1 = num_tag_of p a2 /\ num_set_of p m a1 = num_set_of p m a2.
Proof.
  intros HS HB H. rewrite <- !Z.shiftr_div_pow2 in H by auto.
  unfold num_tag_of, num_set_of. split; [|now rewrite H].
  rewrite (Z.add_comm (S_temp p)). rewrite <- !Z.shiftr_shiftr by auto.
  now rewrite H.
Qed.

(** X9. The block offset plays no part: two addresses with the same
    quotient by [2 ^ B_temp] are the same access, they leave the same
    memory. *)
Theorem block_offset_irrelevant (p : Params) (m : Mem) (a1 a2 : Z) :
  0 <= S_temp p -> 0 <= B_temp p ->
  a1 / 2 ^ B_temp p = a2 / 2 ^ B_temp p ->
  access_data p m a1 = access_data p m a2.
Proof.
  intros HS HB H.
  destruct (same_line_same_fields p m a1 a2 HS HB H) as (Ht & Hn).
  unfold access_data. now rewrite Ht, Hn.
Qed.

Lemma block_offset_irrelevant_witness :
  access_data sample_lru (fresh sample_lru) 16
  = access_data sample_lru (fresh sample_lru) 19.
Proof.
  apply (block_offset_irrelevant sample_lru (fresh sample_lru) 16 19);
    [simpl; lia | simpl; lia | reflexivity].
Defined.

Lemma hit_lines (p : Params) (m : Mem) (addr : Z) :
  wf p m -> 0 <= addr -> present p m addr = true ->
  let s := set_at (cache m) (num_set_of p m addr) in
  let s' := set_at (cache (access_data p m addr)) (num_set_of p m addr) in
  (policy p = FIFO ->
   access_data p m addr
   = mkMem (setMask m) (num_fifo m) (num_lru m) (cache m)
           (miss_count m) (incr_int (hit_count m)) (eviction_count m)) /\
  (policy p = LRU ->
   num_lru (access_data p m addr) = incr_uint (num_lru m) /\
   num_fifo (access_data p m addr) = num_fifo m /\
   exists idx,
     first_idx (matches (num_tag_of p addr)) s (Z.to_nat (nK p)) O = Some idx /\
     line s' idx = mkBlock (tagBits (line s idx)) (incr_uint (num_lru m))
                           (validBits (line s idx)) /\
     forall j, j <> idx -> line s' j = line s j).
Proof.
  intros Hwf Ha Hpr s s'. unfold present in Hpr. fold s in Hpr.
  destruct (first_idx (matches (num_tag_of p addr)) s (Z.to_nat (nK p)) O)
    as [idx|] eqn:Hhit; [|discriminate].
  split; intros Hp.
  - rewrite (access_data_fifo p m addr Hp). fold s.
    unfold access_fifo. rewrite Hhit. cbn. unfold s, set_at.
    now rewrite store_same.
  - subst s'. rewrite (set_after_lru p m addr Hwf Ha Hp).
    rewrite (access_data_lru p m addr Hp). fold s.
    unfold access_lru. rewrite Hhit. cbn [fst snd num_lru num_fifo].
    split; auto. split; auto. exists idx. split; auto.
    pose proof (set_length p m addr Hwf Ha) as Hlen. fold s in Hlen.
    destruct (first_idx_Some _ _ _ _ _ Hhit) as (Hidx & _ & _).
    split; [now rewrite line_store_same by lia|].
    intros j Hj. now rewrite line_store_other by auto.
Qed.

(** X10. A hit changes no tag and no valid bit.  Under FIFO it changes
    nothing at all but [hit_count]; under LRU it stamps the line found,
    the first that matches, with the incremented [num_lru] and leaves
    the other lines and [num_fifo] as they were. *)
Theorem hit_keeps_lines (p : Params) (m : Mem) (addr : Z) :
  wf p m -> 0 <= addr -> present p m addr = true ->
  let s := set_at (cache m) (num_set_of p m addr) in
  let s' := set_at (cache (access_data p m addr)) (num_set_of p m addr) in
  (policy p = FIFO ->
   access_data p m addr
   = mkMem (setMask m) (num_fifo m) (num_lru m) (cache m)
           (miss_count m) (incr_int (hit_count m)) (eviction_count m)) /\
  (policy p = LRU ->
   num_lru (access_data p m addr) = incr_uint (num_lru m) /\
   num_fifo (access_data p m addr) = num_fifo m /\
   exists idx,
     first_idx (matches (num_tag_of p addr)) s (Z.to_nat (nK p)) O = Some idx /\
     line s' idx = mkBlock (tagBits (line s idx)) (incr_uint (num_lru m))
                           (validBits (line s idx)) /\
     forall j, j <> idx -> line s' j = line s j).
Proof. apply hit_lines. Qed.

Lemma hit_keeps_lines_witness :
  access_data fifo_1x3 full_mem 6
  = mkMem 0 9 1 [full_set] 3 1 0.
Proof.
  destruct (hit_keeps_lines fifo_1x3 full_mem 6) as (H & _);
    [wf_by_cases | lia | reflexivity |].
  apply H. reflexivity.
Defined.

(** ** The clocks *)

Lemma to_uint_to_int_add x y : to_uint (to_int x + y) = to_uint (x + y).
Proof.
  unfold to_uint, to_int, UINT_MOD.
  replace ((x + 2 ^ 31) mod 2 ^ 32 - 2 ^ 31 + y)
    with ((x + 2 ^ 31) mod 2 ^ 32 + (y - 2 ^ 31)) by lia.
  rewrite Zplus_mod_idemp_l. f_equal. lia.
Qed.

Lemma to_uint_add_l x y : to_uint (to_uint x + y) = to_uint (x + y).
Proof. unfold to_uint. apply Zplus_mod_idemp_l. Qed.

(** Every path of the LRU branch increments the clock and counts a hit or
    a miss; every path of the FIFO branch counts a hit, or increments the
    clock and counts a miss. *)
Lemma access_lru_clock k t s c mi hi ev :
  let r := access_lru k t s c mi hi ev in
  snd (fst r) = incr_uint c /\
  to_uint (1 + snd (fst (snd r)) + fst (fst (snd r)))
  = to_uint (1 + hi + mi + 1).
Proof.
  unfold access_lru.
  destruct (first_idx (matches t) s k O); cbn [fst snd].
  - split; auto. unfold incr_int.
    replace (1 + to_int (hi + 1) + mi) with (to_int (hi + 1) + (1 + mi)) by lia.
    rewrite to_uint_to_int_add. f_equal. lia.
  - assert (H : to_uint (1 + hi + incr_int mi) = to_uint (1 + hi + mi + 1)).
    { unfold incr_int.
      replace (1 + hi + to_int (mi + 1)) with (to_int (mi + 1) + (1 + hi)) by lia.
      rewrite to_uint_to_int_add. f_equal. lia. }
    destruct (first_idx invalid s k O); cbn [fst snd]; auto.
Qed.

Lemma access_fifo_clock k t s c mi hi ev :
  c = to_uint (1 + mi) ->
  let r := access_fifo k t s c mi hi ev in
  snd (fst r) = to_uint (1 + fst (fst (snd r))).
Proof.
  intros Hc. unfold access_fifo.
  destruct (first_idx (matches t) s k O); cbn [fst snd]; auto.
  assert (H : incr_uint c = to_uint (1 + incr_int mi)).
  { subst c. unfold incr_uint, incr_int. rewrite to_uint_add_l.
    replace (1 + to_int (mi + 1)) with (to_int (mi + 1) + 1) by lia.
    rewrite to_uint_to_int_add. f_equal. lia. }
  destruct (first_idx invalid s k O); cbn [fst snd]; auto.
Qed.

Lemma clocks_kept p m addr :
  policy p = LRU \/ policy p = FIFO ->
  (if policy p =? LRU
   then num_lru m = to_uint (1 + hit_count m + miss_count m) /\ num_fifo m = 1
   else num_fifo m = to_uint (1 + miss_count m) /\ num_lru m = 1) ->
  let m' := access_data p m addr in
  if policy p =? LRU
  then num_lru m' = to_uint (1 + hit_count m' + miss_count m') /\ num_fifo m' = 1
  else num_fifo m' = to_uint (1 + miss_count m') /\ num_lru m' = 1.
Proof.
  intros [Hp|Hp] H; cbv zeta.
  - rewrite (access_data_lru p m addr Hp). rewrite Hp in *.
    change (LRU =? LRU) with true in *.
    cbn [num_lru num_fifo hit_count miss_count] in H |- *.
    destruct H as (Hc & Hf). split; auto.
    destruct (access_lru_clock (Z.to_nat (nK p)) (num_tag_of p addr)
                (set_at (cache m) (num_set_of p m addr)) (num_lru m)
                (miss_count m) (hit_count m) (eviction_count m)) as (H1 & H2).
    rewrite H1, H2, Hc. unfold incr_uint. rewrite to_uint_add_l. reflexivity.
  - rewrite (access_data_fifo p m addr Hp). rewrite Hp in *.
    change (FIFO =? LRU) with false in *.
    cbn [num_lru num_fifo hit_count miss_count] in H |- *.
    destruct H as (Hc & Hl). split; auto.
    now apply access_fifo_clock.
Qed.

(** X11. The clocks count: at the end of a run under LRU, [num_lru] is 1
    plus the hits plus the misses and [num_fifo] is still 1; at the end
    of a run under FIFO, [num_fifo] is 1 plus the misses and [num_lru] is
    still 1 (in [unsigned int], modulo 2^32). *)
Theorem clocks_count_accesses (p : Params) (trace_fp : string) :
  policy p = LRU \/ policy p = FIFO ->
  let m := run p trace_fp in
  if policy p =? LRU
  then num_lru m = to_uint (1 + hit_count m + miss_count m) /\ num_fifo m = 1
  else num_fifo m = to_uint (1 + miss_count m) /\ num_lru m = 1.
Proof.
  intros Hpol. cbv zeta. unfold run.
  apply (replay_trace_keeps p (fun m =>
    if policy p =? LRU
    then num_lru m = to_uint (1 + hit_count m + miss_count m) /\ num_fifo m = 1
    else num_fifo m = to_uint (1 + miss_count m) /\ num_lru m = 1)).
  - intros m addr _ H. now apply clocks_kept.
  - destruct (policy p =? LRU); split; reflexivity.
Qed.

Lemma clocks_count_accesses_witness :
  num_lru (run sample_lru sample_trace)
  = to_uint (1 + hit_count (run sample_lru sample_trace)
               + miss_count (run sample_lru sample_trace)) /\
  num_fifo (run sample_lru sample_trace) = 1.
Proof.
  apply (clocks_count_accesses sample_lru sample_trace). left; reflexivity.
Defined.

(** ** Least recently used *)

(** Under LRU the line of the address accessed carries the incremented
    clock afterwards, and the other lines of the set are as they were. *)
Lemma lru_stamp p m addr :
  policy p = LRU -> wf p m -> 0 <= addr -> 0 < nK p ->
  let s := set_at (cache m) (num_set_of p m addr) in
  let s' := set_at (cache (access_data p m addr)) (num_set_of p m addr) in
  num_lru (access_data p m addr) = incr_uint (num_lru m) /\
  exists w, (w < Z.to_nat (nK p))%nat /\
            tagBits (line s' w) = num_tag_of p addr /\
            validBits (line s' w) <> 0 /\
            countBlock (line s' w) = incr_uint (num_lru m) /\
            forall j, j <> w -> line s' j = line s j.
Proof.
  intros Hp Hwf Ha HK s s'.
  assert (Hclock : num_lru (access_data p m addr) = incr_uint (num_lru m)).
  { rewrite (access_data_lru p m addr Hp). cbn [num_lru].
    apply access_lru_clock. }
  split; auto.
  assert (Hpol : policy p = LRU \/ policy p = FIFO) by now left.
  destruct (first_idx (matches (num_tag_of p addr)) s (Z.to_nat (nK p)) O)
    as [idx|] eqn:Hhit.
  - assert (Hpr : present p m addr = true)
      by (unfold present; fold s; now rewrite Hhit).
    destruct (hit_lines p m addr Hwf Ha Hpr) as (_ & Hlru).
    destruct (Hlru Hp) as (_ & _ & idx' & Hidx' & Hline & Hrest).
    fold s in Hidx'. rewrite Hhit in Hidx'. injection Hidx' as <-.
    destruct (first_idx_Some _ _ _ _ _ Hhit) as (Hidx & Hm & _).
    unfold matches in Hm. apply andb_true_iff in Hm as (Ht & Hv).
    apply Z.eqb_eq in Ht. apply negb_true_iff, Z.eqb_neq in Hv.
    exists idx. fold s s' in Hline, Hrest. rewrite Hline. cbn.
    repeat split; auto. lia.
  - destruct (first_idx invalid s (Z.to_nat (nK p)) O) as [inv|] eqn:Hinv.
    + destruct (access_data_fill p m addr Hpol Hwf Ha inv Hhit Hinv)
        as (_ & _ & _ & Hlt & _ & _ & Hrest).
      destruct (access_data_fill_line p m addr inv Hpol Hwf Ha Hhit Hinv)
        as (Hline & _).
      rewrite Hp in Hline. change (LRU =? LRU) with true in Hline.
      exists inv. fold s' in Hline. rewrite Hline. cbn.
      repeat split; auto. discriminate.
    + destruct (access_data_evict p m addr Hpol Hwf Ha HK Hhit Hinv)
        as (v & (Hlt & _) & _ & _ & _ & Ht & Hv & Hc & Hrest).
      rewrite Hp in Hc. change (LRU =? LRU) with true in Hc.
      exists v. repeat split; auto. fold s' in Hc. now rewrite Hc.
Qed.

Lemma stamps_below_kept p m addr :
  policy p = LRU -> wf p m -> 0 <= addr -> 0 < nK p ->
  0 <= num_lru m -> num_lru m + 1 < UINT_MOD ->
  stamps_below m ->
  stamps_below (access_data p m addr) /\
  num_lru (access_data p m addr) = num_lru m + 1.
Proof.
  intros Hp Hwf Ha HK H0 Hmax Hst.
  destruct (lru_stamp p m addr Hp Hwf Ha HK)
    as (Hclock & w & Hw & _ & _ & Hc & Hrest).
  assert (Hincr : incr_uint (num_lru m) = num_lru m + 1).
  { unfold incr_uint, to_uint. apply Z.mod_small. lia. }
  rewrite Hincr in *. split; auto.
  intros i j. rewrite Hclock.
  destruct (Nat.eq_dec i (Z.to_nat (num_set_of p m addr))) as [->|Hne].
  - unfold set_at in *. destruct (Nat.eq_dec j w) as [->|Hjw].
    + rewrite Hc. lia.
    + rewrite (Hrest j Hjw). specialize (Hst (Z.to_nat (num_set_of p m addr)) j).
      lia.
  - rewrite access_data_other_sets by auto. specialize (Hst i j). lia.
Qed.

Lemma stamps_below_accesses p addrs :
  policy p = LRU -> 0 < nK p -> Forall (fun a => 0 <= a) addrs ->
  forall m,
    wf p m -> 0 <= num_lru m ->
    num_lru m + Z.of_nat (length addrs) < UINT_MOD ->
    stamps_below m ->
    stamps_below (accesses p m addrs) /\
    num_lru (accesses p m addrs) = num_lru m + Z.of_nat (length addrs).
Proof.
  intros Hp HK Hl. unfold accesses.
  induction Hl as [|a l Ha Hl IH]; intros m Hwf H0 Hmax Hst.
  - cbn. split; auto. lia.
  - cbn [fold_left]. cbn [length] in Hmax.
    destruct (stamps_below_kept p m a Hp Hwf Ha HK H0 ltac:(lia) Hst)
      as (Hst1 & Hc1).
    destruct (IH (access_data p m a)) as (Hst2 & Hc2); auto.
    + now apply access_data_wf.
    + lia.
    + lia.
    + split; auto. rewrite Hc2, Hc1. cbn [length]. lia.
Qed.

Lemma fresh_stamps_below p : stamps_below (fresh p).
Proof.
  intros i j.
  pose proof (fresh_line p (Z.of_nat i) j) as H. unfold set_at in H.
  rewrite Nat2Z.id in H. rewrite H. cbn. lia.
Qed.

(** The line accessed last outlives the next access, from a memory whose
    stamps are below a clock that is not about to wrap. *)
Lemma lru_protects_last p m a b :
  policy p = LRU -> wf p m -> 2 <= nK p -> 0 <= a -> 0 <= b ->
  0 <= num_lru m -> num_lru m + 1 < UINT_MOD -> stamps_below m ->
  present p (access_data p (access_data p m a) b) a = true.
Proof.
  intros Hp Hwf HK Ha Hb H0 Hmax Hst.
  assert (Hpol : policy p = LRU \/ policy p = FIFO) by now left.
  set (m1 := access_data p m a).
  assert (Hwf1 : wf p m1) by now apply access_data_wf.
  assert (Hpr1 : present p m1 a = true)
    by (apply access_data_present; auto; lia).
  destruct (Nat.eq_dec (Z.to_nat (num_set_of p m1 a))
                       (Z.to_nat (num_set_of p m1 b))) as [Heq|Hne];
    [|now rewrite present_other_set].
  destruct (lru_stamp p m a Hp Hwf Ha ltac:(lia))
    as (_ & w & Hw & Htw & Hvw & Hcw & Hrest).
  fold m1 in Htw, Hvw, Hcw, Hrest.
  assert (Hincr : incr_uint (num_lru m) = num_lru m + 1).
  { unfold incr_uint, to_uint. apply Z.mod_small. lia. }
  rewrite Hincr in Hcw.
  assert (Hset : num_set_of p m1 a = num_set_of p m a)
    by apply num_set_of_access.
  rewrite <- Hset in Htw, Hvw, Hcw, Hrest.
  set (s := set_at (cache m1) (num_set_of p m1 b)).
  assert (Hsb : set_at (cache m1) (num_set_of p m1 a) = s)
    by (unfold s, set_at; now rewrite Heq).
  rewrite Hsb in Htw, Hvw, Hcw.
  (* the line [w] of the shared set keeps its tag and valid bit *)
  enough (Hkeep :
    tagBits (line (set_at (cache (access_data p m1 b)) (num_set_of p m1 b)) w)
    = tagBits (line s w) /\
    validBits (line (set_at (cache (access_data p m1 b)) (num_set_of p m1 b)) w)
    = validBits (line s w)).
  { apply present_iff. exists w. split; auto.
    rewrite num_set_of_access. unfold set_at in *. rewrite Heq.
    unfold matches. rewrite (proj1 Hkeep), (proj2 Hkeep), Htw, Z.eqb_refl.
    apply Z.eqb_neq in Hvw. now rewrite Hvw. }
  destruct (first_idx (matches (num_tag_of p b)) s (Z.to_nat (nK p)) O)
    as [idx|] eqn:Hhit.
  - destruct (access_data_hit p m1 b Hpol Hwf1 Hb idx Hhit)
      as (_ & _ & _ & Hsame).
    apply Hsame.
  - enough (Hline :
      line (set_at (cache (access_data p m1 b)) (num_set_of p m1 b)) w
      = line s w) by (now rewrite Hline).
    destruct (first_idx invalid s (Z.to_nat (nK p)) O) as [inv|] eqn:Hinv.
    + destruct (access_data_fill p m1 b Hpol Hwf1 Hb inv Hhit Hinv)
        as (_ & _ & _ & _ & _ & _ & Hother).
      fold s in Hother. apply Hother. intros ->.
      apply first_idx_Some in Hinv as (_ & Hi & _).
      unfold invalid in Hi. apply Z.eqb_eq in Hi. contradiction.
    + destruct (access_data_evict p m1 b Hpol Hwf1 Hb ltac:(lia) Hhit Hinv)
        as (v & (Hv & Hle & _) & _ & _ & _ & _ & _ & _ & Hother).
      fold s in Hle, Hother. apply Hother. intros ->.
      set (j := if Nat.eq_dec v 0 then 1%nat else 0%nat).
      assert (Hj : (j < Z.to_nat (nK p))%nat /\ j <> v)
        by (unfold j; destruct (Nat.eq_dec v 0); lia).
      specialize (Hle j (proj1 Hj)). rewrite Hcw in Hle.
      rewrite <- Hsb in Hle. rewrite (Hrest j (proj2 Hj)) in Hle.
      specialize (Hst (Z.to_nat (num_set_of p m1 a)) j).
      rewrite Hset in Hle. unfold set_at in Hle. rewrite Hset in Hst. lia.
Qed.

(** X12. Under LRU with at least two lines per set, the line accessed
    last is not the one the next access evicts: it is still in the cache
    after the next access, whatever that access is.  (Stated for the
    memories reached from an empty cache before [num_lru] wraps.) *)
Theorem lru_keeps_last_accessed (p : Params) (addrs : list Z) (a b : Z) :
  policy p = LRU -> 0 < nS p <= INT_MAX -> 2 <= nK p ->
  Forall (fun x => 0 <= x) addrs -> 0 <= a -> 0 <= b ->
  Z.of_nat (length addrs) + 2 < UINT_MOD ->
  present p (accesses p (fresh p) (addrs ++ [a; b])) a = true.
Proof.
  intros Hp HS HK Hl Ha Hb Hlen.
  unfold accesses. rewrite fold_left_app. cbn [fold_left].
  fold (accesses p (fresh p) addrs).
  assert (Hwf : wf p (fresh p)) by now apply allocate_cache_wf.
  destruct (stamps_below_accesses p addrs Hp ltac:(lia) Hl (fresh p) Hwf)
    as (Hst & Hc).
  - cbn [fresh allocate_cache initial_mem num_lru]. lia.
  - cbn [fresh allocate_cache initial_mem num_lru]. lia.
  - apply fresh_stamps_below.
  - cbn [fresh allocate_cache initial_mem num_lru] in Hc.
    apply lru_protects_last; auto; try lia.
    now apply accesses_wf.
Qed.

Lemma lru_keeps_last_accessed_witness :
  present (sample_2way LRU)
          (accesses (sample_2way LRU) (fresh (sample_2way LRU))
                    ([0; 1; 2] ++ [1; 3])) 1 = true.
Proof.
  apply (lru_keeps_last_accessed (sample_2way LRU) [0; 1; 2] 1 3);
    [reflexivity | unfold INT_MAX; simpl; lia | simpl; lia
    | repeat constructor; lia | lia | lia | unfold UINT_MOD; simpl; lia].
Defined.

(** ** Direct-mapped conflicts *)

(** With one line per set, an access to an address of the same set as the
    line held and of another tag is a miss that evicts it. *)
Lemma conflict_step p m x y :
  policy p = LRU \/ policy p = FIFO -> wf p m -> nK p = 1 ->
  0 <= x -> 0 <= y ->
  num_set_of p m x = num_set_of p m y ->
  num_tag_of p x <> num_tag_of p y ->
  present p m y = true ->
  let m' := access_data p m x in
  present p m' x = true /\
  counts m' = (hit_count m, incr_int (miss_count m),
               incr_int (eviction_count m)).
Proof.
  intros Hpol Hwf HK Hx Hy Hset Htag Hpr m'.
  split; [apply access_data_present; auto; lia|].
  apply present_iff in Hpr as (j & Hj & Hm).
  rewrite HK in Hj. assert (j = O) by (simpl in Hj; lia). subst j.
  rewrite <- Hset in Hm.
  set (s := set_at (cache m) (num_set_of p m x)) in *.
  unfold matches in Hm. apply andb_true_iff in Hm as (Ht & Hv).
  apply Z.eqb_eq in Ht.
  assert (Hmiss : first_idx (matches (num_tag_of p x)) s (Z.to_nat (nK p)) O = None).
  { rewrite HK. simpl. unfold matches. rewrite Ht.
    apply not_eq_sym, Z.eqb_neq in Htag. now rewrite Htag. }
  assert (Hfull : first_idx invalid s (Z.to_nat (nK p)) O = None).
  { rewrite HK. simpl. unfold invalid.
    apply negb_true_iff in Hv. now rewrite Hv. }
  destruct (access_data_evict p m x Hpol Hwf Hx ltac:(lia) Hmiss Hfull)
    as (v & _ & Hh & Hmi & He & _).
  unfold counts, m'. now rewrite Hh, Hmi, He.
Qed.

Lemma conflict_accesses p n :
  policy p = LRU \/ policy p = FIFO -> nK p = 1 ->
  forall m x y,
    wf p m -> 0 <= x -> 0 <= y ->
    num_set_of p m x = num_set_of p m y ->
    num_tag_of p x <> num_tag_of p y ->
    present p m y = true ->
    counts (accesses p m (alternate x y n))
    = (hit_count m, to_int (miss_count m + Z.of_nat n),
       to_int (eviction_count m + Z.of_nat n)) \/ n = O.
Proof.
  intros Hpol HK. induction n as [|n IH]; intros m x y Hwf Hx Hy Hset Htag Hpr.
  - now right.
  - left. cbn [alternate]. unfold accesses. cbn [fold_left].
    fold (accesses p (access_data p m x) (alternate y x n)).
    destruct (conflict_step p m x y Hpol Hwf HK Hx Hy Hset Htag Hpr)
      as (Hprx & Hc).
    unfold counts in Hc. injection Hc as Hh Hm He.
    destruct (IH (access_data p m x) y x) as [H| ->]; auto.
    + now apply access_data_wf.
    + rewrite !num_set_of_access. auto.
    + rewrite H, Hh, Hm, He. unfold incr_int. rewrite !to_int_add_l.
      f_equal; [f_equal|]; f_equal; lia.
    + cbn [alternate fold_left accesses]. unfold counts.
      rewrite Hh, Hm, He. reflexivity.
Qed.

(** X13. With one line per set, two addresses of the same set and of
    different tags evict each other: accessed in turn [n >= 1] times from
    an empty cache, under either policy, they make no hit, [n] misses and
    [n - 1] evictions (as [int]s). *)
Theorem direct_mapped_conflict (p : Params) (a b : Z) (n : nat) :
  policy p = LRU \/ policy p = FIFO ->
  0 < nS p <= INT_MAX -> nK p = 1 -> 0 <= a -> 0 <= b ->
  num_set_of p (fresh p) a = num_set_of p (fresh p) b ->
  num_tag_of p a <> num_tag_of p b ->
  counts (accesses p (fresh p) (alternate a b (Datatypes.S n)))
  = (0, to_int (Z.of_nat n + 1), to_int (Z.of_nat n)).
Proof.
  intros Hpol HS HK Ha Hb Hset Htag.
  assert (Hwf : wf p (fresh p)) by now apply allocate_cache_wf.
  cbn [alternate]. unfold accesses. cbn [fold_left].
  fold (accesses p (access_data p (fresh p) a) (alternate b a n)).
  pose proof (first_access p a Hpol HS ltac:(lia) Ha) as Hc.
  unfold counts in Hc. injection Hc as Hh Hm He.
  destruct (conflict_accesses p n Hpol HK (access_data p (fresh p) a) b a)
    as [H| ->]; auto.
  - now apply access_data_wf.
  - rewrite !num_set_of_access. auto.
  - apply access_data_present; auto; lia.
  - rewrite H, Hh, Hm, He.
    now rewrite Z.add_0_l, (Z.add_comm 1).
  - cbn [alternate fold_left accesses]. unfold counts.
    now rewrite Hh, Hm, He.
Qed.

Lemma direct_mapped_conflict_witness :
  counts (accesses sample_lru (fresh sample_lru) (alternate 16 32 5))
  = (0, to_int (Z.of_nat 4 + 1), to_int (Z.of_nat 4)).
Proof.
  apply (direct_mapped_conflict sample_lru 16 32 4);
    [left; reflexivity | unfold INT_MAX; simpl; lia | reflexivity | lia | lia
    | reflexivity | vm_compute; discriminate].
Defined.

(** ** The two macros *)

Lemma clz_ctz_power pf y :
  0 < y < UINT_MOD ->
  builtin_clz (clz_zero pf) y + builtin_ctz (ctz_zero pf) y = 31 <->
  exists k, 0 <= k <= 31 /\ y = 2 ^ k.
Proof.
  intros Hy. unfold builtin_clz, builtin_ctz, UINT_MOD in *.
  destruct y as [|q|q]; try lia.
  change (Z.pos q =? 0) with false. cbv iota. split.
  - intros H. destruct (proj1 (log2_is_ctz q)) as (k & Hk & Hq); [lia|].
    exists k. split; auto. split; auto.
    destruct (Z.le_gt_cases k 31); auto. exfalso.
    pose proof (Z.pow_le_mono_r 2 32 k ltac:(lia) ltac:(lia)). lia.
  - intros (k & Hk & Hq).
    pose proof (proj2 (log2_is_ctz q) (ex_intro _ k (conj (proj1 Hk) Hq))).
    lia.
Qed.

(** X14. On a non-zero [int], [NOT_POWER2] is false exactly on the powers
    of two [1 .. 2^30] and on [INT_MIN]: every other value, every other
    negative one included, is reported as not a power of two. *)
Theorem NOT_POWER2_on_int (pf : Platform) (x : Z) :
  - 2 ^ 31 <= x <= INT_MAX -> x <> 0 ->
  NOT_POWER2 pf x = false <->
  (exists k, 0 <= k <= 30 /\ x = 2 ^ k) \/ x = - 2 ^ 31.
Proof.
  intros Hx Hx0. unfold INT_MAX in Hx.
  destruct (Z.lt_ge_cases 0 x) as [Hpos|Hneg].
  - rewrite (NOT_POWER2_spec pf x) by (unfold INT_MAX; lia).
    split; [now left|]. intros [H|H]; [auto|lia].
  - unfold NOT_POWER2. rewrite negb_false_iff, Z.eqb_eq.
    assert (Hu : to_uint x = x + 2 ^ 32).
    { unfold to_uint, UINT_MOD.
      replace x with ((x + 2 ^ 32) + (-1) * 2 ^ 32) at 1 by lia.
      rewrite Z_mod_plus_full. apply Z.mod_small. lia. }
    rewrite Hu. rewrite clz_ctz_power by (unfold UINT_MOD; lia).
    split.
    + intros (k & Hk & Hq). right.
      destruct (Z.eq_dec k 31) as [->|Hne]; [lia|]. exfalso.
      pose proof (Z.pow_le_mono_r 2 k 30 ltac:(lia) ltac:(lia)). lia.
    + intros [(k & Hk & Hq)|H].
      * exfalso. pose proof (Z.pow_pos_nonneg 2 k ltac:(lia) ltac:(lia)). lia.
      * exists 31. split; [lia|]. lia.
Qed.

Lemma NOT_POWER2_on_int_witness :
  NOT_POWER2 (one_file EmptyString) 16 = false <->
  (exists k, 0 <= k <= 30 /\ 16 = 2 ^ k) \/ 16 = - 2 ^ 31.
Proof.
  apply (NOT_POWER2_on_int (one_file EmptyString) 16);
    [unfold INT_MAX; lia | lia].
Defined.

(** X15. On a positive [int], [INT_LOG2] is the logarithm rounded down:
    between 0 and 30, with [2 ^ INT_LOG2(x) <= x < 2 ^ (INT_LOG2(x) + 1)];
    on a negative one it is 31. *)
Theorem INT_LOG2_floor (pf : Platform) (x : Z) :
  - 2 ^ 31 <= x <= INT_MAX -> x <> 0 ->
  (0 < x ->
   0 <= INT_LOG2 pf x <= 30 /\
   2 ^ INT_LOG2 pf x <= x < 2 ^ (INT_LOG2 pf x + 1)) /\
  (x < 0 -> INT_LOG2 pf x = 31).
Proof.
  intros Hx Hx0. unfold INT_MAX in Hx. unfold INT_LOG2, builtin_clz. split.
  - intros Hpos. unfold to_uint, UINT_MOD. rewrite Z.mod_small by lia.
    destruct (Z.eqb_spec x 0); [lia|].
    replace (31 - (31 - Z.log2 x)) with (Z.log2 x) by lia.
    pose proof (Z.log2_spec x Hpos) as Hspec.
    pose proof (Z.log2_nonneg x).
    split; [|unfold Z.succ in Hspec; lia].
    split; auto. destruct (Z.le_gt_cases (Z.log2 x) 30); auto. exfalso.
    pose proof (Z.pow_le_mono_r 2 31 (Z.log2 x) ltac:(lia) ltac:(lia)). lia.
  - intros Hneg.
    assert (Hu : to_uint x = x + 2 ^ 32).
    { unfold to_uint, UINT_MOD.
      replace x with ((x + 2 ^ 32) + (-1) * 2 ^ 32) at 1 by lia.
      rewrite Z_mod_plus_full. apply Z.mod_small. lia. }
    rewrite Hu. destruct (Z.eqb_spec (x + 2 ^ 32) 0); [lia|].
    assert (Z.log2 (x + 2 ^ 32) = 31); [|lia].
    apply Z.log2_unique; lia.
Qed.

Lemma INT_LOG2_floor_witness :
  (0 < 24 ->
   0 <= INT_LOG2 (one_file EmptyString) 24 <= 30 /\
   2 ^ INT_LOG2 (one_file EmptyString) 24 <= 24
   < 2 ^ (INT_LOG2 (one_file EmptyString) 24 + 1)) /\
  (24 < 0 -> INT_LOG2 (one_file EmptyString) 24 = 31).
Proof.
  apply (INT_LOG2_floor (one_file EmptyString) 24);
    [unfold INT_MAX; lia | lia].
Defined.

(** ** The command line, in full *)

(** The loop goes past every option of [pre] that is one it goes past,
    and carries on with what follows. *)
Lemma parse_options_app pf pre rest :
  forallb (option_ok pf) pre = true ->
  forall p fp,
    exists p' fp',
      parse_options pf pre p fp = inr (p', fp') /\
      parse_options pf (pre ++ rest) p fp = parse_options pf rest p' fp'.
Proof.
  induction pre as [|[c optarg] pre IH]; intros Hok p fp.
  - exists p, fp. split; reflexivity.
  - cbn [forallb] in Hok. apply andb_true_iff in Hok as (Hc & Hok).
    specialize (IH Hok). unfold option_ok in Hc. cbn [fst snd] in Hc.
    cbn [app parse_options].
    destruct (Ascii.eqb_spec c "S") as [->|NS].
    { cbn [set_nS nS]. apply negb_true_iff in Hc. rewrite Hc. apply IH. }
    destruct (Ascii.eqb_spec c "K") as [->|NK]; [apply IH|].
    destruct (Ascii.eqb_spec c "B") as [->|NB]; [apply IH|].
    destruct (Ascii.eqb_spec c "p") as [->|NP]; [apply IH|].
    destruct (Ascii.eqb_spec c "t") as [->|NT].
    { destruct (Ascii.eqb_spec "t" "v"); [discriminate|].
      cbn [orb] in Hc.
      destruct (fopen pf optarg); [apply IH|discriminate]. }
    destruct (Ascii.eqb_spec c "v") as [->|NV]; [apply IH|].
    discriminate.
Qed.

Lemma parse_options_more pf opts :
  forall p fp p' fp',
    parse_options pf opts p fp = inr (p', fp') ->
    policy p' = last_policy opts (policy p) /\
    fp' = last_trace pf opts fp /\
    verbose p' = last_verbose opts (verbose p).
Proof.
  induction opts as [|[c optarg] rest IH]; intros p fp p' fp' H.
  - injection H as <- <-. repeat split.
  - cbn [parse_options] in H.
    unfold last_policy, last_trace, last_verbose.
    cbn [fold_left fst snd].
    fold (last_policy rest) (last_trace pf rest) (last_verbose rest).
    destruct (Ascii.eqb_spec c "S") as [->|NS].
    { destruct (NOT_POWER2 pf _); [discriminate|].
      apply IH in H. exact H. }
    destruct (Ascii.eqb_spec c "K") as [->|NK]; [apply IH in H; exact H|].
    destruct (Ascii.eqb_spec c "B") as [->|NB]; [apply IH in H; exact H|].
    destruct (Ascii.eqb_spec c "p") as [->|NP].
    { apply IH in H. cbn [Ascii.eqb] in H |- *.
      destruct (String.eqb_spec optarg "FIFO") as [->|NF].
      - exact H.
      - destruct (optarg =? "LRU")%string; exact H. }
    destruct (Ascii.eqb_spec c "t") as [->|NT].
    { destruct (fopen pf optarg) as [text|] eqn:E; [|discriminate].
      apply IH in H. exact H. }
    destruct (Ascii.eqb_spec c "v") as [->|NV]; [apply IH in H; exact H|].
    destruct (Ascii.eqb_spec c "h"); discriminate.
Qed.

Lemma last_policy_named opts :
  forall d,
    (names_policy opts = true ->
     last_policy opts d = FIFO \/ last_policy opts d = LRU) /\
    (names_policy opts = false -> last_policy opts d = d) /\
    (d = FIFO \/ d = LRU ->
     last_policy opts d = FIFO \/ last_policy opts d = LRU).
Proof.
  unfold names_policy, last_policy.
  induction opts as [|[c a] rest IH]; intros d; cbn [existsb fold_left fst snd].
  - repeat split; auto. discriminate.
  - destruct (c =? "p")%char; cbn [andb orb]; [|apply IH].
    destruct (a =? "LRU")%string.
    + rewrite orb_true_r. cbn [orb].
      destruct (IH LRU) as (_ & _ & H). repeat split; auto; discriminate.
    + destruct (a =? "FIFO")%string; cbn [orb].
      * destruct (IH FIFO) as (_ & _ & H). repeat split; auto; discriminate.
      * apply IH.
Qed.

Lemma last_trace_given pf opts :
  forallb (option_ok pf) opts = true ->
  forall d,
    (gives_trace opts = true -> exists text, last_trace pf opts d = Some text) /\
    (gives_trace opts = false -> last_trace pf opts d = d) /\
    ((exists text, d = Some text) -> exists text, last_trace pf opts d = Some text).
Proof.
  unfold gives_trace, last_trace.
  induction opts as [|[c a] rest IH]; intros Hok d;
    cbn [existsb fold_left fst snd].
  - repeat split; auto; discriminate.
  - cbn [forallb] in Hok. apply andb_true_iff in Hok as (Hc & Hok).
    specialize (IH Hok). unfold option_ok in Hc; cbn [fst snd] in Hc.
    destruct (Ascii.eqb_spec c "t") as [->|NT]; cbn [orb]; [|apply IH].
    cbn in Hc. destruct (fopen pf a) as [text|]; [|discriminate].
    destruct (IH (Some text)) as (_ & _ & H).
    repeat split; intros; try discriminate; apply H; eauto.
Qed.

(** [parse_arguments] returns exactly from the accepted command lines. *)
Lemma parse_arguments_accepts pf opts :
  (exists p text, parse_arguments pf opts = Parsed p text) <-> accepted pf opts.
Proof.
  unfold accepted, parse_arguments. split.
  - intros (p & text & H).
    destruct (parse_options pf opts initial_params None)
      as [[st out]|[p' fp']] eqn:E; [discriminate|].
    destruct (parse_options_done pf opts _ _ _ _ E)
      as (Hok & HS & HK & HB & Hpol & Htrace & _).
    cbn [nS nK nB policy initial_params] in *.
    destruct (_ || _) eqn:Echk; [discriminate|].
    destruct fp' as [text'|]; [|discriminate].
    apply orb_false_iff in Echk as (Echk & Hp).
    apply orb_false_iff in Echk as (Echk & HnB).
    apply orb_false_iff in Echk as (HnS & HnK).
    apply Z.leb_gt in HnS, HnK, HnB. apply Z.eqb_neq in Hp.
    split; [exact Hok|]. split; [lia|]. split; [lia|]. split; [lia|]. split.
    + destruct (names_policy opts); auto; now specialize (Hpol eq_refl).
    + destruct (gives_trace opts); auto; now specialize (Htrace eq_refl).
  - intros (Hok & HS & HK & HB & Hnp & Hgt).
    destruct (parse_options_app pf opts [] Hok initial_params None)
      as (p' & fp' & E & _).
    rewrite E.
    destruct (parse_options_done pf opts _ _ _ _ E)
      as (_ & HnS & HnK & HnB & _).
    destruct (parse_options_more pf opts _ _ _ _ E) as (Hpol & Hfp & _).
    cbn [nS nK nB policy initial_params] in *.
    destruct (proj1 (last_policy_named opts 0) Hnp) as [Hp|Hp];
      rewrite <- Hpol in Hp.
    all: destruct (proj1 (last_trace_given pf opts Hok None) Hgt) as (text & Ht);
      rewrite <- Hfp in Ht; subst fp'.
    all: replace ((nS p' <=? 0) || (nK p' <=? 0) || (nB p' <=? 0) || (policy p' =? 0))
        with false; [rewrite Ht; eauto|].
    all: symmetry; rewrite Hp; repeat (apply orb_false_iff; split);
      try reflexivity; apply Z.leb_gt; lia.
Qed.

(** ** What [parse_arguments] does not check *)

Lemma block_size_unchecked pf opts b :
  accepted pf opts -> 0 < atoi b ->
  exists p text,
    parse_arguments pf (opts ++ [("B"%char, b)]) = Parsed p text /\
    nB p = atoi b /\
    main pf (opts ++ [("B"%char, b)])
    = Summary (hit_count (run p text)) (miss_count (run p text))
              (eviction_count (run p text)).
Proof.
  intros (Hok & HS & HK & HB & Hnp & Hgt) Hb.
  destruct (parse_options_app pf opts [("B"%char, b)] Hok initial_params None)
    as (p' & fp' & E & Happ).
  destruct (parse_options_done pf opts _ _ _ _ E) as (_ & HnS & HnK & _).
  destruct (parse_options_more pf opts _ _ _ _ E) as (Hpol & Hfp & _).
  cbn [nS nK policy initial_params] in *.
  destruct (proj1 (last_trace_given pf opts Hok None) Hgt) as (text & Ht).
  rewrite <- Hfp in Ht. subst fp'.
  assert (Hp : policy p' <> 0).
  { rewrite Hpol.
    destruct (proj1 (last_policy_named opts 0) Hnp) as [-> | ->]; discriminate. }
  assert (Hparse : parse_arguments pf (opts ++ [("B"%char, b)])
                   = Parsed (set_B_temp (set_nB p' (atoi b))
                                        (INT_LOG2 pf (atoi b))) text).
  { assert (E2 : parse_options pf [("B"%char, b)] p' (Some text)
                 = inr (set_nB p' (atoi b), Some text)) by reflexivity.
    unfold parse_arguments. rewrite Happ, Ht, E2.
    change (nS (set_nB p' (atoi b))) with (nS p').
    change (nK (set_nB p' (atoi b))) with (nK p').
    change (nB (set_nB p' (atoi b))) with (atoi b).
    change (policy (set_nB p' (atoi b))) with (policy p').
    replace (nS p' <=? 0) with false by (symmetry; apply Z.leb_gt; lia).
    replace (nK p' <=? 0) with false by (symmetry; apply Z.leb_gt; lia).
    replace (atoi b <=? 0) with false by (symmetry; apply Z.leb_gt; lia).
    replace (policy p' =? 0) with false by (symmetry; now apply Z.eqb_neq).
    reflexivity. }
  eexists _, text. split; [exact Hparse|]. split; [reflexivity|].
  unfold main. now rewrite Hparse.
Qed.

Lemma unknown_policy_ignored pf opts x :
  forallb (option_ok pf) opts = true ->
  x <> "FIFO"%string -> x <> "LRU"%string ->
  main pf (opts ++ [("p"%char, x)]) = main pf opts.
Proof.
  intros Hok HF HL.
  destruct (parse_options_app pf opts [("p"%char, x)] Hok initial_params None)
    as (p' & fp' & E & Happ).
  assert (E2 : parse_options pf [("p"%char, x)] p' fp' = inr (p', fp')).
  { change (parse_options pf [("p"%char, x)] p' fp')
      with (let p := if (x =? "FIFO")%string then set_policy p' FIFO else p' in
            let p := if (x =? "LRU")%string then set_policy p LRU else p in
            @inr (Z * list string) _ (p, fp')).
    apply String.eqb_neq in HF, HL. cbv zeta. now rewrite HF, HL. }
  unfold main, parse_arguments. now rewrite Happ, E2, E.
Qed.

(** C9 at [-S 1 -K 1 -B 3 -p LRU -t t] and at
    [-S 1 -K 1 -B 1 -p LRU -p MRU -t t].  3 is not a power of two (the test
    that refuses [-S 3] says so) and [MRU] is no policy, yet the program
    exits on neither command line: it allocates the cache, replays the
    trace and prints the summary.  Whatever the platform, a command line
    that is accepted is still accepted, with [B] the new value, when any
    positive [-B] is put behind it, and a [-p] that names no policy is
    ignored behind options that were accepted.  The other configurations of
    the claim are refused with status 1 when there is no [-h]; [-p MRU]
    alone is one of them. *)
Theorem unchecked_B_and_policy :
  NOT_POWER2 (one_file EmptyString) 3 = true /\
  csim "3" "1" "1" "LRU" ["L 0,1"%string]
  = Exited 1 ["ERROR: S must be a power of 2"%string] /\
  csim "1" "1" "3" "LRU" ["L 0,1"%string] = Summary 0 1 0 /\
  main (one_file (lines ["L 0,1"%string]))
       [ ("S"%char, "1"%string); ("K"%char, "1"%string); ("B"%char, "1"%string);
         ("p"%char, "LRU"%string); ("p"%char, "MRU"%string);
         ("t"%char, "t"%string) ]
  = Summary 0 1 0 /\
  csim "1" "1" "1" "MRU" ["L 0,1"%string]
  = Exited 1 ("ERROR: Negative or missing command line arguments"%string
              :: print_usage) /\
  (forall pf opts b,
     accepted pf opts -> 0 < atoi b ->
     exists p text,
       parse_arguments pf (opts ++ [("B"%char, b)]) = Parsed p text /\
       nB p = atoi b /\
       main pf (opts ++ [("B"%char, b)])
       = Summary (hit_count (run p text)) (miss_count (run p text))
                 (eviction_count (run p text))) /\
  (forall pf opts x,
     accepted pf opts -> x <> "FIFO"%string -> x <> "LRU"%string ->
     exists hits misses evictions,
       main pf opts = Summary hits misses evictions /\
       main pf (opts ++ [("p"%char, x)]) = Summary hits misses evictions) /\
  (forall pf opts,
     no_help opts -> refused pf opts ->
     exists printed, main pf opts = Exited 1 printed /\ printed <> []).
Proof.
  do 5 (split; [reflexivity|]).
  split; [exact block_size_unchecked|].
  split; [|exact refused_exit].
  intros pf opts x Hacc HF HL.
  destruct (proj2 (parse_arguments_accepts pf opts) Hacc) as (p & text & Hp).
  rewrite (unknown_policy_ignored pf opts x (proj1 Hacc) HF HL).
  unfold main. rewrite Hp. eauto.
Qed.


(** X17. When [parse_arguments] returns, [S], [K] and [B] are what the
    last [-S], [-K] and [-B] gave, the policy is that of the last [-p]
    that names one, the trace is the file of the last [-t], [verbose] is 1
    exactly when [-v] was given; [S] is a power of two at most [2^30],
    [K] and [B] are positive [int]s, the policy is FIFO or LRU, [S_temp]
    is 0 and [B_temp] is the logarithm of [B] rounded down. *)
Theorem parse_arguments_leaves (pf : Platform) (opts : list (ascii * string))
        (p : Params) (text : string) :
  parse_arguments pf opts = Parsed p text ->
  nS p = last_int "S" opts 0 /\ nK p = last_int "K" opts 0 /\
  nB p = last_int "B" opts 0 /\
  policy p = last_policy opts 0 /\ (policy p = FIFO \/ policy p = LRU) /\
  last_trace pf opts None = Some text /\
  verbose p = last_verbose opts 0 /\
  (exists s, 0 <= s <= 30 /\ nS p = 2 ^ s) /\
  0 < nK p <= INT_MAX /\ 0 < nB p <= INT_MAX /\
  S_temp p = 0 /\ B_temp p = Z.log2 (nB p).
Proof.
  intros H.
  destruct (parse_arguments_geometry pf opts p text H)
    as (HS & HSt & HBt & HK & HB & _).
  destruct (proj1 (parse_arguments_accepts pf opts)) as (_ & _ & _ & _ & Hnp & _);
    [eauto|].
  revert H. unfold parse_arguments.
  destruct (parse_options pf opts initial_params None)
    as [[st out]|[p' fp']] eqn:E; [discriminate|].
  destruct (parse_options_done pf opts _ _ _ _ E)
    as (_ & HnS & HnK & HnB & _).
  destruct (parse_options_more pf opts _ _ _ _ E) as (Hpol & Hfp & Hv).
  cbn [nS nK nB policy verbose initial_params] in *.
  destruct (_ || _); [discriminate|].
  destruct fp' as [text'|]; [|discriminate].
  intros H; injection H as <- <-.
  cbn [S_temp B_temp nS nK nB policy verbose set_B_temp] in *.
  assert (HKmax : nK p' <= INT_MAX).
  { rewrite HnK. destruct (last_int_cases "K" opts 0) as [->|(a & _ & ->)].
    - unfold INT_MAX; lia.
    - apply atoi_range. }
  repeat split; auto; try lia.
  rewrite Hpol. exact (proj1 (last_policy_named opts 0) Hnp).
Qed.

Lemma parse_arguments_leaves_witness :
  nS (geometry 4 1 16 LRU) = last_int "S" sample_options 0 /\
  nK (geometry 4 1 16 LRU) = last_int "K" sample_options 0 /\
  nB (geometry 4 1 16 LRU) = last_int "B" sample_options 0 /\
  policy (geometry 4 1 16 LRU) = last_policy sample_options 0 /\
  (policy (geometry 4 1 16 LRU) = FIFO \/ policy (geometry 4 1 16 LRU) = LRU) /\
  last_trace (one_file sample_trace) sample_options None = Some sample_trace /\
  verbose (geometry 4 1 16 LRU) = last_verbose sample_options 0 /\
  (exists s, 0 <= s <= 30 /\ nS (geometry 4 1 16 LRU) = 2 ^ s) /\
  0 < nK (geometry 4 1 16 LRU) <= INT_MAX /\
  0 < nB (geometry 4 1 16 LRU) <= INT_MAX /\
  S_temp (geometry 4 1 16 LRU) = 0 /\
  B_temp (geometry 4 1 16 LRU) = Z.log2 (nB (geometry 4 1 16 LRU)).
Proof.
  apply (parse_arguments_leaves (one_file sample_trace) sample_options
           (geometry 4 1 16 LRU) sample_trace).
  reflexivity.
Defined.

(** X18. [-h] stops everything: when the options before it are ones the
    loop goes past, the program prints the usage and exits with status 0,
    whatever follows [-h] and whatever the options before it set. *)
Theorem help_exits_0 (pf : Platform) (pre post : list (ascii * string))
        (a : string) :
  forallb (option_ok pf) pre = true ->
  main pf (pre ++ ("h"%char, a) :: post) = Exited 0 print_usage.
Proof.
  intros Hok. unfold main, parse_arguments.
  destruct (parse_options_app pf pre (("h"%char, a) :: post) Hok
                              initial_params None) as (p' & fp' & _ & ->).
  reflexivity.
Qed.

Lemma help_exits_0_witness :
  main (one_file EmptyString)
       ([("K"%char, "0"%string); ("p"%char, "MRU"%string)]
        ++ ("h"%char, EmptyString) :: [("S"%char, "3"%string)])
  = Exited 0 print_usage.
Proof.
  apply (help_exits_0 (one_file EmptyString)
           [("K"%char, "0"%string); ("p"%char, "MRU"%string)]
           [("S"%char, "3"%string)] EmptyString).
  reflexivity.
Defined.

Lemma parse_options_status pf opts :
  forall p fp status printed,
    parse_options pf opts p fp = inl (status, printed) ->
    (status = 1 /\ printed <> []) \/
    (status = 0 /\ printed = print_usage /\ exists a, In ("h"%char, a) opts).
Proof.
  induction opts as [|[c optarg] rest IH]; intros p fp status printed H.
  - discriminate.
  - assert (Hrest : forall p fp,
      parse_options pf rest p fp = inl (status, printed) ->
      (status = 1 /\ printed <> []) \/
      (status = 0 /\ printed = print_usage /\
       exists a, In ("h"%char, a) ((c, optarg) :: rest))).
    { intros p0 fp0 H0. destruct (IH _ _ _ _ H0) as [H1|(H1 & H2 & a & H3)].
      - now left.
      - right. repeat split; auto. exists a. now right. }
    cbn [parse_options] in H.
    destruct (Ascii.eqb_spec c "S") as [->|NS].
    { destruct (NOT_POWER2 pf _); [|eauto].
      injection H as <- <-. left. split; [reflexivity|discriminate]. }
    destruct (Ascii.eqb_spec c "K") as [->|NK]; [eauto|].
    destruct (Ascii.eqb_spec c "B") as [->|NB]; [eauto|].
    destruct (Ascii.eqb_spec c "p") as [->|NP]; [eauto|].
    destruct (Ascii.eqb_spec c "t") as [->|NT].
    { destruct (fopen pf optarg); [eauto|].
      injection H as <- <-. left. split; [reflexivity|discriminate]. }
    destruct (Ascii.eqb_spec c "v") as [->|NV]; [eauto|].
    destruct (Ascii.eqb_spec c "h") as [->|NH].
    { injection H as <- <-. right. repeat split. exists optarg. now left. }
    injection H as <- <-. left. split; [reflexivity|discriminate].
Qed.

(** X19. The program never exits from [parse_arguments] silently or with
    a status other than 0 and 1: an exit with status 1 prints a message,
    and an exit with status 0 prints the usage and happens only when [-h]
    is on the command line. *)
Theorem exit_status_0_or_1 (pf : Platform) (opts : list (ascii * string))
        (status : Z) (printed : list string) :
  main pf opts = Exited status printed ->
  (status = 1 /\ printed <> []) \/
  (status = 0 /\ printed = print_usage /\ exists a, In ("h"%char, a) opts).
Proof.
  unfold main, parse_arguments.
  destruct (parse_options pf opts initial_params None)
    as [[st out]|[p' fp']] eqn:E.
  - intros H; injection H as <- <-. eapply parse_options_status; eauto.
  - destruct (_ || _).
    + intros H; injection H as <- <-. left. split; [reflexivity|discriminate].
    + destruct fp'; [discriminate|].
      intros H; injection H as <- <-. left. split; [reflexivity|discriminate].
Qed.

Lemma exit_status_0_or_1_witness :
  (1 = 1 /\ ["ERROR: S must be a power of 2"%string] <> []) \/
  (1 = 0 /\ ["ERROR: S must be a power of 2"%string] = print_usage /\
   exists a, In ("h"%char, a) [("S"%char, "12"%string); ("h"%char, EmptyString)]).
Proof.
  apply (exit_status_0_or_1 (one_file EmptyString)
           [("S"%char, "12"%string); ("h"%char, EmptyString)] 1
           ["ERROR: S must be a power of 2"%string]).
  reflexivity.
Defined.

(** ** One call for each line touched *)

Lemma NoDup_zseq n : forall first, NoDup (zseq first n).
Proof.
  induction n as [|n IH]; intros first; simpl; constructor; auto.
  rewrite in_zseq. lia.
Qed.

Lemma in_selected p address size idx :
  0 < nB p <= INT_MAX -> 0 <= address -> 1 <= size ->
  address + size <= ULONG_MAX ->
  In idx (selected p address size) <->
  address <= idx < address + size /\
  (idx = address \/ idx mod nB p = 0).
Proof.
  intros HB Ha Hs Hmax. rewrite selected_in_range by auto.
  rewrite filter_In, in_zseq. unfold line_start.
  rewrite orb_true_iff, !Z.eqb_eq. rewrite Z2Nat.id by lia. tauto.
Qed.

Lemma aligned_is_multiple b x : 0 < b -> x mod b = 0 -> x = b * (x / b).
Proof. intros Hb H. pose proof (Z.div_mod x b ltac:(lia)). lia. Qed.

(** X21. A Load or Store record makes one call for each line it touches:
    for a record of length at least 1 that does not run past the last
    address, every byte of the record lies in the line of a selected
    address, no two selected addresses lie in the same line, and every
    selected address is a byte of the record. *)
Theorem one_call_per_line (p : Params) (address size : Z) :
  0 < nB p <= INT_MAX -> 0 <= address -> 1 <= size ->
  address + size <= ULONG_MAX ->
  (forall x, address <= x < address + size ->
     exists idx, In idx (selected p address size) /\ idx / nB p = x / nB p) /\
  NoDup (map (fun idx => idx / nB p) (selected p address size)) /\
  (forall idx, In idx (selected p address size) ->
     address <= idx < address + size).
Proof.
  intros HB Ha Hs Hmax.
  assert (Hin := fun idx => in_selected p address size idx HB Ha Hs Hmax).
  split; [|split].
  - intros x Hx.
    pose proof (Z.div_mod x (nB p) ltac:(lia)) as Hdm.
    pose proof (Z.mod_pos_bound x (nB p) ltac:(lia)) as Hmb.
    destruct (Z.le_gt_cases (nB p * (x / nB p)) address) as [Hle|Hgt].
    + exists address. split; [apply Hin; lia|].
      symmetry.
      apply Z.div_unique with (r := address - nB p * (x / nB p)); lia.
    + exists (nB p * (x / nB p)). split.
      * apply Hin. split; [lia|]. right.
        rewrite Z.mul_comm. apply Z_mod_mult.
      * rewrite Z.mul_comm. apply Z_div_mult. lia.
  - apply NoDup_map_NoDup_ForallPairs.
    + intros x y Hx Hy Heq. apply Hin in Hx, Hy.
      destruct Hx as (Hxr & [->|Hxa]), Hy as (Hyr & [->|Hya]); auto.
      * pose proof (aligned_is_multiple (nB p) y ltac:(lia) Hya) as Hy'.
        pose proof (Z.div_mod address (nB p) ltac:(lia)).
        pose proof (Z.mod_pos_bound address (nB p) ltac:(lia)).
        rewrite <- Heq in Hy'. lia.
      * pose proof (aligned_is_multiple (nB p) x ltac:(lia) Hxa) as Hx'.
        pose proof (Z.div_mod address (nB p) ltac:(lia)).
        pose proof (Z.mod_pos_bound address (nB p) ltac:(lia)).
        rewrite Heq in Hx'. lia.
      * rewrite (aligned_is_multiple (nB p) x ltac:(lia) Hxa).
        rewrite (aligned_is_multiple (nB p) y ltac:(lia) Hya).
        now rewrite Heq.
    + rewrite selected_in_range by auto. apply NoDup_filter, NoDup_zseq.
  - intros idx Hidx. now apply Hin in Hidx.
Qed.

Lemma one_call_per_line_witness :
  NoDup (map (fun idx => idx / nB sample_lru) (selected sample_lru 18 9)).
Proof.
  destruct (one_call_per_line sample_lru 18 9) as (_ & H & _);
    [unfold INT_MAX; simpl; lia | lia | lia | unfold ULONG_MAX; lia | exact H].
Defined.

(** X22. A Modify record of one line is a Load followed by a Store of the
    same record. *)
Theorem modify_is_load_then_store (p : Params) (m : Mem) (address size : Z) :
  selected p address size = [address] ->
  replay_record p m "M" address size
  = replay_record p (replay_record p m "L" address size) "S" address size.
Proof.
  intros Hsel. unfold replay_record. cbn.
  now rewrite !visit_lines_calls, Hsel.
Qed.

Lemma modify_is_load_then_store_witness :
  replay_record sample_lru (fresh sample_lru) "M" 16 4
  = replay_record sample_lru (replay_record sample_lru (fresh sample_lru) "L" 16 4)
                  "S" 16 4.
Proof.
  apply (modify_is_load_then_store sample_lru (fresh sample_lru) 16 4).
  reflexivity.
Defined.

(** ** Accounting *)

Lemma to_int_cong x : cong (to_int x) x.
Proof.
  unfold cong, to_int. exists (- ((x + 2 ^ 31) / UINT_MOD)).
  pose proof (Z.div_mod (x + 2 ^ 31) UINT_MOD ltac:(unfold UINT_MOD; lia)).
  lia.
Qed.

Lemma cong_to_int a b : cong a b -> to_int a = to_int b.
Proof.
  intros [q ->]. unfold to_int.
  replace (b + q * UINT_MOD + 2 ^ 31) with (b + 2 ^ 31 + q * UINT_MOD) by lia.
  now rewrite Z_mod_plus_full.
Qed.

Lemma valid_lines_store s i b :
  (i < length s)%nat ->
  Z.of_nat (valid_lines (store s i b))
  = Z.of_nat (valid_lines s) - Z.b2z (negb (invalid (line s i)))
    + Z.b2z (negb (invalid b)).
Proof.
  revert i; induction s as [|h t IH]; intros [|i] Hi; simpl in Hi; try lia.
  - unfold valid_lines, line; simpl.
    destruct (invalid h), (invalid b); simpl length;
      rewrite ?Nat2Z.inj_succ; simpl Z.b2z; lia.
  - specialize (IH i ltac:(lia)). unfold valid_lines, line in *; simpl.
    destruct (invalid h); simpl length; rewrite ?Nat2Z.inj_succ; lia.
Qed.

Lemma valid_lines_restamp s i tag clock :
  Z.of_nat (valid_lines (store s i (mkBlock tag clock (validBits (line s i)))))
  = Z.of_nat (valid_lines s).
Proof.
  destruct (Nat.lt_ge_cases i (length s)) as [Hi|Hi].
  - rewrite valid_lines_store by auto. unfold invalid; simpl. lia.
  - now rewrite store_outside by auto.
Qed.

Lemma valid_lines_le s : (valid_lines s <= length s)%nat.
Proof.
  unfold valid_lines. induction s as [|h t IH]; simpl; auto.
  destruct (negb (invalid h)); simpl; lia.
Qed.

Lemma occupied_store (c : Cache) n s' :
  (n < length c)%nat ->
  Z.of_nat (list_sum (map valid_lines (store c n s')))
  = Z.of_nat (list_sum (map valid_lines c))
    - Z.of_nat (valid_lines (nth n c [])) + Z.of_nat (valid_lines s').
Proof.
  revert n; induction c as [|h t IH]; intros [|n] Hn; simpl in Hn; try lia.
  - simpl. lia.
  - specialize (IH n ltac:(lia)). simpl. lia.
Qed.

Lemma access_lru_balance k t s c mi hi ev :
  length s = k ->
  cong (fst (fst (snd (access_lru k t s c mi hi ev)))
        - snd (snd (access_lru k t s c mi hi ev))
        - Z.of_nat (valid_lines (fst (fst (access_lru k t s c mi hi ev)))))
       (mi - ev - Z.of_nat (valid_lines s)).
Proof.
  intros Hk. unfold access_lru.
  destruct (first_idx (matches t) s k 0) as [idx|] eqn:E1.
  - cbn [fst snd]. rewrite valid_lines_restamp. exists 0. lia.
  - destruct (first_idx invalid s k 0) as [inv|] eqn:E2.
    + apply first_idx_Some in E2 as (Hr & Hinv & _).
      assert (Hlt : (inv < length s)%nat) by lia.
      cbn [fst snd]. rewrite valid_lines_store by auto. rewrite Hinv.
      destruct (to_int_cong (mi + 1)) as [q Hq]. unfold incr_int.
      exists q. unfold invalid; simpl. lia.
    + cbn [fst snd]. rewrite valid_lines_restamp.
      destruct (to_int_cong (mi + 1)) as [q Hq].
      destruct (to_int_cong (ev + 1)) as [q' Hq']. unfold incr_int.
      exists (q - q'). lia.
Qed.

Lemma access_fifo_balance k t s c mi hi ev :
  length s = k ->
  cong (fst (fst (snd (access_fifo k t s c mi hi ev)))
        - snd (snd (access_fifo k t s c mi hi ev))
        - Z.of_nat (valid_lines (fst (fst (access_fifo k t s c mi hi ev)))))
       (mi - ev - Z.of_nat (valid_lines s)).
Proof.
  intros Hk. unfold access_fifo.
  destruct (first_idx (matches t) s k 0) as [idx|] eqn:E1.
  - cbn [fst snd]. exists 0. lia.
  - destruct (first_idx invalid s k 0) as [inv|] eqn:E2.
    + apply first_idx_Some in E2 as (Hr & Hinv & _).
      assert (Hlt : (inv < length s)%nat) by lia.
      cbn [fst snd]. rewrite valid_lines_store by auto. rewrite Hinv.
      destruct (to_int_cong (mi + 1)) as [q Hq]. unfold incr_int.
      exists q. unfold invalid; simpl. lia.
    + cbn [fst snd].
      assert (Hsame : Z.of_nat (valid_lines
                        (store s (fifo_victim s k 0 0)
                               (mkBlock t (incr_uint c) 1)))
                      = Z.of_nat (valid_lines s)).
      { destruct k as [|k'].
        - destruct s; [reflexivity|discriminate].
        - destruct (fifo_victim_first_min s (Datatypes.S k') ltac:(lia))
            as (Hv & _).
          rewrite valid_lines_store by lia.
          rewrite (first_idx_None _ _ _ _ E2 (fifo_victim s (Datatypes.S k') 0 0)
                     ltac:(lia)).
          unfold invalid; simpl. lia. }
      rewrite Hsame.
      destruct (to_int_cong (mi + 1)) as [q Hq].
      destruct (to_int_cong (ev + 1)) as [q' Hq']. unfold incr_int.
      exists (q - q'). lia.
Qed.

Lemma access_data_balanced p m addr :
  0 <= addr -> wf p m -> balanced m -> balanced (access_data p m addr).
Proof.
  intros Ha Hwf [q0 H0].
  pose proof (num_set_in_range p m addr Hwf Ha) as Hn.
  destruct (Z.eq_dec (policy p) LRU) as [Hl|Hl];
    [|destruct (Z.eq_dec (policy p) FIFO) as [Hf|Hf]].
  - rewrite access_data_lru by auto. cbv zeta.
    unfold balanced, occupied. cbn [miss_count eviction_count cache].
    rewrite occupied_store by auto.
    destruct (access_lru_balance (Z.to_nat (nK p)) (num_tag_of p addr)
                (set_at (cache m) (num_set_of p m addr)) (num_lru m)
                (miss_count m) (hit_count m) (eviction_count m)
                (set_length p m addr Hwf Ha)) as [q1 H1].
    unfold set_at, occupied in *. exists (q0 + q1). lia.
  - rewrite access_data_fifo by auto. cbv zeta.
    unfold balanced, occupied. cbn [miss_count eviction_count cache].
    rewrite occupied_store by auto.
    destruct (access_fifo_balance (Z.to_nat (nK p)) (num_tag_of p addr)
                (set_at (cache m) (num_set_of p m addr)) (num_fifo m)
                (miss_count m) (hit_count m) (eviction_count m)
                (set_length p m addr Hwf Ha)) as [q1 H1].
    unfold set_at, occupied in *. exists (q0 + q1). lia.
  - rewrite access_data_no_policy by auto. now exists q0.
Qed.

Lemma fresh_occupied p : occupied (fresh p) = 0.
Proof.
  unfold occupied, fresh, allocate_cache; cbn [cache].
  assert (H : valid_lines (repeat empty_block (Z.to_nat (nK p))) = 0%nat).
  { unfold valid_lines. induction (Z.to_nat (nK p)) as [|k IH]; simpl; auto. }
  induction (Z.to_nat (nS p)) as [|n IH]; simpl; auto.
  rewrite H. simpl. exact IH.
Qed.

Lemma occupied_le p m :
  wf p m -> 0 < nK p -> 0 <= occupied m <= nS p * nK p.
Proof.
  intros (HS & _ & Hlen & Hsets) HK. unfold occupied. split; [lia|].
  assert (Hall : forall s, In s (cache m) -> (valid_lines s <= Z.to_nat (nK p))%nat).
  { intros s Hin. destruct (In_nth _ _ [] Hin) as (i & Hi & <-).
    pose proof (valid_lines_le (nth i (cache m) [])).
    destruct (Hsets i) as [E|E];
      [|exfalso; apply (Nat.lt_irrefl i);
        exact (Nat.lt_le_trans _ _ _ Hi E)].
    change (valid_lines (nth i (cache m) []) <= length (nth i (cache m) []))%nat in H.
    rewrite E in H. exact H. }
  assert (Hsum : (list_sum (map valid_lines (cache m))
                  <= length (cache m) * Z.to_nat (nK p))%nat).
  { clear Hlen Hsets. induction (cache m) as [|h t IH]; simpl; auto.
    pose proof (Hall h (or_introl eq_refl)).
    specialize (IH (fun s Hs => Hall s (or_intror Hs))). lia. }
  rewrite Hlen in Hsum. nia.
Qed.

Lemma run_balanced p trace_fp :
  0 < nS p <= INT_MAX ->
  wf p (run p trace_fp) /\ balanced (run p trace_fp).
Proof.
  intros HS. unfold run.
  apply (replay_trace_keeps p (fun m => wf p m /\ balanced m)).
  - intros m addr Ha (Hwf & Hb). split; [now apply access_data_wf|].
    apply access_data_balanced; auto; lia.
  - split; [now apply allocate_cache_wf|].
    unfold balanced. fold (fresh p). rewrite fresh_occupied.
    exists 0. reflexivity.
Qed.

(** X23. The misses that evicted nothing each filled a line, and a filled
    line stays filled: at the end of a run, whatever the trace and the
    policy, [miss_count - eviction_count] (in [int]) is the number of valid
    lines in the cache, which is at most [S * K]. *)
Theorem misses_less_evictions_are_valid_lines (p : Params) (trace_fp : string) :
  0 < nS p <= INT_MAX -> 0 < nK p -> nS p * nK p <= INT_MAX ->
  let m := run p trace_fp in
  to_int (miss_count m - eviction_count m) = occupied m /\
  0 <= occupied m <= nS p * nK p.
Proof.
  intros HS HK HSK. cbv zeta.
  destruct (run_balanced p trace_fp HS) as (Hwf & Hb).
  pose proof (occupied_le p _ Hwf HK) as Hle. split; auto.
  rewrite (cong_to_int _ _ Hb). apply to_int_small. lia.
Qed.

Lemma misses_less_evictions_are_valid_lines_witness :
  to_int (miss_count (run sample_lru sample_trace)
          - eviction_count (run sample_lru sample_trace))
  = occupied (run sample_lru sample_trace) /\
  0 <= occupied (run sample_lru sample_trace) <= nS sample_lru * nK sample_lru.
Proof.
  apply (misses_less_evictions_are_valid_lines sample_lru sample_trace);
    unfold INT_MAX; simpl; lia.
Defined.

Lemma access_data_counted p m addr :
  policy p = LRU \/ policy p = FIFO ->
  cong (hit_count (access_data p m addr) + miss_count (access_data p m addr))
       (hit_count m + miss_count m + 1).
Proof.
  intros [Hp|Hp].
  - rewrite access_data_lru by auto. cbv zeta. cbn [hit_count miss_count].
    unfold access_lru.
    destruct (first_idx (matches _) _ _ 0); [|destruct (first_idx invalid _ _ 0)];
      cbn [fst snd]; unfold incr_int.
    + destruct (to_int_cong (hit_count m + 1)) as [q Hq]. exists q. lia.
    + destruct (to_int_cong (miss_count m + 1)) as [q Hq]. exists q. lia.
    + destruct (to_int_cong (miss_count m + 1)) as [q Hq]. exists q. lia.
  - rewrite access_data_fifo by auto. cbv zeta. cbn [hit_count miss_count].
    unfold access_fifo.
    destruct (first_idx (matches _) _ _ 0); [|destruct (first_idx invalid _ _ 0)];
      cbn [fst snd]; unfold incr_int.
    + destruct (to_int_cong (hit_count m + 1)) as [q Hq]. exists q. lia.
    + destruct (to_int_cong (miss_count m + 1)) as [q Hq]. exists q. lia.
    + destruct (to_int_cong (miss_count m + 1)) as [q Hq]. exists q. lia.
Qed.

Lemma fold_access_counted p l :
  policy p = LRU \/ policy p = FIFO ->
  forall m,
    cong (hit_count (fold_left (access_data p) l m)
          + miss_count (fold_left (access_data p) l m))
         (hit_count m + miss_count m + Z.of_nat (length l)).
Proof.
  intros Hp. induction l as [|a l IH]; intros m.
  - exists 0. simpl. lia.
  - cbn [fold_left]. destruct (IH (access_data p m a)) as [q Hq].
    destruct (access_data_counted p m a Hp) as [q' Hq'].
    exists (q + q'). cbn [length]. lia.
Qed.

Lemma fold_access_twice_counted p l :
  policy p = LRU \/ policy p = FIFO ->
  forall m,
    cong (hit_count (fold_left (fun m idx => access_data p (access_data p m idx) idx) l m)
          + miss_count (fold_left (fun m idx => access_data p (access_data p m idx) idx) l m))
         (hit_count m + miss_count m + Z.of_nat (2 * length l)).
Proof.
  intros Hp. induction l as [|a l IH]; intros m.
  - exists 0. simpl. lia.
  - cbn [fold_left].
    destruct (IH (access_data p (access_data p m a) a)) as [q Hq].
    destruct (access_data_counted p m a Hp) as [q1 Hq1].
    destruct (access_data_counted p (access_data p m a) a Hp) as [q2 Hq2].
    exists (q + q1 + q2). cbn [length]. lia.
Qed.

Lemma replay_record_counted p m r :
  policy p = LRU \/ policy p = FIFO ->
  cong (hit_count (replay_record p m (fst (fst r)) (snd (fst r)) (snd r))
        + miss_count (replay_record p m (fst (fst r)) (snd (fst r)) (snd r)))
       (hit_count m + miss_count m + Z.of_nat (calls_of p r)).
Proof.
  intros Hp. destruct r as [[cmd a] sz]. cbn [fst snd].
  unfold replay_record, calls_of.
  destruct ((cmd =? "L")%char || (cmd =? "S")%char).
  - rewrite visit_lines_calls. now apply fold_access_counted.
  - destruct (cmd =? "M")%char.
    + rewrite visit_lines_calls. now apply fold_access_twice_counted.
    + exists 0. simpl. lia.
Qed.

Lemma replay_records_counted p rs :
  policy p = LRU \/ policy p = FIFO ->
  forall m,
    cong (hit_count (replay_records p rs m) + miss_count (replay_records p rs m))
         (hit_count m + miss_count m
          + Z.of_nat (list_sum (map (calls_of p) rs))).
Proof.
  intros Hp. unfold replay_records.
  induction rs as [|r rs IH]; intros m.
  - exists 0. simpl. lia.
  - cbn [fold_left map list_sum].
    destruct (IH (replay_record p m (fst (fst r)) (snd (fst r)) (snd r)))
      as [q Hq].
    destruct (replay_record_counted p m r Hp) as [q' Hq'].
    change (list_sum (calls_of p r :: map (calls_of p) rs))
      with (calls_of p r + list_sum (map (calls_of p) rs))%nat.
    exists (q + q'). lia.
Qed.

(** X24. Every call of [access_data] counts one hit or one miss, and the
    replay makes one call for each selected address of a Load or Store
    record and two for each of a Modify record: at the end of a run under
    LRU or FIFO, hits plus misses (in [int]) is the number of these calls
    over the records read. *)
Theorem hits_and_misses_count_the_calls (p : Params) (trace_fp : string) :
  policy p = LRU \/ policy p = FIFO ->
  to_int (hit_count (run p trace_fp) + miss_count (run p trace_fp))
  = to_int (Z.of_nat (calls p trace_fp)).
Proof.
  intros Hp. apply cong_to_int. unfold run, calls.
  rewrite replay_trace_records.
  destruct (replay_records_counted p (records trace_fp) Hp
              (allocate_cache p initial_mem)) as [q Hq].
  exists q. rewrite Hq. reflexivity.
Qed.

Lemma hits_and_misses_count_the_calls_witness :
  to_int (hit_count (run sample_lru sample_trace)
          + miss_count (run sample_lru sample_trace))
  = to_int (Z.of_nat (calls sample_lru sample_trace)).
Proof.
  apply (hits_and_misses_count_the_calls sample_lru sample_trace).
  left. reflexivity.
Defined.
